(** * motor-check: the curve modelling engine of [src/App.tsx]

    The engine is four pure functions: [buildSeries], [interpolateCurrentForLift],
    [buildFlightCurve] and [splitCurve].  They are embedded here as Rocq
    functions over a model of the ECMAScript Number type.

    Number model.  A JavaScript number is [NaN], [+Infinity], [-Infinity] or a
    finite value.  Finite values are modelled as real numbers with exact
    arithmetic: rounding, overflow and underflow of binary64 are abstracted
    away, and the two zeros are identified (a zero divisor is taken as [+0],
    which is the only zero this program ever divides by).  Everything the
    program's control flow depends on is kept: the propagation of [NaN] and of
    the infinities, comparisons with [NaN] being false, the truthiness used by
    [||], [undefined] handled by [??], [Number.isFinite], [Math.max] and
    [Math.min] returning [NaN] on a [NaN] argument, division by zero.

    Scope of the statements.  The theorems are worded so that they do not
    lean on the exactness of the arithmetic for values of ordinary magnitude:
    they are about the branch taken, the sign and the order of the values,
    and the formula that is evaluated.  Where binary64 rounding makes a
    closed form differ from the formula, the formula is what is stated
    ([a.x + 1 * (b.x - a.x)], not [b.x]).  In binary64 [Math.pow] underflows
    to 0 for a large exponent, which turns the power-law estimate into
    [Infinity * 0 = NaN] even on distinct thrusts; the model does not show
    this, so no general bound on the power-law estimate is claimed beyond
    what [Math.max(0, .)] guarantees. *)

From Stdlib Require Import Reals Lra List Bool Arith Lia Permutation Sorted.
From Stdlib Require NArith Strings.String Strings.Ascii.
Import ListNotations.

Open Scope R_scope.

(** ** ECMAScript numbers *)

Module JS.

Inductive num : Type :=
| NaN
| PInf
| NInf
| Fin (r : R).

Definition Rltb (a b : R) : bool := if Rlt_dec a b then true else false.
Definition Rleb (a b : R) : bool := if Rle_dec a b then true else false.
Definition Reqb (a b : R) : bool := if Req_dec_T a b then true else false.

Definition inf_of_sign (positive : bool) : num := if positive then PInf else NInf.

(** Unary minus. *)
Definition neg (a : num) : num :=
  match a with
  | NaN => NaN
  | PInf => NInf
  | NInf => PInf
  | Fin r => Fin (- r)
  end.

Definition add (a b : num) : num :=
  match a, b with
  | NaN, _ | _, NaN => NaN
  | PInf, NInf | NInf, PInf => NaN
  | PInf, _ | _, PInf => PInf
  | NInf, _ | _, NInf => NInf
  | Fin u, Fin v => Fin (u + v)
  end.

Definition sub (a b : num) : num := add a (neg b).

(** [(+-Infinity) * b]; the product with zero is [NaN]. *)
Definition mul_inf (positive : bool) (b : num) : num :=
  match b with
  | NaN => NaN
  | PInf => inf_of_sign positive
  | NInf => inf_of_sign (negb positive)
  | Fin r =>
      if Rltb 0 r then inf_of_sign positive
      else if Rltb r 0 then inf_of_sign (negb positive)
      else NaN
  end.

Definition mul (a b : num) : num :=
  match a, b with
  | NaN, _ | _, NaN => NaN
  | PInf, _ => mul_inf true b
  | NInf, _ => mul_inf false b
  | _, PInf => mul_inf true a
  | _, NInf => mul_inf false a
  | Fin u, Fin v => Fin (u * v)
  end.

(** Division.  A finite non-zero value over zero is an infinity of the sign of
    the dividend, [0/0] is [NaN]. *)
Definition div (a b : num) : num :=
  match a, b with
  | NaN, _ | _, NaN => NaN
  | PInf, PInf | PInf, NInf | NInf, PInf | NInf, NInf => NaN
  | PInf, Fin v => if Rltb v 0 then NInf else PInf
  | NInf, Fin v => if Rltb v 0 then PInf else NInf
  | Fin _, PInf | Fin _, NInf => Fin 0
  | Fin u, Fin v =>
      if Reqb v 0 then
        if Rltb 0 u then PInf else if Rltb u 0 then NInf else NaN
      else Fin (u / v)
  end.

(** The relational operators; every comparison with [NaN] is false. *)
Definition lt (a b : num) : bool :=
  match a, b with
  | NaN, _ | _, NaN => false
  | Fin u, Fin v => Rltb u v
  | _, NInf => false
  | NInf, _ => true
  | PInf, _ => false
  | Fin _, PInf => true
  end.

Definition le (a b : num) : bool :=
  match a, b with
  | NaN, _ | _, NaN => false
  | Fin u, Fin v => Rleb u v
  | NInf, _ => true
  | _, PInf => true
  | _, NInf => false
  | PInf, _ => false
  end.

Definition gt (a b : num) : bool := lt b a.
Definition ge (a b : num) : bool := le b a.

(** [Math.max] and [Math.min] of two arguments. *)
Definition max2 (a b : num) : num :=
  match a, b with
  | NaN, _ | _, NaN => NaN
  | _, _ => if lt a b then b else a
  end.

Definition min2 (a b : num) : num :=
  match a, b with
  | NaN, _ | _, NaN => NaN
  | _, _ => if lt b a then b else a
  end.

(** [Math.max(...l)] and [Math.min(...l)]: the empty spread gives
    [-Infinity] and [+Infinity]. *)
Definition Math_max (l : list num) : num := fold_right max2 NInf l.
Definition Math_min (l : list num) : num := fold_right min2 PInf l.

Definition Math_abs (a : num) : num :=
  match a with
  | NaN => NaN
  | PInf | NInf => PInf
  | Fin r => Fin (Rabs r)
  end.

Definition Math_log (a : num) : num :=
  match a with
  | NaN | NInf => NaN
  | PInf => PInf
  | Fin r => if Rltb r 0 then NaN else if Reqb r 0 then NInf else Fin (ln r)
  end.

Definition Math_sqrt (a : num) : num :=
  match a with
  | NaN | NInf => NaN
  | PInf => PInf
  | Fin r => if Rltb r 0 then NaN else Fin (sqrt r)
  end.

(** Is the finite exponent [e] an odd integer? *)
Definition is_integer (e : R) : bool := Reqb (frac_part e) 0.
Definition is_odd_integer (e : R) : bool := is_integer e && Z.odd (Int_part e).

(** [Math.pow(base, exponent)], after Number::exponentiate. *)
Definition Math_pow (base exponent : num) : num :=
  match exponent with
  | NaN => NaN
  | Fin e =>
      if Reqb e 0 then Fin 1
      else
        match base with
        | NaN => NaN
        | PInf => if Rltb 0 e then PInf else Fin 0
        | NInf =>
            if Rltb 0 e then (if is_odd_integer e then NInf else PInf) else Fin 0
        | Fin b =>
            if Rltb 0 b then Fin (Rpower b e)
            else if Reqb b 0 then (if Rltb 0 e then Fin 0 else PInf)
            else if is_integer e then Fin (powerRZ b (Int_part e))
            else NaN
        end
  | PInf =>
      match Math_abs base with
      | NaN => NaN
      | PInf | NInf => PInf
      | Fin m => if Rltb 1 m then PInf else if Reqb m 1 then NaN else Fin 0
      end
  | NInf =>
      match Math_abs base with
      | NaN => NaN
      | PInf | NInf => Fin 0
      | Fin m => if Rltb 1 m then Fin 0 else if Reqb m 1 then NaN else PInf
      end
  end.

Definition Number_isFinite (a : num) : bool :=
  match a with
  | Fin _ => true
  | _ => false
  end.

(** ToBoolean on a number: [0] and [NaN] are falsy. *)
Definition truthy (a : num) : bool :=
  match a with
  | NaN => false
  | PInf | NInf => true
  | Fin r => negb (Reqb r 0)
  end.

(** [a || b] on numbers. *)
Definition or_else (a b : num) : num := if truthy a then a else b.

(** [o ?? d] and [o || d] on a field that may be [undefined] or [null]. *)
Definition nullish (o : option num) (d : num) : num :=
  match o with
  | Some v => v
  | None => d
  end.

Definition or_else_opt (o : option num) (d : num) : num :=
  match o with
  | Some v => or_else v d
  | None => d
  end.

(** [Array.prototype.sort(comparefn)]: the sort is stable, an element moves
    behind another one only when the comparator is positive, and a [NaN]
    comparator result counts as [0].  For a consistent comparator the result
    does not depend on the algorithm; it is written here as a stable insertion
    sort.  A comparator [a.k - b.k] is consistent when no key is [NaN]; with a
    [NaN] key ECMAScript leaves the order to the implementation, and the
    order chosen here is one of the permitted ones.  Every statement below
    that depends on the order of a sorted list assumes keys that are
    numbers. *)
Section Sort.
Context {A : Type} (comparefn : A -> A -> num).

Fixpoint insert (e : A) (l : list A) : list A :=
  match l with
  | [] => [e]
  | h :: tl => if gt (comparefn e h) (Fin 0) then h :: insert e tl else e :: l
  end.

Definition sort (l : list A) : list A := fold_right insert [] l.
End Sort.

End JS.

Import JS.

Coercion Fin : R >-> num.

Declare Scope js_scope.
Delimit Scope js_scope with js.
Bind Scope js_scope with num.
Infix "+" := add : js_scope.
Infix "-" := sub : js_scope.
Infix "*" := mul : js_scope.
Infix "/" := div : js_scope.
Infix "<?" := lt (at level 70, no associativity) : js_scope.
Infix ">?" := gt (at level 70, no associativity) : js_scope.
Infix "<=?" := le (at level 70, no associativity) : js_scope.
Infix ">=?" := ge (at level 70, no associativity) : js_scope.
Infix "||" := or_else : js_scope.
Infix "??" := nullish (at level 34, left associativity) : js_scope.
Infix "|?" := or_else_opt (at level 34, left associativity) : js_scope.

(** ** Data model *)

(** A raw sample row [{current, thrust_kg, throttle}]. *)
Record row : Type := mkRow {
  current : num;
  thrust_kg : num;
  row_throttle : option num
}.

(** A series point [{x, y, throttle}]. *)
Record point : Type := mkPoint {
  x : num;
  y : num;
  throttle : option num
}.

Inductive reason : Type :=
| no_data
| exceeds_max
| segment_not_found.

(** [{ok:true, currentA, throttle, noteLow}] or [{ok:false, reason}]. *)
Inductive result : Type :=
| Ok (currentA : num) (throttle : num) (noteLow : bool)
| Err (why : reason).

(** A flight-curve point [{w, t, est}]. *)
Record curvePoint : Type := mkCurve {
  w : num;
  t : num;
  est : bool
}.

Open Scope js_scope.

(** ** buildSeries *)

Definition buildSeries (points : option (list row)) : list point :=
  match points with
  | None => []
  | Some points =>
      sort (fun a b => a.(x) - b.(x))
        (map (fun p => mkPoint p.(current) p.(thrust_kg) p.(row_throttle))
           (filter (fun p => Number_isFinite p.(current) && Number_isFinite p.(thrust_kg))
              points))
  end.

(** ** interpolateCurrentForLift *)

(** Power-law extrapolation through the two lowest points (lines 26-40). *)
Definition powerLaw (a b : point) (liftKgPerMotor : num) : result :=
  let bExp := Math_log (b.(x) / a.(x)) / Math_log (b.(y) / a.(y)) in
  let aCoef := a.(x) / Math_pow a.(y) bExp in
  let currentPL := aCoef * Math_pow (max2 liftKgPerMotor 1e-9) bExp in
  let thr :=
    if ((a.(throttle) ?? 0) >? 0) && ((b.(throttle) ?? 0) >? 0) then
      let dExp :=
        Math_log ((b.(throttle) |? 1) / (a.(throttle) |? 1)) / Math_log (b.(y) / a.(y)) in
      let cCoef := (a.(throttle) |? 1) / Math_pow a.(y) dExp in
      cCoef * Math_pow (max2 liftKgPerMotor 1e-9) dExp
    else
      let k := (a.(throttle) ?? 0) / Math_sqrt (a.(y) || 1e-9) in
      k * Math_sqrt (max2 liftKgPerMotor 0) in
  Ok (max2 0 currentPL) (max2 0 thr) true.

(** Linear extrapolation from the lowest point (lines 43-47). *)
Definition linearFallback (a b : point) (dy liftKgPerMotor : num) : result :=
  let slopeIx := (b.(x) - a.(x)) / dy in
  let slopeTh := ((b.(throttle) ?? 0) - (a.(throttle) ?? 0)) / dy in
  let current := max2 0 (a.(x) + (liftKgPerMotor - a.(y)) * slopeIx) in
  let thr := max2 0 ((a.(throttle) ?? 0) + (liftKgPerMotor - a.(y)) * slopeTh) in
  Ok current thr true.

(** A single point is scaled towards the origin (lines 50-51). *)
Definition singlePoint (min : point) (liftKgPerMotor : num) : result :=
  let scale := max2 0 (liftKgPerMotor / max2 min.(y) 1e-9) in
  Ok (min.(x) * scale) ((min.(throttle) ?? 0) * scale) true.

(** The body of the bracketing loop for the pair [(a, b)] (lines 61-64). *)
Definition segment (a b : point) (liftKgPerMotor : num) : result :=
  let t := (liftKgPerMotor - a.(y)) / ((b.(y) - a.(y)) || 1) in
  let current := a.(x) + t * (b.(x) - a.(x)) in
  let thr := (a.(throttle) ?? 0) + t * ((b.(throttle) ?? 0) - (a.(throttle) ?? 0)) in
  Ok current thr false.

(** [for(let i=0;i<pts.length-1;i++)] over the consecutive pairs (lines 58-67). *)
Fixpoint segmentLoop (pts : list point) (liftKgPerMotor : num) : result :=
  match pts with
  | a :: ((b :: _) as rest) =>
      if (liftKgPerMotor >=? a.(y)) && (liftKgPerMotor <=? b.(y))
      then segment a b liftKgPerMotor
      else segmentLoop rest liftKgPerMotor
  | _ => Err segment_not_found
  end.

(** The test for the power-law fit (line 25). *)
Definition positivePair (a b : point) : bool :=
  (a.(y) >? 0) && (b.(y) >? 0) && (a.(x) >? 0) && (b.(x) >? 0).

(** The sorted copy [pts] is empty exactly when [series] is, so the [no-data]
    test is made on it.  A null series behaves as the empty one. *)
Definition interpolateCurrentForLift (series : list point) (liftKgPerMotor : num)
  : result :=
  match sort (fun a b => a.(y) - b.(y)) series with
  | [] => Err no_data
  | (min :: _) as pts =>
      let max := last pts min in
      if liftKgPerMotor <? min.(y) then
        match pts with
        | a :: b :: _ =>
            let dy := (b.(y) - a.(y)) || 1e-9 in
            if positivePair a b
            then powerLaw a b liftKgPerMotor
            else linearFallback a b dy liftKgPerMotor
        | _ => singlePoint min liftKgPerMotor
        end
      else if liftKgPerMotor >? max.(y) then Err exceeds_max
      else segmentLoop pts liftKgPerMotor
  end.

(** ** buildFlightCurve *)

(** Minutes of flight for a per-motor current (lines 100-102 and 111-113). *)
Definition minutesAt (currentA motorCount usableAh : num) : num :=
  let floorPerMotorA := 0.1 in
  let perMotorA := max2 (currentA || 0) floorPerMotorA in
  let totalCurrent := perMotorA * motorCount in
  if totalCurrent >? 0 then min2 ((usableAh / totalCurrent) * 60) 120 else 0.

(** One turn of the sampling loop (lines 97-105): [out.push] or nothing. *)
Definition sweepStep (series : list point) (motorCount usableAh : num)
    (minPerMotorLift startPer endPer : num) (points : nat)
    (out : list curvePoint) (i : nat) : list curvePoint :=
  let perMotor := startPer + (endPer - startPer) * (INR i / (INR points - 1)) in
  match interpolateCurrentForLift series perMotor with
  | Ok currentA _ _ =>
      let minutes := minutesAt currentA motorCount usableAh in
      let isEst := perMotor <? minPerMotorLift - 1e-9 in
      out ++ [mkCurve (perMotor * motorCount) minutes isEst]
  | Err _ => out
  end.

(** The boundary point at the lowest measured thrust (lines 108-119). *)
Definition addBoundary (series : list point) (motorCount usableAh : num)
    (minPerMotorLift : num) (out : list curvePoint) : list curvePoint :=
  if minPerMotorLift >? 0 then
    match interpolateCurrentForLift series minPerMotorLift with
    | Ok currentA _ _ =>
        let minutes := minutesAt currentA motorCount usableAh in
        let boundary := mkCurve (minPerMotorLift * motorCount) minutes false in
        let exists_ := existsb (fun p => Math_abs (p.(w) - boundary.(w)) <? 1e-6) out in
        if exists_ then out else out ++ [boundary]
    | Err _ => out
    end
  else out.

(** [points] is the number of samples (60 when the argument is left out). *)
Definition buildFlightCurve (series : list point)
    (motorCount capacityAh usablePct : num) (points : nat) : list curvePoint :=
  match series with
  | [] => []
  | _ :: _ =>
      let ys := filter Number_isFinite (map y series) in
      let minPerMotorLift := match ys with [] => Fin 0 | _ :: _ => Math_min ys end in
      let maxPerMotorLift := match ys with [] => Fin 0 | _ :: _ => Math_max ys end in
      let startPer := max2 0 (minPerMotorLift * 0.7) in
      let endPer := max2 (startPer + 0.01) (maxPerMotorLift * 0.99) in
      let usableAh := capacityAh * (usablePct / 100) in
      let out :=
        fold_left
          (sweepStep series motorCount usableAh minPerMotorLift startPer endPer points)
          (seq 0 points) [] in
      let out := addBoundary series motorCount usableAh minPerMotorLift out in
      sort (fun a b => a.(w) - b.(w)) out
  end.

(** ** splitCurve *)

(** The returned object [{known, est}]. *)
Record partition : Type := mkPartition {
  known : list curvePoint;
  estimated : list curvePoint
}.

(** [lastEst] is an element of the non-empty [est], so [!lastEst] is false and
    the test of line 322 is the comparison alone. *)
Definition splitCurve (curve : list curvePoint) : partition :=
  match curve with
  | [] => mkPartition [] []
  | _ :: _ =>
      let known := filter (fun d => negb d.(est)) curve in
      let est_ := filter (fun d => d.(est)) curve in
      match known, est_ with
      | boundary :: _, e :: _ =>
          let lastEst := last est_ e in
          if Math_abs (lastEst.(w) - boundary.(w)) >? 1e-6
          then mkPartition known (est_ ++ [mkCurve boundary.(w) boundary.(t) true])
          else mkPartition known est_
      | _, _ => mkPartition known est_
      end
  end.

(** ** Vocabulary of the specification *)

(** A value that is a number, that is, not [NaN]; comparisons between such
    values are total. *)
Definition notNaN (a : num) : bool :=
  match a with
  | NaN => false
  | _ => true
  end.

(** Order of two elements by a numeric key, and keys that are finite. *)
Definition key_le {A : Type} (key : A -> num) (a b : A) : Prop :=
  (key a <=? key b) = true.

Definition finiteKey {A : Type} (key : A -> num) (a : A) : Prop :=
  Number_isFinite (key a) = true.

(** The filter and the mapping of the series builder, as the specification
    words them. *)
Definition finiteRow (r : row) : bool :=
  Number_isFinite r.(current) && Number_isFinite r.(thrust_kg).

Definition toPoint (r : row) : point :=
  mkPoint r.(current) r.(thrust_kg) r.(row_throttle).

Definition finitePoint (p : point) : Prop :=
  Number_isFinite p.(x) = true /\ Number_isFinite p.(y) = true.

(** The series re-sorted by thrust, [pts] in the source. *)
Abbreviation byThrust series := (sort (fun a b => sub (y a) (y b)) series).

(** Which extrapolation is used below the lowest point. *)
Definition extrapolation (pts : list point) (liftKgPerMotor : num) : option result :=
  match pts with
  | [] => None
  | [a] => Some (singlePoint a liftKgPerMotor)
  | a :: b :: _ =>
      Some (if positivePair a b
            then powerLaw a b liftKgPerMotor
            else linearFallback a b ((b.(y) - a.(y)) || 1e-9) liftKgPerMotor)
  end.

(** The consecutive pairs of the sorted series and the test of line 60. *)
Definition adjacentPairs (pts : list point) : list (point * point) :=
  combine pts (tl pts).

Definition brackets (liftKgPerMotor : num) (ab : point * point) : bool :=
  (liftKgPerMotor >=? (fst ab).(y)) && (liftKgPerMotor <=? (snd ab).(y)).

(** A throttle field is absent or a finite number. *)
Definition finiteThrottle (p : point) : Prop :=
  match p.(throttle) with
  | None => True
  | Some v => Number_isFinite v = true
  end.

(** The exponent and the current of the fit, over the reals. *)
Definition plExponent (u1 v1 u2 v2 : R) : R := (ln (u2 / u1) / ln (v2 / v1))%R.

Definition plCurrent (u1 v1 u2 v2 l : R) : R :=
  (u1 / Rpower v1 (plExponent u1 v1 u2 v2)
   * Rpower (Rmax l 1e-9) (plExponent u1 v1 u2 v2))%R.

(** A measured point with a finite current that is not negative, a finite
    thrust, and a throttle that is absent or finite and not negative. *)
Definition physicalPoint (p : point) : Prop :=
  (exists u v : R, p.(x) = Fin u /\ p.(y) = Fin v /\ (0 <= u)%R) /\
  match p.(throttle) with
  | None => True
  | Some tv => exists r : R, tv = Fin r /\ (0 <= r)%R
  end.

Definition nonnegResult (r : result) : Prop :=
  match r with
  | Ok c th _ => (c >=? 0) = true /\ (th >=? 0) = true
  | Err _ => True
  end.

(** The answer is the power-law fit: the target is below the lowest thrust
    (line 20) and the two lowest points pass the test of line 25. *)
Definition fittedByPowerLaw (series : list point) (liftKgPerMotor : num) : bool :=
  match byThrust series with
  | a :: b :: _ => (liftKgPerMotor <? a.(y)) && positivePair a b
  | _ => false
  end.

(** The local constants of [buildFlightCurve] as functions of its arguments. *)
Definition finiteThrusts (series : list point) : list num :=
  filter Number_isFinite (map y series).

Definition minLift (series : list point) : num :=
  match finiteThrusts series with
  | [] => Fin 0
  | _ :: _ => Math_min (finiteThrusts series)
  end.

Definition maxLift (series : list point) : num :=
  match finiteThrusts series with
  | [] => Fin 0
  | _ :: _ => Math_max (finiteThrusts series)
  end.

Definition startLift (series : list point) : num := max2 0 (minLift series * 0.7).

Definition endLift (series : list point) : num :=
  max2 (startLift series + 0.01) (maxLift series * 0.99).

Definition usable (capacityAh usablePct : num) : num := capacityAh * (usablePct / 100).

(** The lift of sample [i] out of [points]. *)
Definition sweptLift (startPer endPer : num) (points i : nat) : num :=
  startPer + (endPer - startPer) * (INR i / (INR points - 1)).

Definition sweep (series : list point) (motorCount usableAh : num) (points : nat)
  : list curvePoint :=
  fold_left
    (sweepStep series motorCount usableAh (minLift series) (startLift series)
       (endLift series) points)
    (seq 0 points) [].

(** A point pushed by the sampling loop. *)
Definition sweptPoint (series : list point) (motorCount usableAh : num)
    (minPerMotorLift perMotor : num) (p : curvePoint) : Prop :=
  exists (cur th : num) (nl : bool),
    interpolateCurrentForLift series perMotor = Ok cur th nl /\
    p = mkCurve (perMotor * motorCount) (minutesAt cur motorCount usableAh)
          (perMotor <? minPerMotorLift - 1e-9).

Definition minutesInRange (p : curvePoint) : Prop :=
  exists m : R, p.(t) = Fin m /\ (0 <= m <= 120)%R.

Definition finiteWeight (p : curvePoint) : Prop := exists r : R, p.(w) = Fin r.

(** "Per-unit lift equal to [minY] within 1e-6", for a point of the curve. *)
Definition atBoundary (motorCount minY : num) (p : curvePoint) : bool :=
  Math_abs (p.(w) / motorCount - minY) <=? 1e-6.

(** The test of the de-duplication (line 116) against the boundary weight
    [minY * motorCount]: the weights are less than 1e-6 apart. *)
Definition nearBoundary (motorCount minY : num) (p : curvePoint) : bool :=
  Math_abs (p.(w) - minY * motorCount) <? 1e-6.

(** Consecutive samples of the sweep are at least 4e-6 apart in weight:
    [(endPer - startPer) * motorCount >= 4e-6 * (points - 1)]. *)
Definition samplesApart (series : list point) (motorCount : num) (points : nat) : Prop :=
  (Fin 4e-6 * (INR points - 1) <=? (endLift series - startLift series) * motorCount) = true.

(** What one turn of the sampling loop pushes: the point of sample [i], or
    nothing when the interpolation fails. *)
Definition sampledPoint (series : list point) (motorCount usableAh : num)
    (minPerMotorLift startPer endPer : num) (points i : nat) : list curvePoint :=
  match interpolateCurrentForLift series (sweptLift startPer endPer points i) with
  | Ok currentA _ _ =>
      [mkCurve (sweptLift startPer endPer points i * motorCount)
         (minutesAt currentA motorCount usableAh)
         (sweptLift startPer endPer points i <? minPerMotorLift - 1e-9)]
  | Err _ => []
  end.

(** Two measured points with thrusts of 3 and 6 milligrams. *)
Definition tinyLow : point := mkPoint 1 3e-6 None.

Definition tinyHigh : point := mkPoint 2 6e-6 None.

Definition tinySeries : list point := [tinyLow; tinyHigh].

(** ** The totals, the hover time and the chart limits *)

(** [TotalsDisplay] (lines 195-206): the point of largest thrust,
    [series.reduce((m,p)=> (p.y>m.y? p : m), series[0])], and the two numbers
    shown for it.  An empty or null series shows a prompt instead. *)
Definition maxPoint (series : list point) : option point :=
  match series with
  | [] => None
  | first :: _ =>
      Some (fold_left (fun m p => if p.(y) >? m.(y) then p else m) series first)
  end.

Record totals : Type := mkTotals {
  maxThrustDrone : num;
  peakCurrentTotal : num
}.

Definition TotalsDisplay (series : list point) (motorCount : num) : option totals :=
  match maxPoint series with
  | None => None
  | Some maxPt => Some (mkTotals (maxPt.(y) * motorCount) (maxPt.(x) * motorCount))
  end.

(** The computations of the component [App] (lines 226-335). *)
Module App.

Definition motorCount : num := 4.

Inductive limitMode : Type :=
| perMotor
| total.

(** Lines 292-294. *)
Definition perMotorLiftNeeded (takeoffKg : num) : num := takeoffKg / motorCount.

Definition hover (series : list point) (takeoffKg : num) : result :=
  interpolateCurrentForLift series (perMotorLiftNeeded takeoffKg).

(** [timeA] and [timeB] (lines 295-308); [null] is [None]. *)
Definition time (hover : result) (capacityAh usablePct : num) : option num :=
  match hover with
  | Err _ => None
  | Ok currentA _ _ =>
      let totalCurrent := currentA * motorCount in
      let usableAh := capacityAh * (usablePct / 100) in
      if totalCurrent <=? 0 then None
      else Some (min2 ((usableAh / totalCurrent) * 60) 120)
  end.

(** A row of [merged]: [{x, A, tA}] or [{x, B, tB}]. *)
Record mergedRow : Type := mkMerged {
  mx : num;
  mA : option num;
  mtA : option num;
  mB : option num;
  mtB : option num
}.

(** Lines 277-283.  The field [x] of a row is always a number, so the [?? 0]
    of the comparator leaves it as it is. *)
Definition modeScale (mode : limitMode) : num :=
  match mode with
  | total => 4
  | perMotor => 1
  end.

Definition merged (seriesA seriesB : list point) (mode : limitMode) : list mergedRow :=
  let yScale := match mode with total => motorCount | perMotor => Fin 1 end in
  let rowsA :=
    map (fun p => mkMerged (p.(x) * modeScale mode) (Some (p.(y) * yScale))
                    p.(throttle) None None) seriesA in
  let rowsB :=
    map (fun p => mkMerged (p.(x) * modeScale mode) None None
                    (Some (p.(y) * yScale)) p.(throttle)) seriesB in
  sort (fun a b => a.(mx) - b.(mx)) (rowsA ++ rowsB).

(** Lines 286-289. *)
Definition effectiveMax (mode : limitMode) (batteryMaxA : num) : num :=
  match mode with
  | perMotor => batteryMaxA / motorCount
  | total => batteryMaxA
  end.

Definition warnThreshold (mode : limitMode) (batteryMaxA : num) : num :=
  effectiveMax mode batteryMaxA * 0.8.

Definition dataMaxX (rows : list mergedRow) : num :=
  Math_max (map (fun d => d.(mx) || 0) rows ++ [Fin 0]).

Definition chartMaxX (rows : list mergedRow) (mode : limitMode) (batteryMaxA : num) : num :=
  Math_max [dataMaxX rows;
            (effectiveMax mode batteryMaxA || 0) * 1.1;
            (warnThreshold mode batteryMaxA || 0) * 1.1].

(** The two shaded areas of the power chart (lines 460-465), as [(x1, x2)];
    they are drawn only when both limits are finite. *)
Definition limitAreas (rows : list mergedRow) (mode : limitMode) (batteryMaxA : num)
  : option ((num * num) * (num * num)) :=
  let eMax := effectiveMax mode batteryMaxA in
  let warn := warnThreshold mode batteryMaxA in
  let cMax := chartMaxX rows mode batteryMaxA in
  if Number_isFinite eMax && Number_isFinite warn
  then Some ((max2 warn 0, min2 eMax cMax), (max2 eMax 0, cMax))
  else None.

(** Lines 311-312: the curves are drawn with 40 samples. *)
Definition flightCurve (series : list point) (capacityAh usablePct : num)
  : list curvePoint :=
  buildFlightCurve series motorCount capacityAh usablePct 40.

(** Lines 330-335. *)
Definition weightMax (flightCurveA flightCurveB : list curvePoint) (takeoffKg : num) : num :=
  Math_max (map w flightCurveA ++ map w flightCurveB ++ [takeoffKg || 0; Fin 0]).

End App.

(** ** normalizeCatalogUrl *)

(** The URL normaliser (lines 70-81).  A string is its sequence of UTF-16 code
    units.  The three regular expressions are sequences of tokens between [^]
    and [$]: a literal run, an optional character ([s?]) and a captured
    repetition of a character class ([([^\/]+)], [(.+)]); they are matched as
    ECMAScript does, greedily and with backtracking.  The argument is a
    string, so [u.match] does not throw and the [catch] branch is not
    taken. *)
Module Url.
Import Stdlib.NArith.BinNat Stdlib.Strings.String Stdlib.Strings.Ascii.

Definition str : Type := list N.

(** The code units of an ASCII literal. *)
Definition lit (s : string) : str := List.map N_of_ascii (list_ascii_of_string s).

Inductive tok : Type :=
| Lit (l : str)
| OptChar (c : N)
| Group (p : N -> bool).

Fixpoint stripPrefix (l s : str) : option str :=
  match l, s with
  | [], _ => Some s
  | c :: l', d :: s' => if N.eqb c d then stripPrefix l' s' else None
  | _ :: _, [] => None
  end.

(** [u.startsWith(l)]. *)
Definition startsWith (l u : str) : bool :=
  match stripPrefix l u with
  | Some _ => true
  | None => false
  end.

(** A captured [(class+)] followed by the rest [k] of the pattern: the longest
    run is tried first, then the shorter ones; [acc] is the run taken so far. *)
Fixpoint matchGroup (p : N -> bool) (k : str -> option (list str)) (acc s : str)
  : option (list str) :=
  match s with
  | [] => None
  | d :: s' =>
      if p d then
        match matchGroup p k (acc ++ [d]) s' with
        | Some r => Some r
        | None => option_map (cons (acc ++ [d])) (k s')
        end
      else None
  end.

(** [s.match(/^...$/)]: the captured groups, or [None] for [null]. *)
Fixpoint matchTokens (ts : list tok) (s : str) : option (list str) :=
  match ts with
  | [] => match s with [] => Some [] | _ :: _ => None end
  | Lit l :: ts' =>
      match stripPrefix l s with
      | Some s' => matchTokens ts' s'
      | None => None
      end
  | OptChar c :: ts' =>
      match s with
      | d :: s' =>
          if N.eqb c d then
            match matchTokens ts' s' with
            | Some r => Some r
            | None => matchTokens ts' s
            end
          else matchTokens ts' s
      | [] => matchTokens ts' s
      end
  | Group p :: ts' => matchGroup p (matchTokens ts') [] s
  end.

(** [[^\/]]: any code unit but the slash. *)
Definition notSlash (c : N) : bool := negb (N.eqb c 47%N).

(** [.]: any code unit but the line terminators LF, CR, U+2028 and U+2029. *)
Definition dot (c : N) : bool :=
  negb (N.eqb c 10%N || N.eqb c 13%N || N.eqb c 8232%N || N.eqb c 8233%N).

(** The shape the three expressions share:
    [/^https?HOST([^\/]+)\/([^\/]+)MID([^\/]+)\/(.+)$/]. *)
Definition filePattern (host mid : str) : list tok :=
  [Lit (lit "http"); OptChar 115%N; Lit host;
   Group notSlash; Lit (lit "/"); Group notSlash; Lit mid;
   Group notSlash; Lit (lit "/"); Group dot].

Definition githubHost : str := lit "://github.com/".
Definition rawHost : str := lit "://raw.githubusercontent.com/".

(** [/^https?:\/\/github\.com\/([^\/]+)\/([^\/]+)\/raw\/([^\/]+)\/(.+)$/]. *)
Definition githubRaw : list tok := filePattern githubHost (lit "/raw/").

(** [/^https?:\/\/github\.com\/([^\/]+)\/([^\/]+)\/blob\/([^\/]+)\/(.+)$/]. *)
Definition githubBlob : list tok := filePattern githubHost (lit "/blob/").

(** [/^https?:\/\/raw\.githubusercontent\.com\/([^\/]+)\/([^\/]+)\/refs\/heads\/([^\/]+)\/(.+)$/]. *)
Definition rawRefsHeads : list tok := filePattern rawHost (lit "/refs/heads/").

(** The template [https://raw.githubusercontent.com/${m[1]}/${m[2]}/${m[3]}/${m[4]}]. *)
Definition rawUrl (m : list str) : str :=
  lit "https://raw.githubusercontent.com/" ++ nth 0 m [] ++ lit "/" ++ nth 1 m []
  ++ lit "/" ++ nth 2 m [] ++ lit "/" ++ nth 3 m [].

Definition normalizeCatalogUrl (u : str) : str :=
  match u with
  | [] => u
  | _ :: _ =>
      match matchTokens githubRaw u with
      | Some m1 => rawUrl m1
      | None =>
          match matchTokens githubBlob u with
          | Some m2 => rawUrl m2
          | None =>
              match matchTokens rawRefsHeads u with
              | Some m3 => rawUrl m3
              | None => u
              end
          end
      end
  end.

(** The parts of a URL: a path segment is a non-empty run without a slash,
    a tail a non-empty run without a line terminator. *)
Definition segment (s : str) : Prop := s <> [] /\ forallb notSlash s = true.
Definition tail (s : str) : Prop := s <> [] /\ forallb dot s = true.

(** A string on which the repetition of the class [p] cannot go on. *)
Definition stops (p : N -> bool) (rest : str) : Prop :=
  match rest with
  | [] => True
  | d :: _ => p d = false
  end.

(** [http] or [https]. *)
Definition scheme (secure : bool) : str := if secure then lit "https" else lit "http".

(** The URL [scheme host owner/repo mid ref/path], where [host] runs from
    [://] to the slash after the host name and [mid] from slash to slash. *)
Definition fileUrl (secure : bool) (host owner repo mid ref path : str) : str :=
  scheme secure ++ host ++ owner ++ lit "/" ++ repo ++ mid ++ ref ++ lit "/" ++ path.

End Url.

(** ** Evaluation of the number model *)

Lemma Rltb_true (a b : R) : (a < b)%R -> Rltb a b = true.
Proof. intros H. unfold Rltb. destruct (Rlt_dec a b); [reflexivity | contradiction]. Qed.

Lemma Rltb_false (a b : R) : ~ (a < b)%R -> Rltb a b = false.
Proof. intros H. unfold Rltb. destruct (Rlt_dec a b); [contradiction | reflexivity]. Qed.

Lemma Rleb_true (a b : R) : (a <= b)%R -> Rleb a b = true.
Proof. intros H. unfold Rleb. destruct (Rle_dec a b); [reflexivity | contradiction]. Qed.

Lemma Rleb_false (a b : R) : ~ (a <= b)%R -> Rleb a b = false.
Proof. intros H. unfold Rleb. destruct (Rle_dec a b); [contradiction | reflexivity]. Qed.

Lemma Reqb_true (a b : R) : a = b -> Reqb a b = true.
Proof. intros H. unfold Reqb. destruct (Req_dec_T a b); [reflexivity | contradiction]. Qed.

Lemma Reqb_false (a b : R) : a <> b -> Reqb a b = false.
Proof. intros H. unfold Reqb. destruct (Req_dec_T a b); [contradiction | reflexivity]. Qed.

Lemma Rltb_spec (a b : R) : reflect (a < b)%R (Rltb a b).
Proof. unfold Rltb. destruct (Rlt_dec a b); constructor; assumption. Qed.

Lemma Rleb_spec (a b : R) : reflect (a <= b)%R (Rleb a b).
Proof. unfold Rleb. destruct (Rle_dec a b); constructor; assumption. Qed.

Lemma Reqb_spec (a b : R) : reflect (a = b) (Reqb a b).
Proof. unfold Reqb. destruct (Req_dec_T a b); constructor; assumption. Qed.

(** Decide one comparison of concrete reals. *)
Ltac js_decide :=
  match goal with
  | |- context [Rltb ?a ?b] =>
      first [ rewrite (Rltb_true a b) by lra | rewrite (Rltb_false a b) by lra ]
  | |- context [Rleb ?a ?b] =>
      first [ rewrite (Rleb_true a b) by lra | rewrite (Rleb_false a b) by lra ]
  | |- context [Reqb ?a ?b] =>
      first [ rewrite (Reqb_true a b) by lra | rewrite (Reqb_false a b) by lra ]
  end.

Lemma or_else_Fin (r : R) (d : num) : (Fin r || d) = if Reqb r 0 then d else Fin r.
Proof. unfold or_else, truthy. destruct (Reqb r 0); reflexivity. Qed.

(** Equalities between closed expressions over the reals. *)
Ltac R_calc :=
  unfold Q2R; cbn [QArith_base.Qnum QArith_base.Qden]; first [ lra | field; lra | field ].

Ltac js_step := first [ js_decide | progress (rewrite or_else_Fin) ].

Ltac js_eval := simpl; repeat (js_step; simpl).

(** Case analysis on the comparisons of reals met in the goal or in a
    hypothesis, closed by linear arithmetic. *)
Ltac R_case :=
  match goal with
  | |- context [Rltb ?a ?b] => destruct (Rltb_spec a b)
  | |- context [Rleb ?a ?b] => destruct (Rleb_spec a b)
  | |- context [Reqb ?a ?b] => destruct (Reqb_spec a b)
  | H : context [Rltb ?a ?b] |- _ => destruct (Rltb_spec a b)
  | H : context [Rleb ?a ?b] |- _ => destruct (Rleb_spec a b)
  | H : context [Reqb ?a ?b] |- _ => destruct (Reqb_spec a b)
  end.

Ltac num_crush :=
  repeat match goal with n : num |- _ => destruct n end;
  unfold gt, ge in *; simpl in *;
  repeat (R_case; simpl in *);
  try discriminate; try reflexivity; try congruence; try lra.

Section NumFacts.

Lemma isFinite_Fin (a : num) : Number_isFinite a = true -> exists r, a = Fin r.
Proof. destruct a; simpl; try discriminate. intros _. eexists; reflexivity. Qed.

Lemma lt_asym (a b : num) : (a <? b) = true -> (b <? a) = false.
Proof. num_crush. Qed.

Lemma lt_trans (a b c : num) : (a <? b) = true -> (b <? c) = true -> (a <? c) = true.
Proof. num_crush. Qed.

Lemma lt_le_trans (a b c : num) : (a <? b) = true -> (b <=? c) = true -> (a <? c) = true.
Proof. num_crush. Qed.

Lemma le_lt_false (a b : num) : (a <=? b) = true -> (b <? a) = false.
Proof. num_crush. Qed.

Lemma lt_irrefl (a : num) : (a <? a) = false.
Proof. destruct a; cbn; try reflexivity. apply Rltb_false. lra. Qed.

Lemma isFinite_notNaN (a : num) : Number_isFinite a = true -> notNaN a = true.
Proof. destruct a; simpl; congruence. Qed.

Lemma not_lt_ge (a b : num) :
  notNaN a = true -> notNaN b = true -> (a <? b) = false -> (a >=? b) = true.
Proof. num_crush. Qed.

Lemma not_gt_le (a b : num) :
  notNaN a = true -> notNaN b = true -> (a >? b) = false -> (a <=? b) = true.
Proof. num_crush. Qed.

Lemma not_le_ge (a b : num) :
  notNaN a = true -> notNaN b = true -> (a <=? b) = false -> (a >=? b) = true.
Proof. num_crush. Qed.

Lemma lt_notNaN_l (a b : num) : (a <? b) = true -> notNaN a = true.
Proof. num_crush. Qed.

Lemma le_notNaN_l (a b : num) : (a <=? b) = true -> notNaN a = true.
Proof. num_crush. Qed.

Lemma min2_lt (v a m : num) :
  (v <? min2 a m) = true -> (v <? a) = true /\ (v <? m) = true.
Proof. num_crush. Qed.

Lemma max2_gt (v a m : num) :
  (v >? max2 a m) = true -> (v >? a) = true /\ (v >? m) = true.
Proof. num_crush. Qed.

Lemma lt_Math_min (v : num) (l : list num) :
  (v <? Math_min l) = true -> Forall (fun e => (v <? e) = true) l.
Proof.
  induction l as [| e l IH]; simpl; intros H; constructor.
  - apply (min2_lt v e (Math_min l) H).
  - apply IH. apply (min2_lt v e (Math_min l) H).
Qed.

Lemma gt_Math_max (v : num) (l : list num) :
  (v >? Math_max l) = true -> Forall (fun e => (v >? e) = true) l.
Proof.
  induction l as [| e l IH]; simpl; intros H; constructor.
  - apply (max2_gt v e (Math_max l) H).
  - apply IH. apply (max2_gt v e (Math_max l) H).
Qed.

End NumFacts.

(** ** Array.prototype.sort *)

Section SortFacts.
Context {A : Type} (comparefn : A -> A -> num).

Lemma insert_perm (e : A) (l : list A) : Permutation (insert comparefn e l) (e :: l).
Proof.
  induction l as [| h tl IH]; cbn [sort insert fold_right].
  - apply Permutation_refl.
  - destruct (comparefn e h >? 0).
    + eapply perm_trans; [apply perm_skip, IH | apply perm_swap].
    + apply Permutation_refl.
Qed.

Lemma sort_perm (l : list A) : Permutation (sort comparefn l) l.
Proof.
  induction l as [| h tl IH]; cbn [sort insert fold_right].
  - apply perm_nil.
  - eapply perm_trans; [apply insert_perm | apply perm_skip, IH].
Qed.

Lemma sort_length (l : list A) : length (sort comparefn l) = length l.
Proof. apply Permutation_length, sort_perm. Qed.

Lemma sort_In (a : A) (l : list A) : In a (sort comparefn l) <-> In a l.
Proof.
  split; apply Permutation_in; [| apply Permutation_sym]; apply sort_perm.
Qed.

Lemma sort_Forall (P : A -> Prop) (l : list A) : Forall P l -> Forall P (sort comparefn l).
Proof.
  intros H. eapply Permutation_Forall; [apply Permutation_sym, sort_perm | exact H].
Qed.

Lemma sort_nil_inv (l : list A) : sort comparefn l = [] -> l = [].
Proof.
  intros H. apply length_zero_iff_nil. rewrite <- sort_length, H. reflexivity.
Qed.
End SortFacts.

(** Sorting by a numeric key with the comparator [(a,b) => key(a) - key(b)]. *)
Section SortByKey.
Context {A : Type} (key : A -> num).

Lemma key_le_trans (a b c : A) : key_le key a b -> key_le key b c -> key_le key a c.
Proof. unfold key_le. destruct (key a), (key b), (key c); num_crush. Qed.

Lemma key_cmp_pos (a b : A) :
  finiteKey key a -> finiteKey key b -> (key a - key b >? 0) = true -> key_le key b a.
Proof. unfold key_le, finiteKey. destruct (key a), (key b); num_crush. Qed.

Lemma key_cmp_nonpos (a b : A) :
  finiteKey key a -> finiteKey key b -> (key a - key b >? 0) = false -> key_le key a b.
Proof. unfold key_le, finiteKey. destruct (key a), (key b); num_crush. Qed.

Lemma insert_sorted (e : A) (l : list A) :
  finiteKey key e -> Forall (finiteKey key) l ->
  StronglySorted (key_le key) l ->
  StronglySorted (key_le key) (insert (fun a b => key a - key b) e l).
Proof.
  intros He Hl Hs. induction Hs as [| h tl Hs IH Hh]; cbn [insert].
  - constructor; constructor.
  - inversion Hl as [| ? ? Hfh Hftl]; subst.
    destruct (key e - key h >? 0) eqn:Hc.
    + constructor; [apply IH, Hftl |].
      eapply Permutation_Forall; [apply Permutation_sym, insert_perm |].
      constructor; [apply key_cmp_pos; assumption | exact Hh].
    + assert (Heh : key_le key e h) by (apply key_cmp_nonpos; assumption).
      constructor; [constructor; assumption |].
      constructor; [exact Heh |].
      eapply Forall_impl; [| exact Hh].
      intros c Hc'. eapply key_le_trans; eassumption.
Qed.

Lemma sort_sorted (l : list A) :
  Forall (finiteKey key) l -> StronglySorted (key_le key) (sort (fun a b => key a - key b) l).
Proof.
  induction 1 as [| h tl Hh Htl IH]; cbn [sort fold_right].
  - constructor.
  - apply insert_sorted; [exact Hh | apply sort_Forall; exact Htl | exact IH].
Qed.
End SortByKey.

(** ** buildSeries: filtering and ordering *)

Lemma toPoint_finite (rows : list row) :
  Forall finitePoint (map toPoint (filter finiteRow rows)).
Proof.
  apply Forall_forall. intros p Hp.
  apply in_map_iff in Hp. destruct Hp as [r [<- Hr]].
  apply filter_In in Hr. destruct Hr as [_ Hr].
  unfold finiteRow in Hr. apply andb_true_iff in Hr.
  exact Hr.
Qed.

Lemma buildSeries_perm (rows : list row) :
  Permutation (buildSeries (Some rows)) (map toPoint (filter finiteRow rows)).
Proof. unfold buildSeries. apply sort_perm. Qed.

Lemma buildSeries_finite (rows : list row) :
  Forall finitePoint (buildSeries (Some rows)).
Proof.
  eapply Permutation_Forall; [apply Permutation_sym, buildSeries_perm |].
  apply toPoint_finite.
Qed.

Lemma buildSeries_sorted (rows : list row) :
  StronglySorted (key_le x) (buildSeries (Some rows)).
Proof.
  unfold buildSeries. apply (sort_sorted x).
  eapply Forall_impl; [| apply toPoint_finite].
  intros p [Hx _]. exact Hx.
Qed.

Lemma filter_perm {A : Type} (f : A -> bool) (l l' : list A) :
  Permutation l l' -> Permutation (filter f l) (filter f l').
Proof.
  induction 1 as [| a l l' _ IH | a b l | l l' l'' _ IH1 _ IH2]; simpl.
  - apply perm_nil.
  - destruct (f a); [apply perm_skip |]; exact IH.
  - destruct (f a), (f b); try apply Permutation_refl. apply perm_swap.
  - eapply perm_trans; eassumption.
Qed.

(** C8. [buildSeries] maps a null or empty input to the empty series; on any
    rows it returns, up to order, exactly the rows whose [current] and
    [thrust_kg] are both finite, each mapped to the point
    [(x = current, y = thrust_kg, throttle)]; the result is non-decreasing in
    [x], none of its points has a non-finite [x] or [y], and a permutation of
    the input rows gives again a result that is non-decreasing in [x], with
    the same points. *)
Theorem buildSeries_filters_and_sorts :
  buildSeries None = [] /\
  buildSeries (Some []) = [] /\
  forall rows : list row,
    Permutation (buildSeries (Some rows)) (map toPoint (filter finiteRow rows)) /\
    StronglySorted (key_le x) (buildSeries (Some rows)) /\
    Forall finitePoint (buildSeries (Some rows)) /\
    forall rows' : list row,
      Permutation rows rows' ->
      StronglySorted (key_le x) (buildSeries (Some rows')) /\
      Permutation (buildSeries (Some rows')) (buildSeries (Some rows)).
Proof.
  split; [reflexivity |]. split; [reflexivity |].
  intros rows.
  split; [apply buildSeries_perm |].
  split; [apply buildSeries_sorted |].
  split; [apply buildSeries_finite |].
  intros rows' Hperm.
  split; [apply buildSeries_sorted |].
  eapply perm_trans; [apply buildSeries_perm |].
  eapply perm_trans; [| apply Permutation_sym, buildSeries_perm].
  apply Permutation_map, filter_perm, Permutation_sym, Hperm.
Qed.

(** Three rows, one of them with a [NaN] thrust, in two orders. *)
Lemma buildSeries_filters_and_sorts_witness :
  StronglySorted (key_le x)
    (buildSeries (Some [mkRow 3 0.5 None; mkRow 5 1 (Some (Fin 40)); mkRow 4 NaN None])) /\
  Permutation
    (buildSeries (Some [mkRow 3 0.5 None; mkRow 5 1 (Some (Fin 40)); mkRow 4 NaN None]))
    (buildSeries (Some [mkRow 5 1 (Some (Fin 40)); mkRow 3 0.5 None; mkRow 4 NaN None])).
Proof.
  apply (proj2 (proj2 (proj2
           (proj2 (proj2 buildSeries_filters_and_sorts)
              [mkRow 5 1 (Some (Fin 40)); mkRow 3 0.5 None; mkRow 4 NaN None])))).
  apply perm_swap.
Defined.

(** ** interpolateCurrentForLift: the range checks *)

Lemma last_In {A : Type} (l : list A) (d : A) : l <> [] -> In (last l d) l.
Proof.
  induction l as [| a l IH]; [congruence |].
  intros _. destruct l as [| b l].
  - left. reflexivity.
  - right. apply IH. discriminate.
Qed.

Lemma byThrust_head_In (series : list point) (min : point) (rest : list point) :
  byThrust series = min :: rest -> In min series.
Proof.
  intros H. apply (sort_In (fun a b => a.(y) - b.(y))). rewrite H. left. reflexivity.
Qed.

Lemma byThrust_last_In (series : list point) (min : point) (rest : list point) :
  byThrust series = min :: rest -> In (last (min :: rest) min) series.
Proof.
  intros H. apply (sort_In (fun a b => a.(y) - b.(y))). rewrite H.
  apply last_In. discriminate.
Qed.

Lemma byThrust_nonempty (series : list point) :
  series <> [] -> exists min rest, byThrust series = min :: rest.
Proof.
  intros Hne. destruct (byThrust series) as [| min rest] eqn:E.
  - apply sort_nil_inv in E. contradiction.
  - exists min, rest. reflexivity.
Qed.

Lemma extrapolation_estimated (pts : list point) (lift : num) (r : result) :
  extrapolation pts lift = Some r -> exists c th, r = Ok c th true.
Proof.
  destruct pts as [| a [| b rest]]; cbn [extrapolation]; intros H.
  - discriminate.
  - injection H as <-. unfold singlePoint. eauto.
  - injection H as <-. destruct (positivePair a b).
    + unfold powerLaw. eauto.
    + unfold linearFallback. eauto.
Qed.

Lemma interpolate_below (series : list point) (lift : num) (min : point) (rest : list point) :
  byThrust series = min :: rest ->
  (lift <? min.(y)) = true ->
  extrapolation (byThrust series) lift = Some (interpolateCurrentForLift series lift).
Proof.
  intros E Hlt. unfold interpolateCurrentForLift. rewrite E.
  cbv zeta. rewrite Hlt. destruct rest as [| b rest]; reflexivity.
Qed.

Lemma interpolate_above (series : list point) (lift : num) (min : point) (rest : list point) :
  byThrust series = min :: rest ->
  (lift >? min.(y)) = true ->
  (lift >? (last (min :: rest) min).(y)) = true ->
  interpolateCurrentForLift series lift = Err exceeds_max.
Proof.
  intros E Hmin Hmax. unfold interpolateCurrentForLift. rewrite E.
  cbv zeta. rewrite (lt_asym _ _ Hmin), Hmax. reflexivity.
Qed.

(** C4. A target lift strictly below the minimum thrust of a non-empty series
    is answered by one of the three extrapolations -- the power-law fit, the
    linear fallback or the scaling of a single point -- and the answer is
    always [Ok] with [noteLow = true], never an [Err].  The minimum is taken
    both as the code does (the first point of the series sorted by thrust) and
    as [Math.min] of the thrusts. *)
Theorem below_range_is_estimated :
  forall (series : list point) (lift : num),
    series <> [] ->
    (lift <? Math_min (map y series)) = true \/
    (exists min rest, byThrust series = min :: rest /\ (lift <? min.(y)) = true) ->
    extrapolation (byThrust series) lift = Some (interpolateCurrentForLift series lift) /\
    exists c th, interpolateCurrentForLift series lift = Ok c th true.
Proof.
  intros series lift Hne Hlow.
  assert (Hmin : exists min rest, byThrust series = min :: rest /\ (lift <? min.(y)) = true).
  { destruct Hlow as [Hlow | Hlow]; [| exact Hlow].
    destruct (byThrust_nonempty series Hne) as [min [rest E]].
    exists min, rest. split; [exact E |].
    pose proof (lt_Math_min _ _ Hlow) as Hall.
    rewrite Forall_forall in Hall. apply Hall.
    apply in_map, (byThrust_head_In series min rest E). }
  destruct Hmin as [min [rest [E Hlt]]].
  pose proof (interpolate_below series lift min rest E Hlt) as Hx.
  split; [exact Hx |].
  apply (extrapolation_estimated _ _ _ Hx).
Qed.

(** The series of the specification's power-law example, queried at 0.25. *)
Lemma below_range_is_estimated_witness :
  exists c th,
    interpolateCurrentForLift
      [mkPoint 2 0.5 (Some (Fin 20)); mkPoint 4 1 (Some (Fin 30))] 0.25 = Ok c th true.
Proof.
  apply (below_range_is_estimated
           [mkPoint 2 0.5 (Some (Fin 20)); mkPoint 4 1 (Some (Fin 30))] 0.25).
  - discriminate.
  - left. js_eval. reflexivity.
Defined.

(** C7. A target lift strictly above the maximum thrust of a non-empty series
    -- [Math.max] of the thrusts, or the last point of the series sorted by
    thrust for a target that is not below the first one -- is refused with
    [Err exceeds_max]; so is the target 3 on the series [(5,1), (10,2)]. *)
Theorem above_range_exceeds_max :
  (forall (series : list point) (lift : num),
      series <> [] ->
      (lift >? Math_max (map y series)) = true ->
      interpolateCurrentForLift series lift = Err exceeds_max) /\
  interpolateCurrentForLift [mkPoint 5 1 None; mkPoint 10 2 None] 3 = Err exceeds_max.
Proof.
  split.
  - intros series lift Hne Hhigh.
    destruct (byThrust_nonempty series Hne) as [min [rest E]].
    pose proof (gt_Math_max _ _ Hhigh) as Hall.
    rewrite Forall_forall in Hall.
    apply (interpolate_above series lift min rest E).
    + apply Hall, in_map, (byThrust_head_In series min rest E).
    + apply Hall, in_map, (byThrust_last_In series min rest E).
  - unfold interpolateCurrentForLift. js_eval. reflexivity.
Qed.

(** Three measured points out of order, queried above the largest thrust. *)
Lemma above_range_exceeds_max_witness :
  interpolateCurrentForLift
    [mkPoint 10 2 (Some (Fin 60)); mkPoint 5 1 None; mkPoint 7 1.5 None] 2.5
  = Err exceeds_max.
Proof.
  apply (proj1 above_range_exceeds_max).
  - discriminate.
  - js_eval. reflexivity.
Defined.

(** ** interpolateCurrentForLift: the bracketing loop *)

(** The loop returns the interpolation on the first bracketing pair. *)
Lemma segmentLoop_find (pts : list point) (lift : num) :
  segmentLoop pts lift =
  match find (brackets lift) (adjacentPairs pts) with
  | Some (a, b) => segment a b lift
  | None => Err segment_not_found
  end.
Proof.
  induction pts as [| a l IH]; [reflexivity |].
  destruct l as [| b rest]; [reflexivity |].
  change (adjacentPairs (a :: b :: rest)) with ((a, b) :: adjacentPairs (b :: rest)).
  cbn [segmentLoop find]. unfold brackets at 1. cbn [fst snd].
  destruct ((lift >=? a.(y)) && (lift <=? b.(y))); [reflexivity | exact IH].
Qed.

Lemma interpolate_in_range (series : list point) (lift : num) (min : point) (rest : list point) :
  byThrust series = min :: rest ->
  (lift <? min.(y)) = false ->
  (lift >? (last (min :: rest) min).(y)) = false ->
  interpolateCurrentForLift series lift = segmentLoop (byThrust series) lift.
Proof.
  intros E Hlo Hhi. unfold interpolateCurrentForLift. rewrite E.
  cbv zeta. rewrite Hlo, Hhi. reflexivity.
Qed.

(** With at least two points whose thrusts are numbers, a target between the
    first and the last thrust is bracketed by some consecutive pair. *)
Lemma segmentLoop_found (pts : list point) (lift : num) (d : point) :
  Forall (fun p => notNaN p.(y) = true) pts ->
  (2 <= length pts)%nat ->
  (lift >=? (hd d pts).(y)) = true ->
  (lift <=? (last pts d).(y)) = true ->
  exists c th, segmentLoop pts lift = Ok c th false.
Proof.
  induction pts as [| a l IH]; intros Hy Hlen Hlo Hhi.
  - simpl in Hlen. lia.
  - destruct l as [| b rest]; [simpl in Hlen; lia |].
    cbn [segmentLoop]. cbn [hd] in Hlo. rewrite Hlo. cbn [andb].
    destruct (lift <=? b.(y)) eqn:Hb.
    + unfold segment. eauto.
    + inversion Hy as [| ? ? _ Hy']; subst.
      assert (Hyb : notNaN b.(y) = true) by (inversion Hy'; assumption).
      assert (Hl : notNaN lift = true) by (apply (le_notNaN_l _ _ Hhi)).
      destruct rest as [| c rest'].
      * cbn [last] in Hhi. congruence.
      * apply IH.
        -- exact Hy'.
        -- simpl. lia.
        -- cbn [hd]. apply not_le_ge; assumption.
        -- exact Hhi.
Qed.

(** With two or more finite thrusts the defensive branch is not reached. *)
Lemma interpolate_in_range_ok (series : list point) (lift : num) (min : point) (rest : list point) :
  Forall (fun p => notNaN p.(y) = true) series ->
  (2 <= length series)%nat ->
  notNaN lift = true ->
  byThrust series = min :: rest ->
  (lift <? min.(y)) = false ->
  (lift >? (last (min :: rest) min).(y)) = false ->
  exists c th, interpolateCurrentForLift series lift = Ok c th false.
Proof.
  intros Hy Hlen Hl E Hlo Hhi.
  rewrite (interpolate_in_range series lift min rest E Hlo Hhi).
  assert (Hy' : Forall (fun p => notNaN p.(y) = true) (byThrust series))
    by (apply sort_Forall; exact Hy).
  assert (Hlen' : (2 <= length (byThrust series))%nat)
    by (rewrite sort_length; exact Hlen).
  rewrite E in *.
  apply (segmentLoop_found (min :: rest) lift min Hy' Hlen').
  - cbn [hd]. apply not_lt_ge; [exact Hl | | exact Hlo].
    inversion Hy'; assumption.
  - apply not_gt_le; [exact Hl | | exact Hhi].
    rewrite Forall_forall in Hy'. apply Hy', last_In. discriminate.
Qed.

(** C3, at a series of one point queried at its own thrust: the target is
    neither below the smallest nor above the largest thrust, the loop over
    consecutive pairs has no pair to visit, and the answer is
    [Err segment_not_found]. *)
Theorem single_point_segment_not_found :
  let series := [mkPoint 5 1 None] in
  (1 <? Math_min (map y series)) = false /\
  (1 >? Math_max (map y series)) = false /\
  interpolateCurrentForLift series 1 = Err segment_not_found.
Proof.
  cbv zeta. unfold interpolateCurrentForLift. js_eval. repeat split; reflexivity.
Qed.

(** C6. When the target is in range and [(a, b)] is the first consecutive pair
    of the series sorted by thrust with [a.y <= target <= b.y], the answer is
    the loop body on that pair: [Ok] with [noteLow = false], and for finite
    coordinates the current is [a.x + t * (b.x - a.x)] with
    [t = (target - a.y) / (b.y - a.y)], the denominator replaced by 1 when
    [b.y = a.y]; the throttle is interpolated with the same [t].  On the
    series [(5,1), (10,2)] the target 1.5 gives [Ok] with current 7.5 and
    [noteLow = false]. *)
Theorem in_range_linear_interpolation :
  (forall (series : list point) (lift : num) (min : point) (rest : list point)
          (a b : point),
      byThrust series = min :: rest ->
      (lift <? min.(y)) = false ->
      (lift >? (last (min :: rest) min).(y)) = false ->
      find (brackets lift) (adjacentPairs (byThrust series)) = Some (a, b) ->
      interpolateCurrentForLift series lift = segment a b lift /\
      forall xa ya xb yb l : R,
        a.(x) = Fin xa -> a.(y) = Fin ya -> b.(x) = Fin xb -> b.(y) = Fin yb ->
        lift = Fin l ->
        let den := if Req_dec_T yb ya then 1%R else (yb - ya)%R in
        let tt := ((l - ya) / den)%R in
        interpolateCurrentForLift series lift =
        Ok (Fin (xa + tt * (xb - xa)))
           ((a.(throttle) ?? 0) + Fin tt * ((b.(throttle) ?? 0) - (a.(throttle) ?? 0)))
           false) /\
  interpolateCurrentForLift [mkPoint 5 1 None; mkPoint 10 2 None] 1.5 = Ok 7.5 0 false.
Proof.
  split.
  - intros series lift min rest a b E Hlo Hhi Hfind.
    assert (Hseg : interpolateCurrentForLift series lift = segment a b lift).
    { rewrite (interpolate_in_range series lift min rest E Hlo Hhi).
      rewrite segmentLoop_find, Hfind. reflexivity. }
    split; [exact Hseg |].
    intros xa ya xb yb l Hxa Hya Hxb Hyb Hl den tt.
    rewrite Hseg. unfold segment. rewrite Hxa, Hya, Hxb, Hyb, Hl.
    assert (Ht : (Fin l - Fin ya) / ((Fin yb - Fin ya) || 1) = Fin tt).
    { subst tt den. cbn [sub add neg]. unfold or_else, truthy.
      destruct (Req_dec_T yb ya) as [Heq | Hne].
      - rewrite Reqb_true by lra. cbn [negb div].
        rewrite Reqb_false by lra. f_equal. 
      - rewrite Reqb_false by lra. cbn [negb div].
        rewrite Reqb_false by lra. f_equal. }
    rewrite Ht. reflexivity.
  - unfold interpolateCurrentForLift. js_eval. unfold segment. js_eval.
    f_equal; apply (f_equal Fin); R_calc.
Qed.

(** On the three measured points [(5,1), (10,2), (18,3)] the target 2.5 is
    bracketed by the second pair. *)
Lemma in_range_linear_interpolation_witness :
  interpolateCurrentForLift
    [mkPoint 10 2 None; mkPoint 5 1 None; mkPoint 18 3 None] 2.5
  = segment (mkPoint 10 2 None) (mkPoint 18 3 None) 2.5.
Proof.
  apply (proj1 in_range_linear_interpolation
           [mkPoint 10 2 None; mkPoint 5 1 None; mkPoint 18 3 None] 2.5
           (mkPoint 5 1 None) [mkPoint 10 2 None; mkPoint 18 3 None]
           (mkPoint 10 2 None) (mkPoint 18 3 None)).
  - js_eval. reflexivity.
  - js_eval. reflexivity.
  - js_eval. reflexivity.
  - unfold adjacentPairs, brackets. js_eval. reflexivity.
Defined.

(** ** Arithmetic on finite values *)

Section FiniteArith.

Lemma div_Fin (u v : R) : v <> 0%R -> Fin u / Fin v = Fin (u / v).
Proof. intros H. cbn [div]. rewrite Reqb_false by exact H. reflexivity. Qed.

Lemma max2_Fin (u v : R) : max2 (Fin u) (Fin v) = Fin (Rmax u v).
Proof.
  cbn [max2 lt]. unfold Rmax.
  destruct (Rltb_spec u v), (Rle_dec u v);
    first [ reflexivity | lra | f_equal; lra ].
Qed.

Lemma min2_Fin (u v : R) : min2 (Fin u) (Fin v) = Fin (Rmin u v).
Proof.
  cbn [min2 lt]. unfold Rmin.
  destruct (Rltb_spec v u), (Rle_dec u v);
    first [ reflexivity | lra | f_equal; lra ].
Qed.

Lemma Math_log_pos (r : R) : (0 < r)%R -> Math_log (Fin r) = Fin (ln r).
Proof.
  intros H. cbn [Math_log].
  rewrite Rltb_false by lra. rewrite Reqb_false by lra. reflexivity.
Qed.

Lemma Math_sqrt_nonneg (r : R) : (0 <= r)%R -> Math_sqrt (Fin r) = Fin (sqrt r).
Proof. intros H. cbn [Math_sqrt]. rewrite Rltb_false by lra. reflexivity. Qed.

Lemma Math_pow_pos (b e : R) : (0 < b)%R -> Math_pow (Fin b) (Fin e) = Fin (Rpower b e).
Proof.
  intros H. cbn [Math_pow]. destruct (Reqb_spec e 0) as [-> | He].
  - rewrite Rpower_O by exact H. reflexivity.
  - rewrite Rltb_true by exact H. reflexivity.
Qed.

Lemma Rpower_pos (b e : R) : (0 < Rpower b e)%R.
Proof. unfold Rpower. apply exp_pos. Qed.

Lemma ln_neq_0 (r : R) : (0 < r)%R -> r <> 1%R -> ln r <> 0%R.
Proof.
  intros Hr Hne Hln. apply Hne. apply ln_inv; [exact Hr | lra |].
  rewrite ln_1. exact Hln.
Qed.

Lemma gt_Fin_0 (v : num) : (v >? 0) = true -> Number_isFinite v = true ->
  exists r, v = Fin r /\ (0 < r)%R.
Proof.
  destruct v; cbn; try discriminate. intros H _.
  exists r. split; [reflexivity |]. destruct (Rltb_spec 0 r); [assumption | discriminate].
Qed.

Lemma ge_Fin_0 (r : R) : (0 <= r)%R -> (Fin r >=? 0) = true.
Proof. intros H. cbn. apply Rleb_true. exact H. Qed.

Lemma or_else_nonzero (r : R) (d : num) : r <> 0%R -> (Fin r || d) = Fin r.
Proof. intros H. rewrite or_else_Fin. rewrite Reqb_false by exact H. reflexivity. Qed.

End FiniteArith.

(** ** The power-law extrapolation *)

Lemma finiteThrottle_nullish (p : point) :
  finiteThrottle p -> exists r, (p.(throttle) ?? 0) = Fin r.
Proof.
  unfold finiteThrottle. destruct (throttle p) as [v |]; cbn [nullish].
  - apply isFinite_Fin.
  - intros _. eexists; reflexivity.
Qed.

(** The fitted value [u1 / v1^e * max(l, 1e-9)^e] as the code computes it. *)
Lemma powerLaw_fit (u1 v1 u2 v2 l : R) :
  (0 < u1)%R -> (0 < v1)%R -> (0 < u2)%R -> (0 < v2)%R -> v1 <> v2 ->
  let e := Math_log (Fin u2 / Fin u1) / Math_log (Fin v2 / Fin v1) in
  Fin u1 / Math_pow (Fin v1) e * Math_pow (max2 (Fin l) 1e-9) e
  = Fin (plCurrent u1 v1 u2 v2 l).
Proof.
  intros Hu1 Hv1 Hu2 Hv2 Hne e. subst e.
  rewrite !div_Fin by lra.
  assert (Hq : (0 < v2 / v1)%R) by (apply Rdiv_lt_0_compat; assumption).
  assert (Hp : (0 < u2 / u1)%R) by (apply Rdiv_lt_0_compat; assumption).
  rewrite !Math_log_pos by assumption.
  assert (Hln : ln (v2 / v1) <> 0%R).
  { apply ln_neq_0; [exact Hq |]. intros H1. apply Hne.
    apply (Rmult_eq_compat_r v1) in H1. unfold Rdiv in H1.
    rewrite Rmult_assoc, Rinv_l in H1 by lra. lra. }
  rewrite div_Fin by exact Hln.
  rewrite max2_Fin.
  assert (Hm : (0 < Rmax l 1e-9)%R).
  { apply Rlt_le_trans with (r2 := 1e-9%R); [lra | apply Rmax_r]. }
  rewrite !Math_pow_pos by assumption.
  pose proof (Rpower_pos v1 (ln (u2 / u1) / ln (v2 / v1))) as Hpw.
  rewrite div_Fin by lra.
  reflexivity.
Qed.

(** C5. On the series [(x=2, y=0.5, throttle=20), (x=4, y=1, throttle=30)] the
    target 0.25 is answered by the power-law extrapolation: the result is [Ok]
    with [noteLow = true] and a current of 1, strictly less than 2. *)
Theorem power_law_example :
  let a := mkPoint 2 0.5 (Some (Fin 20)) in
  let b := mkPoint 4 1 (Some (Fin 30)) in
  interpolateCurrentForLift [a; b] 0.25 = powerLaw a b 0.25 /\
  exists th : num, powerLaw a b 0.25 = Ok 1 th true /\ (Fin 1 <? 2) = true.
Proof.
  cbv zeta. split.
  - unfold interpolateCurrentForLift. js_eval. unfold positivePair. js_eval.
    reflexivity.
  - unfold powerLaw. cbn [x y throttle].
    rewrite (powerLaw_fit 2 0.5 4 1 0.25) by lra.
    assert (Hc : plCurrent 2 0.5 4 1 0.25 = 1%R).
    { unfold plCurrent, plExponent.
      replace (4 / 2)%R with 2%R by lra. replace (1 / 0.5)%R with 2%R by lra.
      pose proof ln_lt_2 as Hln.
      replace (ln 2 / ln 2)%R with 1%R by (field; lra).
      rewrite (Rmax_left 0.25 1e-9) by lra.
      rewrite !Rpower_1 by lra. lra. }
    rewrite Hc. rewrite max2_Fin, (Rmax_right 0 1) by lra.
    eexists. split; [reflexivity |].
    cbn. apply Rltb_true. lra.
Qed.

(** C10, at two lowest points of equal thrust: the series
    [(x=1, y=1), (x=2, y=1)] meets the power-law preconditions and the target
    0.5 is below its minimum thrust, the divisor [Math.log(b.y / a.y)] of the
    exponent is 0, the exponent is infinite and the current of the [Ok] result
    is [NaN], which is not a finite number. *)
Theorem power_law_equal_thrusts_nan :
  let a := mkPoint 1 1 None in
  let b := mkPoint 2 1 None in
  positivePair a b = true /\
  (0.5 <? Math_min (map y [a; b])) = true /\
  Math_log (b.(y) / a.(y)) = Fin 0 /\
  Math_log (b.(x) / a.(x)) / Math_log (b.(y) / a.(y)) = PInf /\
  (exists th : num, interpolateCurrentForLift [a; b] 0.5 = Ok NaN th true) /\
  Number_isFinite NaN = false.
Proof.
  cbv zeta. cbn [x y].
  assert (Hden : Math_log (Fin 1 / Fin 1) = Fin 0).
  { rewrite div_Fin by lra. rewrite Math_log_pos by lra.
    replace (1 / 1)%R with 1%R by lra. rewrite ln_1. reflexivity. }
  assert (Hexp : Math_log (Fin 2 / Fin 1) / Math_log (Fin 1 / Fin 1) = PInf).
  { rewrite Hden. rewrite div_Fin by lra. rewrite Math_log_pos by lra.
    replace (2 / 1)%R with 2%R by lra. pose proof ln_lt_2 as Hln.
    cbn [div]. rewrite Reqb_true by reflexivity. rewrite Rltb_true by lra.
    reflexivity. }
  split; [unfold positivePair; js_eval; reflexivity |].
  split; [js_eval; reflexivity |].
  split; [exact Hden |].
  split; [exact Hexp |].
  split; [| reflexivity].
  unfold interpolateCurrentForLift. js_eval. unfold positivePair. js_eval.
  unfold powerLaw. cbn [x y throttle]. rewrite Hexp.
  cbn [Math_pow Math_abs]. rewrite (Rabs_right 1) by lra.
  rewrite Rltb_false by lra. rewrite Reqb_true by reflexivity.
  cbn [div mul max2]. eexists. reflexivity.
Qed.

(** ** Sign of the results *)

Lemma physicalPoint_finite (p : point) : physicalPoint p -> finitePoint p.
Proof.
  intros [[u [v [Hx [Hy _]]]] _]. unfold finitePoint. rewrite Hx, Hy. split; reflexivity.
Qed.

Lemma physicalPoint_finiteThrottle (p : point) : physicalPoint p -> finiteThrottle p.
Proof.
  intros [_ Ht]. unfold finiteThrottle. destruct (throttle p) as [tv |]; [| exact I].
  destruct Ht as [r [-> _]]. reflexivity.
Qed.

Lemma physicalPoint_throttle (p : point) :
  physicalPoint p -> exists r : R, (p.(throttle) ?? 0) = Fin r /\ (0 <= r)%R.
Proof.
  intros [_ Ht]. destruct (throttle p) as [tv |]; cbn [nullish].
  - exact Ht.
  - exists 0%R. split; [reflexivity | lra].
Qed.

Lemma singlePoint_nonneg (a : point) (l : R) :
  physicalPoint a -> nonnegResult (singlePoint a (Fin l)).
Proof.
  intros Hp. destruct (physicalPoint_throttle a Hp) as [r [Hr Hr0]].
  destruct Hp as [[u [v [Hx [Hy Hu]]]] _].
  unfold singlePoint. rewrite Hx, Hy, Hr.
  rewrite max2_Fin.
  assert (Hm : (0 < Rmax v 1e-9)%R).
  { apply Rlt_le_trans with (r2 := 1e-9%R); [lra | apply Rmax_r]. }
  rewrite div_Fin by lra. rewrite max2_Fin. cbn [mul nonnegResult].
  pose proof (Rmax_l 0 (l / Rmax v 1e-9)) as Hs.
  split; apply ge_Fin_0; apply Rmult_le_pos; assumption.
Qed.

Lemma linearFallback_nonneg (a b : point) (l : R) :
  finitePoint a -> finitePoint b -> finiteThrottle a -> finiteThrottle b ->
  nonnegResult (linearFallback a b ((b.(y) - a.(y)) || 1e-9) (Fin l)).
Proof.
  intros [Hax Hay] [Hbx Hby] Hta Htb.
  destruct (isFinite_Fin _ Hax) as [u1 Eu1]. destruct (isFinite_Fin _ Hay) as [v1 Ev1].
  destruct (isFinite_Fin _ Hbx) as [u2 Eu2]. destruct (isFinite_Fin _ Hby) as [v2 Ev2].
  destruct (finiteThrottle_nullish a Hta) as [w1 Ew1].
  destruct (finiteThrottle_nullish b Htb) as [w2 Ew2].
  unfold linearFallback. rewrite Eu1, Ev1, Eu2, Ev2, Ew1, Ew2.
  assert (Hdy : exists d : R, ((Fin v2 - Fin v1) || 1e-9) = Fin d /\ d <> 0%R).
  { cbn [sub add neg]. rewrite or_else_Fin.
    destruct (Reqb_spec (v2 + - v1) 0).
    - exists 1e-9%R. split; [reflexivity | lra].
    - exists (v2 + - v1)%R. split; [reflexivity | assumption]. }
  destruct Hdy as [d [-> Hd]].
  cbn [sub add neg]. rewrite !div_Fin by exact Hd.
  cbn [mul add]. rewrite !max2_Fin. cbn [nonnegResult].
  split; apply ge_Fin_0, Rmax_l.
Qed.

Lemma segment_nonneg (a b : point) (l : R) :
  physicalPoint a -> physicalPoint b ->
  brackets (Fin l) (a, b) = true ->
  nonnegResult (segment a b (Fin l)).
Proof.
  intros Ha Hb.
  destruct (physicalPoint_throttle a Ha) as [w1 [Hr1 Hw1]].
  destruct (physicalPoint_throttle b Hb) as [w2 [Hr2 Hw2]].
  destruct Ha as [[u1 [v1 [Hx1 [Hy1 Hu1]]]] _].
  destruct Hb as [[u2 [v2 [Hx2 [Hy2 Hu2]]]] _].
  unfold brackets. cbn [fst snd]. rewrite Hy1, Hy2. intros Hb.
  apply andb_true_iff in Hb. destruct Hb as [Hlo Hhi].
  cbn in Hlo, Hhi.
  destruct (Rleb_spec v1 l) as [Hlo' |]; [| discriminate].
  destruct (Rleb_spec l v2) as [Hhi' |]; [| discriminate].
  unfold segment. rewrite Hx1, Hy1, Hx2, Hy2, Hr1, Hr2.
  cbn [sub add neg]. rewrite or_else_Fin.
  assert (Ht : exists tt : R,
             (Fin (l + - v1) / (if Reqb (v2 + - v1) 0 then Fin 1 else Fin (v2 + - v1)))
             = Fin tt /\ (0 <= tt <= 1)%R).
  { destruct (Reqb_spec (v2 + - v1) 0) as [Heq | Hne].
    - rewrite div_Fin by lra. exists ((l + - v1) / 1)%R.
      split; [reflexivity |]. replace (l + - v1)%R with 0%R by lra. lra.
    - rewrite div_Fin by exact Hne. exists ((l + - v1) / (v2 + - v1))%R.
      split; [reflexivity |].
      assert (Hpos : (0 < v2 + - v1)%R) by lra.
      split.
      + apply Rmult_le_pos; [lra |]. left. apply Rinv_0_lt_compat. exact Hpos.
      + apply Rmult_le_reg_r with (r := (v2 + - v1)%R); [exact Hpos |].
        unfold Rdiv. rewrite Rmult_assoc, Rinv_l by exact Hne. lra. }
  destruct Ht as [tt [-> [Ht0 Ht1]]].
  cbn [mul add nonnegResult].
  split; apply ge_Fin_0.
  - replace (u1 + tt * (u2 + - u1))%R with ((1 - tt) * u1 + tt * u2)%R by ring.
    apply Rplus_le_le_0_compat; apply Rmult_le_pos; lra.
  - replace (w1 + tt * (w2 + - w1))%R with ((1 - tt) * w1 + tt * w2)%R by ring.
    apply Rplus_le_le_0_compat; apply Rmult_le_pos; lra.
Qed.

(** An [Ok] answer of the loop is the interpolation on a bracketing pair. *)
Lemma segmentLoop_inv (pts : list point) (lift : num) (c th : num) (n : bool) :
  segmentLoop pts lift = Ok c th n ->
  exists a b, In a pts /\ In b pts /\ brackets lift (a, b) = true /\
              segment a b lift = Ok c th n.
Proof.
  induction pts as [| a l IH]; [discriminate |].
  destruct l as [| b rest]; [discriminate |].
  cbn [segmentLoop]. intros H.
  destruct ((lift >=? a.(y)) && (lift <=? b.(y))) eqn:Hb.
  - exists a, b. repeat split; [left; reflexivity | right; left; reflexivity | exact Hb | exact H].
  - destruct (IH H) as [a' [b' [Ha' [Hb' [Hbr Hseg]]]]].
    exists a', b'. repeat split; [right; exact Ha' | right; exact Hb' | exact Hbr | exact Hseg].
Qed.

Lemma nonneg_not_negative (v : num) : (v >=? 0) = true -> (v <? 0) = false.
Proof. unfold ge. apply le_lt_false. Qed.

(** [Math.max(0, v)] is never negative: it is [>= 0], or [NaN] when [v] is. *)
Lemma max2_0_not_negative (v : num) : (max2 0 v <? 0) = false.
Proof.
  destruct v as [| | | r]; cbn [max2 lt]; try reflexivity.
  - apply Rltb_false. lra.
  - destruct (Rltb_spec 0 r); cbn [lt]; apply Rltb_false; lra.
Qed.

Lemma powerLaw_not_negative (a b : point) (lift c th : num) (n : bool) :
  powerLaw a b lift = Ok c th n -> (c <? 0) = false /\ (th <? 0) = false.
Proof.
  unfold powerLaw. cbv zeta. intros H. injection H as <- <- _.
  split; apply max2_0_not_negative.
Qed.

Lemma nonnegResult_Ok (r : result) (c th : num) (n : bool) :
  nonnegResult r -> r = Ok c th n ->
  ((c <? 0) = false /\ (th <? 0) = false) /\ ((c >=? 0) = true /\ (th >=? 0) = true).
Proof.
  intros Hn ->. cbn [nonnegResult] in Hn. destruct Hn as [Hc Hth].
  repeat split; try assumption; apply nonneg_not_negative; assumption.
Qed.

(** C1, as it holds.  On a series whose points have a finite current that is
    not negative, a finite thrust and a throttle that is absent or finite and
    not negative, and for a finite target, the current and the throttle of an
    [Ok] result are never negative.  On the in-range interpolation, the
    linear extrapolation and the single-point scaling both are [>= 0].  On
    the power-law extrapolation each is [Math.max(0, .)] of a fitted value,
    hence [>= 0] or [NaN]; [NaN] does occur there, on two lowest points of
    equal thrust. *)
Theorem ok_results_nonnegative :
  forall (series : list point) (l : R) (c th : num) (n : bool),
    Forall physicalPoint series ->
    interpolateCurrentForLift series (Fin l) = Ok c th n ->
    ((c <? 0) = false /\ (th <? 0) = false) /\
    (fittedByPowerLaw series (Fin l) = false ->
     (c >=? 0) = true /\ (th >=? 0) = true).
Proof.
  intros series l c th n Hphys.
  assert (Hpts : Forall physicalPoint (byThrust series)) by (apply sort_Forall; exact Hphys).
  unfold interpolateCurrentForLift, fittedByPowerLaw.
  destruct (byThrust series) as [| min rest] eqn:E; [discriminate |].
  cbv zeta. destruct (Fin l <? min.(y)) eqn:Hlow.
  - destruct rest as [| b rest].
    + intros Hok.
      destruct (nonnegResult_Ok _ c th n
                  (singlePoint_nonneg min l (Forall_inv Hpts)) Hok) as [H1 H2].
      split; [exact H1 | intros _; exact H2].
    + pose proof (Forall_inv Hpts) as Ha.
      pose proof (Forall_inv (Forall_inv_tail Hpts)) as Hb.
      destruct (positivePair min b) eqn:Hpos; intros Hok.
      * split; [apply (powerLaw_not_negative min b (Fin l) c th n Hok) |].
        cbn [andb]. discriminate.
      * destruct (nonnegResult_Ok _ c th n
                    (linearFallback_nonneg min b l
                       (physicalPoint_finite _ Ha) (physicalPoint_finite _ Hb)
                       (physicalPoint_finiteThrottle _ Ha)
                       (physicalPoint_finiteThrottle _ Hb)) Hok) as [H1 H2].
        split; [exact H1 | intros _; exact H2].
  - destruct (Fin l >? (last (min :: rest) min).(y)); [discriminate |].
    intros Hloop.
    destruct (segmentLoop_inv _ _ _ _ _ Hloop) as [a [b [Ha [Hb [Hbr Hseg]]]]].
    rewrite Forall_forall in Hpts.
    destruct (nonnegResult_Ok _ c th n
                (segment_nonneg a b l (Hpts a Ha) (Hpts b Hb) Hbr) Hseg) as [H1 H2].
    split; [exact H1 | intros _; exact H2].
Qed.

(** The series of the specification's interpolation example with throttles,
    queried at 1.5. *)
Lemma ok_results_nonnegative_witness :
  (Fin (5 + (1.5 + - (1)) / (2 + - (1)) * (10 + - (5))) >=? 0) = true /\
  (Fin (20 + (1.5 + - (1)) / (2 + - (1)) * (30 + - (20))) >=? 0) = true.
Proof.
  apply (ok_results_nonnegative
           [mkPoint 5 1 (Some (Fin 20)); mkPoint 10 2 (Some (Fin 30))] 1.5 _ _ false).
  - repeat constructor.
    + exists 5%R, 1%R. repeat split; lra.
    + exists 20%R. split; [reflexivity | lra].
    + exists 10%R, 2%R. repeat split; lra.
    + exists 30%R. split; [reflexivity | lra].
  - unfold interpolateCurrentForLift. js_eval. unfold segment. js_eval. reflexivity.
  - unfold fittedByPowerLaw. js_eval. reflexivity.
Defined.

(** C1, as stated, fails on measured currents that are negative: the in-range
    interpolation on [(x=-5, y=1), (x=-3, y=2)] at the target 1 returns the
    current -5. *)
Lemma negative_current_counterexample :
  ~ (forall (series : list point) (lift : num) (c th : num) (n : bool),
        interpolateCurrentForLift series lift = Ok c th n ->
        (c >=? 0) = true /\ (th >=? 0) = true).
Proof.
  intros H.
  assert (E : interpolateCurrentForLift [mkPoint (-5) 1 None; mkPoint (-3) 2 None] 1
              = Ok (-5) 0 false).
  { unfold interpolateCurrentForLift. js_eval. unfold segment. js_eval.
    f_equal; apply (f_equal Fin); R_calc. }
  destruct (H _ _ _ _ _ E) as [Hc _].
  cbn in Hc. rewrite Rleb_false in Hc by lra. discriminate.
Qed.

(** ** buildFlightCurve: the points of the curve *)

Lemma buildFlightCurve_eq (p : point) (series : list point)
    (motorCount capacityAh usablePct : num) (points : nat) :
  buildFlightCurve (p :: series) motorCount capacityAh usablePct points =
  sort (fun a b => a.(w) - b.(w))
    (addBoundary (p :: series) motorCount (usable capacityAh usablePct)
       (minLift (p :: series))
       (sweep (p :: series) motorCount (usable capacityAh usablePct) points)).
Proof. reflexivity. Qed.

Lemma sweepStep_eq (series : list point) (motorCount usableAh minL startP endP : num)
    (points : nat) (out : list curvePoint) (i : nat) :
  sweepStep series motorCount usableAh minL startP endP points out i =
  match interpolateCurrentForLift series (sweptLift startP endP points i) with
  | Ok currentA _ _ =>
      out ++ [mkCurve (sweptLift startP endP points i * motorCount)
                (minutesAt currentA motorCount usableAh)
                (sweptLift startP endP points i <? minL - 1e-9)]
  | Err _ => out
  end.
Proof. reflexivity. Qed.

Lemma map_y_finite (series : list point) :
  Forall (fun p => Number_isFinite p.(y) = true) series ->
  Forall (fun e => Number_isFinite e = true) (map y series).
Proof.
  intros Hy. apply Forall_forall. intros e He. apply in_map_iff in He.
  destruct He as [p [<- Hp]]. rewrite Forall_forall in Hy. apply Hy, Hp.
Qed.

Lemma sweepStep_In (series : list point) (motorCount usableAh minL startP endP : num)
    (points : nat) (l : list nat) (out : list curvePoint) (p : curvePoint) :
  In p (fold_left (sweepStep series motorCount usableAh minL startP endP points) l out) ->
  In p out \/
  exists i, In i l /\
            sweptPoint series motorCount usableAh minL (sweptLift startP endP points i) p.
Proof.
  revert out. induction l as [| i l IH]; intros out Hin; cbn [fold_left] in Hin.
  - left. exact Hin.
  - destruct (IH _ Hin) as [Hout | [j [Hj Hp]]].
    + unfold sweepStep in Hout. fold (sweptLift startP endP points i) in Hout.
      destruct (interpolateCurrentForLift series (sweptLift startP endP points i))
        as [cur th nl |] eqn:E; [| left; exact Hout].
      apply in_app_or in Hout. destruct Hout as [Hout | [<- | []]]; [left; exact Hout |].
      right. exists i. split; [left; reflexivity |].
      exists cur, th, nl. split; [exact E | reflexivity].
    + right. exists j. split; [right; exact Hj | exact Hp].
Qed.

Lemma addBoundary_In (series : list point) (motorCount usableAh minL : num)
    (out : list curvePoint) (p : curvePoint) :
  In p (addBoundary series motorCount usableAh minL out) ->
  In p out \/
  exists (cur th : num) (nl : bool),
    interpolateCurrentForLift series minL = Ok cur th nl /\
    p = mkCurve (minL * motorCount) (minutesAt cur motorCount usableAh) false.
Proof.
  unfold addBoundary. destruct (minL >? 0); [| left; assumption].
  destruct (interpolateCurrentForLift series minL) as [cur th nl |]; [| left; assumption].
  cbv zeta. destruct (existsb _ out); [left; assumption |].
  intros Hin. apply in_app_or in Hin. destruct Hin as [Hin | [<- | []]]; [left; exact Hin |].
  right. exists cur, th, nl. split; reflexivity.
Qed.

(** Every point of the curve carries the minutes computed by [minutesAt]. *)
Lemma buildFlightCurve_minutes (series : list point)
    (motorCount capacityAh usablePct : num) (points : nat) (p : curvePoint) :
  In p (buildFlightCurve series motorCount capacityAh usablePct points) ->
  exists cur : num, p.(t) = minutesAt cur motorCount (usable capacityAh usablePct).
Proof.
  destruct series as [| q series]; [intros [] |].
  rewrite buildFlightCurve_eq. intros Hin.
  apply sort_In in Hin. apply addBoundary_In in Hin.
  destruct Hin as [Hin | [cur [th [nl [_ ->]]]]]; [| exists cur; reflexivity].
  apply sweepStep_In in Hin.
  destruct Hin as [[] | [i [_ [cur [th [nl [_ ->]]]]]]].
  exists cur. reflexivity.
Qed.

(** ** The time cap *)

Lemma usable_Fin (c u : R) : usable (Fin c) (Fin u) = Fin (c * (u / 100)).
Proof. unfold usable. rewrite div_Fin by lra. reflexivity. Qed.

Lemma capped_minutes (total : num) (q : R) :
  (0 <= q)%R ->
  exists m : R,
    (if total >? 0 then min2 (Fin q / total * 60) 120 else 0) = Fin m /\ (0 <= m <= 120)%R.
Proof.
  intros Hq. destruct total as [| | | tc]; cbn [gt lt].
  - exists 0%R. split; [reflexivity | lra].
  - cbn [div mul]. rewrite min2_Fin. eexists. split; [reflexivity |].
    rewrite Rmin_left by lra. lra.
  - exists 0%R. split; [reflexivity | lra].
  - destruct (Rltb_spec 0 tc) as [Htc |]; [| exists 0%R; split; [reflexivity | lra]].
    rewrite div_Fin by lra. cbn [mul]. rewrite min2_Fin.
    eexists. split; [reflexivity |].
    assert (H0 : (0 <= q / tc * 60)%R).
    { apply Rmult_le_pos; [| lra].
      apply Rmult_le_pos; [exact Hq |]. left. apply Rinv_0_lt_compat. exact Htc. }
    split; [apply Rmin_glb; lra | apply Rmin_r].
Qed.

(** C9. With a battery capacity that is a number [>= 0] and a usable
    percentage in [[0, 100]], every point of the flight curve has its minutes
    in [[0, 120]], whatever the series, the motor count and the number of
    samples.  The minutes are [usableAh / totalCurrent * 60] capped at 120 when
    the total current is positive, however small, and 0 when it is not. *)
Theorem flight_minutes_within_cap :
  forall (series : list point) (motorCount : num) (c u : R) (points : nat),
    (0 <= c)%R -> (0 <= u <= 100)%R ->
    Forall minutesInRange (buildFlightCurve series motorCount (Fin c) (Fin u) points) /\
    forall (cur : num) (tc : R),
      max2 (cur || 0) 0.1 * motorCount = Fin tc ->
      minutesAt cur motorCount (usable (Fin c) (Fin u)) =
      if Rlt_dec 0 tc then Fin (Rmin (c * (u / 100) / tc * 60) 120) else Fin 0.
Proof.
  intros series motorCount c u points Hc Hu.
  assert (Hq : (0 <= c * (u / 100))%R) by (apply Rmult_le_pos; lra).
  split.
  - apply Forall_forall. intros p Hin.
    destruct (buildFlightCurve_minutes _ _ _ _ _ _ Hin) as [cur Ht].
    unfold minutesInRange. rewrite Ht, usable_Fin. unfold minutesAt.
    apply capped_minutes. exact Hq.
  - intros cur tc Htc. unfold minutesAt. rewrite Htc, usable_Fin.
    cbn [gt lt]. unfold Rltb. destruct (Rlt_dec 0 tc) as [Hpos | Hneg]; [| reflexivity].
    rewrite div_Fin by lra. cbn [mul]. apply min2_Fin.
Qed.

(** The application's call: four motors, 20 Ah, 80 percent, 40 samples. *)
Lemma flight_minutes_within_cap_witness :
  Forall minutesInRange
    (buildFlightCurve [mkPoint 5 1 None; mkPoint 10 2 None] 4 20 80 40).
Proof.
  apply (flight_minutes_within_cap [mkPoint 5 1 None; mkPoint 10 2 None] 4 20 80 40);
    lra.
Defined.

(** ** The boundary point *)

Lemma Math_min_finite (l : list num) :
  Forall (fun e => Number_isFinite e = true) l -> l <> [] ->
  exists m : R, Math_min l = Fin m /\ In (Fin m) l /\
                Forall (fun e => (Fin m <=? e) = true) l.
Proof.
  induction 1 as [| e l He Hl IH]; [congruence |]. intros _.
  destruct (isFinite_Fin e He) as [r ->].
  destruct l as [| e' l'].
  - exists r. split; [reflexivity |]. split; [left; reflexivity |].
    constructor; [| constructor]. cbn. apply Rleb_true. lra.
  - destruct IH as [m [Hm [Hin Hall]]]; [discriminate |].
    change (Math_min (Fin r :: e' :: l')) with (min2 (Fin r) (Math_min (e' :: l'))).
    rewrite Hm, min2_Fin. exists (Rmin r m). split; [reflexivity |]. split.
    + unfold Rmin. destruct (Rle_dec r m); [left; reflexivity | right; exact Hin].
    + constructor.
      * cbn. apply Rleb_true, Rmin_l.
      * eapply Forall_impl; [| exact Hall]. intros a Ha.
        apply (key_le_trans (fun v : num => v) (Fin (Rmin r m)) (Fin m) a); [| exact Ha].
        unfold key_le. cbn. apply Rleb_true, Rmin_r.
Qed.

Lemma Math_max_finite (l : list num) :
  Forall (fun e => Number_isFinite e = true) l -> l <> [] ->
  exists m : R, Math_max l = Fin m.
Proof.
  induction 1 as [| e l He Hl IH]; [congruence |]. intros _.
  destruct (isFinite_Fin e He) as [r ->].
  destruct l as [| e' l'].
  - exists r. reflexivity.
  - destruct IH as [m Hm]; [discriminate |].
    change (Math_max (Fin r :: e' :: l')) with (max2 (Fin r) (Math_max (e' :: l'))).
    rewrite Hm, max2_Fin. eexists. reflexivity.
Qed.

Lemma finiteThrusts_finite (series : list point) :
  Forall (fun e => Number_isFinite e = true) (finiteThrusts series).
Proof.
  apply Forall_forall. intros e He. apply filter_In in He. apply He.
Qed.

Lemma finiteThrusts_all (series : list point) :
  Forall (fun p => Number_isFinite p.(y) = true) series ->
  finiteThrusts series = map y series.
Proof.
  unfold finiteThrusts. induction 1 as [| p l Hp Hl IH]; [reflexivity |].
  cbn [map filter]. rewrite Hp, IH. reflexivity.
Qed.

Lemma minLift_Fin (series : list point) : exists m : R, minLift series = Fin m.
Proof.
  unfold minLift. pose proof (finiteThrusts_finite series) as Hf.
  destruct (finiteThrusts series) as [| e l] eqn:E; [eexists; reflexivity |].
  destruct (Math_min_finite (e :: l) Hf) as [m [Hm _]]; [discriminate |].
  exists m. exact Hm.
Qed.

Lemma maxLift_Fin (series : list point) : exists m : R, maxLift series = Fin m.
Proof.
  unfold maxLift. pose proof (finiteThrusts_finite series) as Hf.
  destruct (finiteThrusts series) as [| e l] eqn:E; [eexists; reflexivity |].
  apply (Math_max_finite (e :: l) Hf). discriminate.
Qed.

Lemma minLift_all_finite (series : list point) :
  Forall (fun p => Number_isFinite p.(y) = true) series -> series <> [] ->
  minLift series = Math_min (map y series).
Proof.
  intros Hy Hne. unfold minLift. rewrite (finiteThrusts_all series Hy).
  destruct series; [congruence | reflexivity].
Qed.

(** With two or more finite thrusts the interpolation at the lowest one
    succeeds, on the measured side. *)
Lemma interpolate_at_min (series : list point) :
  Forall (fun p => Number_isFinite p.(y) = true) series ->
  (2 <= length series)%nat ->
  exists c th, interpolateCurrentForLift series (Math_min (map y series)) = Ok c th false.
Proof.
  intros Hy Hlen.
  assert (Hne : series <> []) by (destruct series; [simpl in Hlen; lia | discriminate]).
  destruct (byThrust_nonempty series Hne) as [min [rest E]].
  assert (Hys : Forall (fun e => Number_isFinite e = true) (map y series)).
  { apply Forall_forall. intros e He. apply in_map_iff in He.
    destruct He as [p [<- Hp]]. rewrite Forall_forall in Hy. apply Hy, Hp. }
  destruct (Math_min_finite (map y series) Hys) as [m [Hm [Hin Hall]]].
  { destruct series; [congruence | discriminate]. }
  rewrite Hm. rewrite Forall_forall in Hall.
  apply (interpolate_in_range_ok series (Fin m) min rest).
  - eapply Forall_impl; [| exact Hy]. intros p. apply isFinite_notNaN.
  - exact Hlen.
  - reflexivity.
  - exact E.
  - apply le_lt_false.
    apply in_map_iff in Hin. destruct Hin as [p [Hp Hin]]. rewrite <- Hp.
    pose proof (sort_sorted y series Hy) as Hs. rewrite E in Hs.
    apply (sort_In (fun a b => a.(y) - b.(y))) in Hin. rewrite E in Hin.
    destruct Hin as [<- | Hin].
    + destruct (isFinite_Fin _ (proj1 (Forall_forall _ _) Hy min
                                  (byThrust_head_In series min rest E))) as [r ->].
      cbn. apply Rleb_true. lra.
    + inversion Hs as [| ? ? _ Hall']; subst.
      rewrite Forall_forall in Hall'. apply Hall', Hin.
  - unfold gt. apply le_lt_false. apply Hall.
    apply in_map, (byThrust_last_In series min rest E).
Qed.

Lemma abs_self_small (r : R) : (Math_abs (Fin r - Fin r) <? 1e-6) = true.
Proof.
  cbn. replace (r + - r)%R with 0%R by lra. rewrite Rabs_R0. apply Rltb_true. lra.
Qed.

(** ** Weights of the curve and the stitching of the two segments *)

Lemma segmentLoop_NaN (pts : list point) : segmentLoop pts NaN = Err segment_not_found.
Proof.
  induction pts as [| a l IH]; [reflexivity |].
  destruct l as [| b rest]; [reflexivity |].
  cbn [segmentLoop]. replace (NaN >=? a.(y)) with false; [exact IH |].
  unfold ge. destruct (y a); reflexivity.
Qed.

Lemma interpolate_NaN (series : list point) :
  exists r, interpolateCurrentForLift series NaN = Err r.
Proof.
  unfold interpolateCurrentForLift.
  destruct (byThrust series) as [| min rest]; [eexists; reflexivity |].
  cbv zeta. cbn [lt].
  replace (NaN >? (last (min :: rest) min).(y)) with false.
  - rewrite segmentLoop_NaN. eexists; reflexivity.
  - unfold gt. destruct (y (last (min :: rest) min)); reflexivity.
Qed.

(** A sample index below the number of samples gives a finite lift, or [NaN]
    when there is a single sample ([0/0]). *)
Lemma sweptLift_cases (s e : R) (points i : nat) :
  (i < points)%nat ->
  sweptLift (Fin s) (Fin e) points i = NaN \/
  exists r : R, sweptLift (Fin s) (Fin e) points i = Fin r.
Proof.
  intros Hi. unfold sweptLift. cbn [sub add neg div].
  destruct (Reqb_spec (INR points + - (1)) 0) as [Heq | Hne].
  - assert (Hp : points = 1%nat).
    { apply INR_eq. change (INR 1) with 1%R. lra. }
    assert (Hi0 : i = 0%nat) by lia. subst i. cbn [INR].
    rewrite !Rltb_false by lra. left. reflexivity.
  - right. eexists. reflexivity.
Qed.

Lemma buildFlightCurve_weights (series : list point) (m : R)
    (capacityAh usablePct : num) (points : nat) :
  Forall finiteWeight (buildFlightCurve series (Fin m) capacityAh usablePct points).
Proof.
  apply Forall_forall. intros p Hin.
  destruct series as [| q series]; [destruct Hin |].
  rewrite buildFlightCurve_eq in Hin. apply sort_In in Hin.
  destruct (minLift_Fin (q :: series)) as [lo Hlo].
  destruct (maxLift_Fin (q :: series)) as [hi Hhi].
  apply addBoundary_In in Hin. destruct Hin as [Hin | [cur [th [nl [_ ->]]]]].
  - apply sweepStep_In in Hin. destruct Hin as [[] | [i [Hi [cur [th [nl [Hok ->]]]]]]].
    apply in_seq in Hi.
    unfold startLift, endLift, startLift in Hok |- *. rewrite Hlo, Hhi in Hok |- *.
    cbn [mul add] in Hok |- *. rewrite !max2_Fin in Hok |- *.
    cbn [mul add] in Hok |- *. rewrite !max2_Fin in Hok |- *.
    match type of Hok with
    | interpolateCurrentForLift _ (sweptLift (Fin ?s) (Fin ?e) _ _) = _ =>
        destruct (sweptLift_cases s e points i) as [Hnan | [r Hr]]; [lia | |]
    end.
    + rewrite Hnan in Hok. destruct (interpolate_NaN (q :: series)) as [why Herr].
      congruence.
    + unfold finiteWeight. cbn [w]. rewrite Hr. eexists. reflexivity.
  - unfold finiteWeight. cbn [w]. rewrite Hlo. eexists. reflexivity.
Qed.

Lemma Forall_filter {A : Type} (P : A -> Prop) (f : A -> bool) (l : list A) :
  Forall P l -> Forall P (filter f l).
Proof.
  intros H. apply Forall_forall. intros a Ha. apply filter_In in Ha.
  rewrite Forall_forall in H. apply H, Ha.
Qed.

Lemma abs_gap_le (u v : R) :
  (Math_abs (Fin u - Fin v) >? 1e-6) = false ->
  (Math_abs (Fin u - Fin v) <=? 1e-6) = true.
Proof.
  unfold gt. cbn [Math_abs sub add neg lt le]. intros H.
  destruct (Rltb_spec 1e-6 (Rabs (u + - v))); [discriminate |].
  apply Rleb_true. lra.
Qed.

(** Whenever both parts are non-empty, the last estimated point and the first
    known point are at most 1e-6 apart in weight. *)
Lemma splitCurve_stitched (curve : list curvePoint) (k e : curvePoint)
    (ks es : list curvePoint) :
  Forall finiteWeight curve ->
  known (splitCurve curve) = k :: ks ->
  estimated (splitCurve curve) = e :: es ->
  (Math_abs ((last (e :: es) e).(w) - k.(w)) <=? 1e-6) = true.
Proof.
  intros Hw. destruct curve as [| q curve]; [discriminate |].
  unfold splitCurve.
  pose proof (Forall_filter finiteWeight (fun d => negb d.(est)) _ Hw) as Hkn.
  pose proof (Forall_filter finiteWeight (fun d => d.(est)) _ Hw) as Hes.
  destruct (filter (fun d => negb d.(est)) (q :: curve)) as [| boundary kn]; cbv zeta.
  - cbn [known]. discriminate.
  - destruct (filter (fun d => d.(est)) (q :: curve)) as [| e0 es0] eqn:Ees.
    + cbn [estimated]. discriminate.
    + assert (Hb : finiteWeight boundary) by (inversion Hkn; assumption).
      destruct Hb as [bw Hbw].
      destruct (Math_abs ((last (e0 :: es0) e0).(w) - boundary.(w)) >? 1e-6) eqn:Hgap;
        cbn [known estimated]; intros Hk He; injection Hk as <- <-.
      * rewrite <- He. rewrite last_last. cbn [w]. rewrite Hbw.
        apply abs_gap_le. cbn. replace (bw + - bw)%R with 0%R by lra.
        rewrite Rabs_R0. apply Rltb_false. lra.
      * injection He as <- <-.
        assert (Hl : finiteWeight (last (e0 :: es0) e0)).
        { rewrite Forall_forall in Hes. apply Hes, last_In. discriminate. }
        destruct Hl as [lw Hlw]. rewrite Hlw, Hbw in Hgap |- *.
        apply abs_gap_le. exact Hgap.
Qed.

Lemma startLift_endLift (series : list point) :
  exists s e : R,
    startLift series = Fin s /\ endLift series = Fin e /\
    (0 <= s)%R /\ (s + 0.01 <= e)%R.
Proof.
  destruct (minLift_Fin series) as [lo Hlo]. destruct (maxLift_Fin series) as [hi Hhi].
  unfold endLift, startLift. rewrite Hlo, Hhi. cbn [mul]. rewrite max2_Fin.
  cbn [add]. rewrite max2_Fin.
  eexists. eexists. split; [reflexivity |]. split; [reflexivity |].
  split; [apply Rmax_l | apply Rmax_l].
Qed.

Lemma sweptLift_Fin (s e : R) (points i : nat) :
  (2 <= points)%nat ->
  sweptLift (Fin s) (Fin e) points i = Fin (s + (e - s) * (INR i / INR (points - 1))).
Proof.
  intros Hp. unfold sweptLift. cbn [sub add neg].
  assert (Hn : (INR points + - (1) = INR (points - 1))%R).
  { rewrite minus_INR by lia. change (INR 1) with 1%R. lra. }
  assert (Hpos : (0 < INR (points - 1))%R) by (apply lt_0_INR; lia).
  rewrite Hn. rewrite div_Fin by lra. reflexivity.
Qed.

(** The number of elements that pass a test does not depend on the order. *)
Lemma filter_length_perm {A : Type} (f : A -> bool) (l l' : list A) :
  Permutation l l' -> length (filter f l) = length (filter f l').
Proof.
  induction 1 as [| a l l' _ IH | a b l | l l' l'' _ IH1 _ IH2]; cbn [filter].
  - reflexivity.
  - destruct (f a); cbn [length]; congruence.
  - destruct (f a), (f b); reflexivity.
  - congruence.
Qed.

Lemma existsb_false_filter {A : Type} (f : A -> bool) (l : list A) :
  existsb f l = false -> filter f l = [].
Proof.
  induction l as [| a l IH]; [reflexivity |]. cbn [existsb filter].
  intros H. apply orb_false_iff in H. destruct H as [Ha Hl].
  rewrite Ha. apply IH, Hl.
Qed.

Lemma existsb_true_filter {A : Type} (f : A -> bool) (l : list A) :
  existsb f l = true -> (1 <= length (filter f l))%nat.
Proof.
  intros H. apply existsb_exists in H. destruct H as [a [Hin Ha]].
  assert (Hf : In a (filter f l)) by (apply filter_In; split; assumption).
  destruct (filter f l); [destruct Hf | cbn [length]; lia].
Qed.

(** The sampling loop pushes the points of the samples in order. *)
Lemma sweep_flat_map (series : list point) (motorCount usableAh minL startP endP : num)
    (points : nat) (l : list nat) (out : list curvePoint) :
  fold_left (sweepStep series motorCount usableAh minL startP endP points) l out =
  out ++ flat_map (sampledPoint series motorCount usableAh minL startP endP points) l.
Proof.
  revert out. induction l as [| i l IH]; intros out; cbn [fold_left flat_map].
  - rewrite app_nil_r. reflexivity.
  - rewrite IH, sweepStep_eq. unfold sampledPoint.
    destruct (interpolateCurrentForLift series (sweptLift startP endP points i));
      [rewrite <- app_assoc |]; reflexivity.
Qed.

(** When no two indices both contribute an element that passes the test, at
    most one element passes it. *)
Lemma at_most_one_of_flat_map {A : Type} (f : A -> bool) (g : nat -> list A)
    (l : list nat) :
  NoDup l ->
  (forall i, (length (g i) <= 1)%nat) ->
  (forall i j a b, In i l -> In j l -> i <> j -> In a (g i) -> In b (g j) ->
                   f a = true -> f b = true -> False) ->
  (length (filter f (flat_map g l)) <= 1)%nat.
Proof.
  intros Hnd Hone. induction Hnd as [| i l Hnotin Hnd IH]; intros Hconf;
    cbn [flat_map]; [cbn; lia |].
  rewrite filter_app, length_app.
  assert (Hrest : (length (filter f (flat_map g l)) <= 1)%nat).
  { apply IH. intros i' j a b Hi' Hj. apply Hconf; right; assumption. }
  destruct (filter f (g i)) as [| a fa] eqn:Ea; [cbn [length]; lia |].
  assert (Ha : In a (g i) /\ f a = true).
  { apply filter_In. rewrite Ea. left. reflexivity. }
  assert (Hlen : (length (a :: fa) <= 1)%nat).
  { rewrite <- Ea. eapply Nat.le_trans; [apply filter_length_le | apply Hone]. }
  destruct (filter f (flat_map g l)) as [| b fb] eqn:Eb; [cbn [length] in *; lia |].
  exfalso.
  assert (Hb : In b (flat_map g l) /\ f b = true).
  { apply filter_In. rewrite Eb. left. reflexivity. }
  destruct Hb as [Hb Hfb]. apply in_flat_map in Hb. destruct Hb as [j [Hj Hbj]].
  apply (Hconf i j a b); try tauto.
  - left. reflexivity.
  - right. exact Hj.
  - intros ->. contradiction.
Qed.

(** Consecutive samples are [(e - s) * m / (points - 1)] apart in weight; when
    that is 4e-6 or more, no two samples are both less than 1e-6 away from
    the same weight (2e-6 is enough in exact arithmetic). *)
Lemma samples_apart (s e m bw : R) (points i j : nat) :
  (s + 0.01 <= e)%R ->
  (4e-6 * (INR points - 1) <= (e - s) * m)%R ->
  (i < j < points)%nat ->
  (Rabs ((s + (e - s) * (INR i / INR (points - 1))) * m + - bw) < 1e-6)%R ->
  (Rabs ((s + (e - s) * (INR j / INR (points - 1))) * m + - bw) < 1e-6)%R ->
  False.
Proof.
  intros Hse Hsp [Hij Hj] Hi Hjw.
  assert (Hn : (INR points - 1 = INR (points - 1))%R).
  { rewrite minus_INR by lia. change (INR 1) with 1%R. lra. }
  rewrite Hn in Hsp.
  assert (Hn1 : (1 <= INR (points - 1))%R).
  { change 1%R with (INR 1). apply le_INR. lia. }
  assert (Hk : (INR i + 1 <= INR j)%R).
  { change 1%R with (INR 1). rewrite <- plus_INR. apply le_INR. lia. }
  set (N := INR (points - 1)) in *.
  assert (Hinv : (0 < / N)%R) by (apply Rinv_0_lt_compat; lra).
  assert (Hgap : (2e-6 <= (e - s) * m * ((INR j - INR i) * / N))%R).
  { assert (H2 : (/ N <= (INR j - INR i) * / N)%R) by nra.
    assert (H3 : (2e-6 * N * / N <= (e - s) * m * ((INR j - INR i) * / N))%R).
    { apply Rmult_le_compat; [nra | lra | nra | exact H2]. }
    rewrite Rmult_assoc, Rinv_r in H3 by lra. lra. }
  apply Rabs_def2 in Hi. apply Rabs_def2 in Hjw.
  unfold Rdiv in Hi, Hjw.
  assert (Hdiff : ((s + (e - s) * (INR j * / N)) * m - (s + (e - s) * (INR i * / N)) * m
                   = (e - s) * m * ((INR j - INR i) * / N))%R) by ring.
  lra.
Qed.

(** At most one point of the sampling loop passes the de-duplication test. *)
Lemma sweep_near_boundary (series : list point) (m b : R) (usableAh : num)
    (points : nat) :
  samplesApart series (Fin m) points ->
  (length (filter (nearBoundary (Fin m) (Fin b)) (sweep series (Fin m) usableAh points))
   <= 1)%nat.
Proof.
  intros Hsp. unfold sweep. rewrite sweep_flat_map, app_nil_l.
  destruct (startLift_endLift series) as [s [e [Hs [He [_ Hse]]]]].
  unfold samplesApart in Hsp. rewrite Hs, He in Hsp |- *.
  cbn [sub add neg mul le] in Hsp.
  destruct (Rleb_spec (4e-6 * (INR points + - (1))) ((e + - s) * m)) as [Hsp' |];
    [| discriminate].
  apply at_most_one_of_flat_map.
  - apply seq_NoDup.
  - intros i. unfold sampledPoint.
    destruct (interpolateCurrentForLift series (sweptLift (Fin s) (Fin e) points i));
      cbn [length]; lia.
  - assert (Hnear : forall i p,
               (i < points)%nat -> (2 <= points)%nat ->
               In p (sampledPoint series (Fin m) usableAh (minLift series)
                       (Fin s) (Fin e) points i) ->
               nearBoundary (Fin m) (Fin b) p = true ->
               (Rabs ((s + (e - s) * (INR i / INR (points - 1))) * m + - (b * m)) < 1e-6)%R).
    { intros i p Hi Hp Hin Hp1. unfold sampledPoint in Hin.
      rewrite (sweptLift_Fin s e points i Hp) in Hin.
      destruct (interpolateCurrentForLift series _) as [c th n |]; [| destruct Hin].
      destruct Hin as [<- | []]. unfold nearBoundary in Hp1.
      cbn [w mul sub add neg Math_abs lt] in Hp1.
      destruct (Rltb_spec (Rabs ((s + (e - s) * (INR i / INR (points - 1))) * m
                                 + - (b * m))) 1e-6);
        [assumption | discriminate]. }
    intros i j p q Hi Hj Hij Hp Hq Hp1 Hq1.
    apply in_seq in Hi. apply in_seq in Hj.
    assert (H2 : (2 <= points)%nat) by lia.
    pose proof (Hnear i p (proj2 Hi) H2 Hp Hp1) as Hwi.
    pose proof (Hnear j q (proj2 Hj) H2 Hq Hq1) as Hwj.
    destruct (Nat.lt_total i j) as [Hlt | [Heq | Hgt]]; [| contradiction |].
    + apply (samples_apart s e m (b * m) points i j Hse Hsp'); [lia | exact Hwi | exact Hwj].
    + apply (samples_apart s e m (b * m) points j i Hse Hsp'); [lia | exact Hwj | exact Hwi].
Qed.

(** The sweep is at least 0.01 wide in lift, so [points - 1 <= 2500 * m] with
    [0 <= m] is enough for the samples to be 4e-6 apart in weight. *)
Lemma samplesApart_of_count (series : list point) (m : R) (points : nat) :
  (INR points - 1 <= 2500 * m)%R -> (0 <= m)%R ->
  samplesApart series (Fin m) points.
Proof.
  intros Hc Hm. unfold samplesApart.
  destruct (startLift_endLift series) as [s [e [Hs [He [_ Hse]]]]].
  rewrite Hs, He. cbn [sub add neg mul le]. apply Rleb_true. nra.
Qed.

Lemma addBoundary_eq (series : list point) (motorCount usableAh minL : num)
    (out : list curvePoint) (c th : num) (n : bool) :
  (minL >? 0) = true ->
  interpolateCurrentForLift series minL = Ok c th n ->
  addBoundary series motorCount usableAh minL out =
  if existsb (nearBoundary motorCount minL) out then out
  else out ++ [mkCurve (minL * motorCount) (minutesAt c motorCount usableAh) false].
Proof. intros Hpos Hok. unfold addBoundary. rewrite Hpos, Hok. reflexivity. Qed.

(** C2, as it holds.  For a series of two or more points with finite thrusts
    whose minimum [minY] is positive, and a finite motor count [m], the flight
    curve contains a point whose weight is less than 1e-6 away from the
    boundary weight [minY * m], by the test of the de-duplication (line 116).
    It contains exactly one such point whenever consecutive samples are at
    least 4e-6 apart in weight, [(endPer - startPer) * m >= 4e-6 * (points - 1)]:
    then no two samples pass the test, with a margin over the 2e-6 of exact
    arithmetic that keeps the rounding of the weights out of it.  The sweep
    being at least 0.01 wide, that is the case when [0 <= m] and
    [points - 1 <= 2500 * m], as in the application's call (40 samples, 4
    motors).  And the two parts of [splitCurve] of the curve, when both are
    non-empty, meet: the last estimated point and the first known point have
    weights at most 1e-6 apart. *)
Theorem boundary_point_and_stitching :
  forall (series : list point) (m : R) (capacityAh usablePct : num) (points : nat),
    Forall (fun p => Number_isFinite p.(y) = true) series ->
    (2 <= length series)%nat ->
    (Math_min (map y series) >? 0) = true ->
    let curve := buildFlightCurve series (Fin m) capacityAh usablePct points in
    let near := nearBoundary (Fin m) (Math_min (map y series)) in
    (1 <= length (filter near curve))%nat /\
    (samplesApart series (Fin m) points -> length (filter near curve) = 1%nat) /\
    (forall k ks e es,
        known (splitCurve curve) = k :: ks ->
        estimated (splitCurve curve) = e :: es ->
        (Math_abs ((last (e :: es) e).(w) - k.(w)) <=? 1e-6) = true).
Proof.
  intros series m capacityAh usablePct points Hy Hlen Hpos curve near.
  assert (Hcount : (1 <= length (filter near curve))%nat /\
                   (samplesApart series (Fin m) points ->
                    length (filter near curve) = 1%nat)).
  { subst curve near.
    destruct (interpolate_at_min series Hy Hlen) as [c [th Hok]].
    destruct series as [| q series]; [simpl in Hlen; lia |].
    rewrite buildFlightCurve_eq.
    rewrite (filter_length_perm _ _ _ (sort_perm _ _)).
    rewrite (minLift_all_finite (q :: series) Hy) by discriminate.
    destruct (Math_min_finite _ (map_y_finite _ Hy)) as [b [Hb _]]; [discriminate |].
    rewrite Hb in Hpos, Hok |- *.
    rewrite (addBoundary_eq _ _ _ _ _ c th false Hpos Hok).
    pose proof (sweep_near_boundary (q :: series) m b (usable capacityAh usablePct) points)
      as Hone.
    destruct (existsb (nearBoundary (Fin m) (Fin b))
                (sweep (q :: series) (Fin m) (usable capacityAh usablePct) points)) eqn:Hex.
    - apply existsb_true_filter in Hex. split; [exact Hex |].
      intros Hsp. specialize (Hone Hsp). lia.
    - apply existsb_false_filter in Hex.
      rewrite filter_app, Hex, app_nil_l. cbn [filter].
      replace (nearBoundary (Fin m) (Fin b) _) with true.
      + cbn [length]. split; [lia | reflexivity].
      + symmetry. unfold nearBoundary. cbn [w mul]. apply abs_self_small. }
  destruct Hcount as [H1 H2].
  split; [exact H1 | split; [exact H2 |]].
  intros k ks e es. apply splitCurve_stitched. apply buildFlightCurve_weights.
Qed.

(** The application's call on the series of the interpolation example. *)
Lemma boundary_point_and_stitching_witness :
  length
    (filter (nearBoundary 4 (Math_min [Fin 1; Fin 2]))
       (buildFlightCurve [mkPoint 5 1 None; mkPoint 10 2 None] 4 20 80 40)) = 1%nat.
Proof.
  apply (boundary_point_and_stitching [mkPoint 5 1 None; mkPoint 10 2 None] 4 20 80 40).
  - repeat constructor.
  - simpl. lia.
  - js_eval. reflexivity.
  - apply samplesApart_of_count; [| lra].
    replace (INR 40) with 40%R by (rewrite INR_IZR_INZ; reflexivity). lra.
Defined.

(** ** A curve with two points next to the boundary *)

(** Samples whose interpolation fails leave the output as it is. *)
Lemma sweep_skip (series : list point) (motorCount usableAh minL startP endP : num)
    (points : nat) (l : list nat) (out : list curvePoint) :
  (forall i, In i l ->
             exists r, interpolateCurrentForLift series (sweptLift startP endP points i) = Err r) ->
  fold_left (sweepStep series motorCount usableAh minL startP endP points) l out = out.
Proof.
  revert out. induction l as [| i l IH]; intros out H; cbn [fold_left]; [reflexivity |].
  rewrite IH by (intros j Hj; apply H; right; exact Hj).
  rewrite sweepStep_eq.
  destruct (H i (or_introl eq_refl)) as [r ->]. reflexivity.
Qed.

Lemma fold_left_cons {A B : Type} (f : A -> B -> A) (b : B) (l : list B) (acc : A) :
  fold_left f (b :: l) acc = fold_left f l (f acc b).
Proof. reflexivity. Qed.

Lemma tiny_sorted : byThrust tinySeries = [tinyLow; tinyHigh].
Proof. unfold tinySeries, tinyLow, tinyHigh. js_eval. reflexivity. Qed.

Lemma tiny_minLift : minLift tinySeries = Fin 3e-6.
Proof. unfold tinySeries, tinyLow, tinyHigh. unfold minLift, finiteThrusts. js_eval. reflexivity. Qed.

Lemma tiny_maxLift : maxLift tinySeries = Fin 6e-6.
Proof. unfold tinySeries, tinyLow, tinyHigh. unfold maxLift, finiteThrusts. js_eval. reflexivity. Qed.

Lemma tiny_startLift : startLift tinySeries = Fin 2.1e-6.
Proof.
  unfold startLift. rewrite tiny_minLift. cbn [mul]. rewrite max2_Fin.
  f_equal. rewrite Rmax_right by lra. lra.
Qed.

Lemma tiny_endLift : endLift tinySeries = Fin 0.0100021.
Proof.
  unfold endLift. rewrite tiny_startLift, tiny_maxLift. cbn [mul add].
  rewrite max2_Fin. f_equal. rewrite Rmax_left by lra. lra.
Qed.

Lemma tiny_sweptLift (i : nat) :
  sweptLift (Fin 2.1e-6) (Fin 0.0100021) 40 i = Fin (2.1e-6 + 0.01 * (INR i / 39)).
Proof.
  unfold sweptLift. replace (INR 40) with 40%R by (rewrite INR_IZR_INZ; reflexivity).
  cbn [sub add neg]. rewrite div_Fin by lra. cbn [mul add]. f_equal.
  replace (40 + - (1))%R with 39%R by lra. lra.
Qed.

(** The first sample is below the measured range. *)
Lemma tiny_first_sample :
  exists c th, interpolateCurrentForLift tinySeries (Fin (2.1e-6 + 0.01 * (INR 0 / 39))) = Ok c th true.
Proof.
  apply (extrapolation_estimated (byThrust tinySeries) (Fin (2.1e-6 + 0.01 * (INR 0 / 39)))).
  apply (interpolate_below tinySeries _ tinyLow [tinyHigh] tiny_sorted).
  cbn [INR]. unfold tinyLow. cbn [y lt]. apply Rltb_true. lra.
Qed.

(** Every later sample is above it. *)
Lemma tiny_later_samples (i : nat) :
  (1 <= i)%nat ->
  interpolateCurrentForLift tinySeries (Fin (2.1e-6 + 0.01 * (INR i / 39))) = Err exceeds_max.
Proof.
  intros Hi. apply le_INR in Hi. change (INR 1) with 1%R in Hi.
  apply (interpolate_above tinySeries _ tinyLow [tinyHigh] tiny_sorted).
  - unfold tinyLow. unfold gt. cbn [y lt]. apply Rltb_true. lra.
  - unfold tinyLow, tinyHigh. unfold gt. cbn [last y lt]. apply Rltb_true. lra.
Qed.

Lemma tiny_boundary_sample :
  exists c th, interpolateCurrentForLift tinySeries (Fin 3e-6) = Ok c th false.
Proof.
  unfold tinySeries, tinyLow, tinyHigh. unfold interpolateCurrentForLift. js_eval. unfold segment.
  eexists. eexists. reflexivity.
Qed.

(** The curve the application draws for this series: the first sample, at
    the weight 8.4e-6, and the boundary point, at the weight 1.2e-5. *)
Lemma tiny_curve :
  exists t0 t1 : num,
    buildFlightCurve tinySeries 4 20 80 40 =
    [mkCurve 8.4e-6 t0 true; mkCurve 1.2e-5 t1 false].
Proof.
  destruct tiny_first_sample as [c0 [th0 H0]].
  destruct tiny_boundary_sample as [c1 [th1 H1]].
  exists (minutesAt c0 4 (usable 20 80)), (minutesAt c1 4 (usable 20 80)).
  unfold tinySeries at 1. rewrite buildFlightCurve_eq. fold tinySeries.
  assert (Hsweep : sweep tinySeries 4 (usable 20 80) 40 =
                   [mkCurve 8.4e-6 (minutesAt c0 4 (usable 20 80)) true]).
  { unfold sweep. rewrite tiny_minLift, tiny_startLift, tiny_endLift.
    rewrite <- cons_seq, fold_left_cons.
    rewrite sweep_skip.
    - rewrite sweepStep_eq, tiny_sweptLift, H0, app_nil_l.
      replace (INR 0) with 0%R by reflexivity.
      f_equal. f_equal.
      + cbn [mul]. f_equal. lra.
      + cbn [sub add neg lt]. apply Rltb_true. lra.
    - intros i Hi. apply in_seq in Hi. rewrite tiny_sweptLift.
      exists exceeds_max. apply tiny_later_samples. lia. }
  rewrite Hsweep, tiny_minLift. unfold addBoundary.
  replace (Fin 3e-6 >? 0) with true by (symmetry; unfold gt; cbn [lt]; apply Rltb_true; lra).
  rewrite H1. cbv zeta. cbn [existsb w orb mul sub add neg Math_abs lt].
  rewrite Rabs_left by lra. rewrite Rltb_false by lra. cbn [orb app].
  cbn [sort fold_right insert w sub add neg]. unfold gt. cbn [lt].
  rewrite Rltb_false by lra.
  replace (3e-6 * 4)%R with 1.2e-5%R by lra. reflexivity.
Qed.

(** C2, as stated, fails where a sample falls next to the boundary: for the
    thrusts 3e-6 and 6e-6 and four motors the curve has two points whose lift
    per motor is within 1e-6 of the minimum thrust, the first sample (lift
    2.1e-6, kept apart from the boundary by its weight, 3.6e-6 away) and the
    boundary point itself. *)
Lemma two_points_at_boundary_counterexample :
  ~ (forall (series : list point) (motorCount capacityAh usablePct : num) (points : nat),
        series <> [] ->
        (Math_min (map y series) >? 0) = true ->
        let curve := buildFlightCurve series motorCount capacityAh usablePct points in
        length (filter (atBoundary motorCount (Math_min (map y series))) curve) = 1%nat /\
        (forall k ks e es,
            known (splitCurve curve) = k :: ks ->
            estimated (splitCurve curve) = e :: es ->
            (Math_abs ((last (e :: es) e).(w) - k.(w)) <=? 1e-6) = true)).
Proof.
  intros H.
  assert (Hmin : Math_min (map y tinySeries) = Fin 3e-6).
  { unfold tinySeries, tinyLow, tinyHigh. js_eval. reflexivity. }
  assert (Hpos : (Math_min (map y tinySeries) >? 0) = true).
  { rewrite Hmin. unfold gt. cbn [lt]. apply Rltb_true. lra. }
  assert (Hne : tinySeries <> []) by discriminate.
  pose proof (H tinySeries 4 20 80 40%nat Hne Hpos) as Hclaim.
  destruct tiny_curve as [t0 [t1 E]].
  cbv zeta in Hclaim. rewrite E, Hmin in Hclaim.
  destruct Hclaim as [Hone _]. revert Hone.
  unfold atBoundary. cbn [filter w]. rewrite !div_Fin by lra.
  cbn [sub add neg Math_abs le].
  rewrite (Rabs_left (8.4e-6 / 4 + - (3e-6))) by lra.
  rewrite (Rabs_right (1.2e-5 / 4 + - (3e-6))) by lra.
  rewrite !Rleb_true by lra.
  cbn [length]. discriminate.
Qed.

(** ** The outcomes of an interpolation *)

Lemma segmentLoop_Err (pts : list point) (lift : num) (r : reason) :
  segmentLoop pts lift = Err r -> r = segment_not_found.
Proof.
  induction pts as [| a l IH]; [cbn [segmentLoop]; congruence |].
  destruct l as [| b rest]; [cbn [segmentLoop]; congruence |].
  cbn [segmentLoop]. destruct ((lift >=? a.(y)) && (lift <=? b.(y))).
  - unfold segment. discriminate.
  - exact IH.
Qed.

Lemma segmentLoop_Ok_flag (pts : list point) (lift c th : num) (n : bool) :
  segmentLoop pts lift = Ok c th n -> n = false.
Proof.
  intros H. destruct (segmentLoop_inv _ _ _ _ _ H) as [a [b [_ [_ [_ Hseg]]]]].
  unfold segment in Hseg. congruence.
Qed.

Lemma le_antisym (a b : num) : (a <=? b) = true -> (b <=? a) = true -> a = b.
Proof.
  destruct a, b; cbn; try discriminate; try reflexivity.
  intros H1 H2. destruct (Rleb_spec r r0), (Rleb_spec r0 r); try discriminate.
  f_equal. lra.
Qed.

Lemma le_refl_Fin (a : num) : Number_isFinite a = true -> (a <=? a) = true.
Proof. destruct a; cbn; try discriminate. intros _. apply Rleb_true. lra. Qed.

Lemma trichotomy_eq (a b : num) :
  notNaN a = true -> notNaN b = true ->
  (a <? b) = false -> (a >? b) = false -> a = b.
Proof.
  intros Ha Hb H1 H2. apply le_antisym.
  - apply not_gt_le; assumption.
  - apply (not_lt_ge a b); assumption.
Qed.

Lemma sorted_head_le {A : Type} (key : A -> num) (h : A) (l : list A) (a : A) :
  StronglySorted (key_le key) (h :: l) -> finiteKey key h ->
  In a (h :: l) -> key_le key h a.
Proof.
  intros Hs Hh [<- | Hin].
  - apply le_refl_Fin, Hh.
  - inversion Hs as [| ? ? _ Hall]; subst. rewrite Forall_forall in Hall. apply Hall, Hin.
Qed.

Lemma sorted_last_ge {A : Type} (key : A -> num) (l : list A) (a d : A) :
  StronglySorted (key_le key) l -> Forall (finiteKey key) l ->
  In a l -> key_le key a (last l d).
Proof.
  induction l as [| h t IH]; intros Hs Hf Hin; [destruct Hin |].
  inversion Hs as [| ? ? Hst Hall]; subst.
  inversion Hf as [| ? ? Hh Hft]; subst.
  destruct t as [| h' t'].
  - destruct Hin as [<- | []]. apply le_refl_Fin, Hh.
  - change (last (h :: h' :: t') d) with (last (h' :: t') d).
    destruct Hin as [<- | Hin].
    + rewrite Forall_forall in Hall. apply Hall, last_In. discriminate.
    + apply IH; assumption.
Qed.

Lemma Math_max_finite_strong (l : list num) :
  Forall (fun e => Number_isFinite e = true) l -> l <> [] ->
  exists m : R, Math_max l = Fin m /\ In (Fin m) l /\
                Forall (fun e => (e <=? Fin m) = true) l.
Proof.
  induction 1 as [| e l He Hl IH]; [congruence |]. intros _.
  destruct (isFinite_Fin e He) as [r ->].
  destruct l as [| e' l'].
  - exists r. split; [reflexivity |]. split; [left; reflexivity |].
    constructor; [| constructor]. cbn. apply Rleb_true. lra.
  - destruct IH as [m [Hm [Hin Hall]]]; [discriminate |].
    change (Math_max (Fin r :: e' :: l')) with (max2 (Fin r) (Math_max (e' :: l'))).
    rewrite Hm, max2_Fin. exists (Rmax r m). split; [reflexivity |]. split.
    + unfold Rmax. destruct (Rle_dec r m); [right; exact Hin | left; reflexivity].
    + constructor.
      * cbn. apply Rleb_true, Rmax_l.
      * eapply Forall_impl; [| exact Hall]. intros a Ha.
        apply (key_le_trans (fun v : num => v) a (Fin m) (Fin (Rmax r m))); [exact Ha |].
        unfold key_le. cbn. apply Rleb_true, Rmax_r.
Qed.

(** For finite thrusts the first and the last point of the sorted series
    carry the minimum and the maximum thrust. *)
Lemma byThrust_head_min (series : list point) (min : point) (rest : list point) :
  Forall (fun p => Number_isFinite p.(y) = true) series ->
  byThrust series = min :: rest ->
  min.(y) = Math_min (map y series).
Proof.
  intros Hy E.
  destruct (Math_min_finite (map y series) (map_y_finite series Hy)) as [m [Hm [Hin Hall]]].
  { intros Hnil. apply map_eq_nil in Hnil. subst series. discriminate. }
  rewrite Hm. rewrite Forall_forall in Hall.
  pose proof (sort_sorted y series Hy) as Hs. rewrite E in Hs.
  assert (Hmin : finiteKey y min).
  { rewrite Forall_forall in Hy. apply Hy, (byThrust_head_In series min rest E). }
  apply le_antisym.
  - apply in_map_iff in Hin. destruct Hin as [p [Hp Hin]]. rewrite <- Hp.
    apply (sorted_head_le y min rest p Hs Hmin).
    rewrite <- E. apply sort_In. exact Hin.
  - apply Hall, in_map, (byThrust_head_In series min rest E).
Qed.

Lemma byThrust_last_max (series : list point) (min : point) (rest : list point) :
  Forall (fun p => Number_isFinite p.(y) = true) series ->
  byThrust series = min :: rest ->
  (last (min :: rest) min).(y) = Math_max (map y series).
Proof.
  intros Hy E.
  destruct (Math_max_finite_strong (map y series) (map_y_finite series Hy))
    as [m [Hm [Hin Hall]]].
  { intros Hnil. apply map_eq_nil in Hnil. subst series. discriminate. }
  rewrite Hm. rewrite Forall_forall in Hall.
  pose proof (sort_sorted y series Hy) as Hs. rewrite E in Hs.
  assert (Hf : Forall (finiteKey y) (min :: rest)).
  { rewrite <- E. apply sort_Forall. exact Hy. }
  apply le_antisym.
  - apply Hall, in_map, (byThrust_last_In series min rest E).
  - apply in_map_iff in Hin. destruct Hin as [p [Hp Hin]]. rewrite <- Hp.
    apply (sorted_last_ge y (min :: rest) p min Hs Hf).
    rewrite <- E. apply sort_In. exact Hin.
Qed.

(** X1. The answer is [Err no_data] exactly when the series is empty,
    whatever the target. *)
Theorem no_data_iff_empty :
  forall (series : list point) (lift : num),
    interpolateCurrentForLift series lift = Err no_data <-> series = [].
Proof.
  intros series lift. split.
  - intros H. destruct series as [| p series]; [reflexivity |]. exfalso.
    destruct (byThrust_nonempty (p :: series)) as [min [rest E]]; [discriminate |].
    destruct (lift <? min.(y)) eqn:Hlo.
    + pose proof (interpolate_below _ lift min rest E Hlo) as Hx.
      destruct (extrapolation_estimated _ _ _ Hx) as [c [th Hok]]. congruence.
    + destruct (lift >? (last (min :: rest) min).(y)) eqn:Hhi.
      * revert H. unfold interpolateCurrentForLift. rewrite E. cbv zeta.
        rewrite Hlo, Hhi. discriminate.
      * rewrite (interpolate_in_range _ lift min rest E Hlo Hhi) in H.
        apply segmentLoop_Err in H. discriminate.
  - intros ->. reflexivity.
Qed.

(** X2. On a non-empty series with finite thrusts the answer is
    [Err exceeds_max] exactly when the target is above the largest thrust. *)
Theorem exceeds_max_iff_above :
  forall (series : list point) (lift : num),
    series <> [] ->
    Forall (fun p => Number_isFinite p.(y) = true) series ->
    (interpolateCurrentForLift series lift = Err exceeds_max <->
     (lift >? Math_max (map y series)) = true).
Proof.
  intros series lift Hne Hy.
  destruct (byThrust_nonempty series Hne) as [min [rest E]].
  rewrite <- (byThrust_last_max series min rest Hy E).
  split.
  - intros H. destruct (lift <? min.(y)) eqn:Hlo.
    + pose proof (interpolate_below _ lift min rest E Hlo) as Hx.
      destruct (extrapolation_estimated _ _ _ Hx) as [c [th Hok]]. congruence.
    + destruct (lift >? (last (min :: rest) min).(y)) eqn:Hhi; [reflexivity |].
      rewrite (interpolate_in_range _ lift min rest E Hlo Hhi) in H.
      apply segmentLoop_Err in H. discriminate.
  - intros Hhi. apply (interpolate_above series lift min rest E); [| exact Hhi].
    assert (Hle : (min.(y) <=? (last (min :: rest) min).(y)) = true).
    { pose proof (sort_sorted y series Hy) as Hs. rewrite E in Hs.
      apply (sorted_last_ge y (min :: rest) min min Hs).
      - rewrite <- E. apply sort_Forall. exact Hy.
      - left. reflexivity. }
    unfold gt in *. revert Hle Hhi.
    destruct (y min), (y (last (min :: rest) min)), lift; cbn; try discriminate;
      try reflexivity.
    intros H1 H2. destruct (Rleb_spec r r0), (Rltb_spec r0 r1); try discriminate.
    apply Rltb_true. lra.
Qed.

Lemma exceeds_max_iff_above_witness :
  interpolateCurrentForLift [mkPoint 10 2 None; mkPoint 5 1 None] PInf = Err exceeds_max.
Proof.
  apply (exceeds_max_iff_above [mkPoint 10 2 None; mkPoint 5 1 None] PInf).
  - discriminate.
  - repeat constructor.
  - js_eval. reflexivity.
Defined.

(** X3. On a non-empty series with finite thrusts the answer is an estimate
    ([Ok] with [noteLow = true]) exactly when the target is below the smallest
    thrust. *)
Theorem estimate_iff_below :
  forall (series : list point) (lift : num),
    series <> [] ->
    Forall (fun p => Number_isFinite p.(y) = true) series ->
    ((exists c th, interpolateCurrentForLift series lift = Ok c th true) <->
     (lift <? Math_min (map y series)) = true).
Proof.
  intros series lift Hne Hy.
  destruct (byThrust_nonempty series Hne) as [min [rest E]].
  rewrite <- (byThrust_head_min series min rest Hy E).
  split.
  - intros [c [th H]]. destruct (lift <? min.(y)) eqn:Hlo; [reflexivity |].
    destruct (lift >? (last (min :: rest) min).(y)) eqn:Hhi.
    + revert H. unfold interpolateCurrentForLift. rewrite E. cbv zeta.
      rewrite Hlo, Hhi. discriminate.
    + rewrite (interpolate_in_range _ lift min rest E Hlo Hhi) in H.
      apply segmentLoop_Ok_flag in H. discriminate.
  - intros Hlo. pose proof (interpolate_below _ lift min rest E Hlo) as Hx.
    apply (extrapolation_estimated _ _ _ Hx).
Qed.

Lemma estimate_iff_below_witness :
  (Fin 2.5 <? Math_min (map y [mkPoint 10 2 None; mkPoint 5 1 None])) = false.
Proof.
  destruct (Fin 2.5 <? Math_min (map y [mkPoint 10 2 None; mkPoint 5 1 None])) eqn:H;
    [| reflexivity].
  apply (estimate_iff_below [mkPoint 10 2 None; mkPoint 5 1 None] 2.5) in H.
  - destruct H as [c [th H]]. revert H. unfold interpolateCurrentForLift. js_eval.
    discriminate.
  - discriminate.
  - repeat constructor.
Defined.

(** X4. On a series with finite thrusts and for a target that is a number, the
    answer is [Err segment_not_found] exactly when the series has a single
    point and the target is the thrust of that point. *)
Theorem segment_not_found_iff_single :
  forall (series : list point) (lift : num),
    Forall (fun p => Number_isFinite p.(y) = true) series ->
    notNaN lift = true ->
    (interpolateCurrentForLift series lift = Err segment_not_found <->
     exists p, series = [p] /\ lift = p.(y)).
Proof.
  intros series lift Hy Hl. split.
  - intros H. destruct series as [| p series]; [discriminate |].
    destruct (byThrust_nonempty (p :: series)) as [min [rest E]]; [discriminate |].
    destruct (lift <? min.(y)) eqn:Hlo.
    { pose proof (interpolate_below _ lift min rest E Hlo) as Hx.
      destruct (extrapolation_estimated _ _ _ Hx) as [c [th Hok]]. congruence. }
    destruct (lift >? (last (min :: rest) min).(y)) eqn:Hhi.
    { revert H. unfold interpolateCurrentForLift. rewrite E. cbv zeta.
      rewrite Hlo, Hhi. discriminate. }
    destruct series as [| q series].
    + exists p. split; [reflexivity |].
      cbn in E. injection E as <- <-. cbn [last] in Hhi.
      inversion Hy; subst.
      apply trichotomy_eq; [exact Hl | apply isFinite_notNaN; assumption | exact Hlo | exact Hhi].
    + exfalso.
      destruct (interpolate_in_range_ok (p :: q :: series) lift min rest) as [c [th Hok]];
        try assumption.
      * eapply Forall_impl; [| exact Hy]. intros a. apply isFinite_notNaN.
      * simpl. lia.
      * congruence.
  - intros [p [-> ->]]. inversion Hy as [| ? ? Hp _]; subst.
    destruct (isFinite_Fin _ Hp) as [r Hr].
    unfold interpolateCurrentForLift. cbn [sort fold_right insert last].
    rewrite Hr. cbn [lt]. unfold gt. cbn [lt].
    rewrite !Rltb_false by lra. reflexivity.
Qed.

Lemma segment_not_found_iff_single_witness :
  interpolateCurrentForLift [mkPoint 7 1.5 (Some (Fin 40))] 1.5 = Err segment_not_found.
Proof.
  apply (segment_not_found_iff_single [mkPoint 7 1.5 (Some (Fin 40))] 1.5).
  - repeat constructor.
  - reflexivity.
  - exists (mkPoint 7 1.5 (Some (Fin 40))). split; reflexivity.
Defined.

(** ** Order of the rows and measured points *)

Lemma NoDup_map_In_eq {A B : Type} (f : A -> B) (l : list A) (a b : A) :
  NoDup (map f l) -> In a l -> In b l -> f a = f b -> a = b.
Proof.
  induction l as [| h t IH]; intros Hnd Ha Hb Hf; [destruct Ha |].
  cbn [map] in Hnd. inversion Hnd as [| ? ? Hnotin Hnd']; subst.
  destruct Ha as [-> | Ha], Hb as [-> | Hb].
  - reflexivity.
  - exfalso. apply Hnotin. rewrite Hf. apply in_map, Hb.
  - exfalso. apply Hnotin. rewrite <- Hf. apply in_map, Ha.
  - apply IH; assumption.
Qed.

(** Two sorted arrangements of the same elements with pairwise distinct keys
    are the same list. *)
Lemma sorted_perm_unique {A : Type} (key : A -> num) (l1 l2 : list A) :
  StronglySorted (key_le key) l1 -> StronglySorted (key_le key) l2 ->
  Permutation l1 l2 -> NoDup (map key l1) -> l1 = l2.
Proof.
  revert l2. induction l1 as [| a t1 IH]; intros l2 Hs1 Hs2 Hp Hnd.
  - apply Permutation_nil in Hp. congruence.
  - destruct l2 as [| b t2].
    { apply Permutation_sym, Permutation_nil in Hp. discriminate. }
    assert (Hab : a = b).
    { assert (Ha2 : In a (b :: t2)) by (apply (Permutation_in a Hp); left; reflexivity).
      assert (Hb1 : In b (a :: t1))
        by (apply (Permutation_in b (Permutation_sym Hp)); left; reflexivity).
      destruct Ha2 as [-> | Ha2]; [reflexivity |].
      destruct Hb1 as [-> | Hb1]; [reflexivity |].
      inversion Hs1 as [| ? ? _ Hall1]; subst. inversion Hs2 as [| ? ? _ Hall2]; subst.
      rewrite Forall_forall in Hall1, Hall2.
      apply (NoDup_map_In_eq key (a :: t1) a b Hnd);
        [left; reflexivity | right; exact Hb1 |].
      apply le_antisym; [apply Hall1, Hb1 | apply Hall2, Ha2]. }
    subst b. f_equal.
    inversion Hs1; subst. inversion Hs2; subst. cbn [map] in Hnd. inversion Hnd; subst.
    apply IH; try assumption. apply (Permutation_cons_inv Hp).
Qed.

(** X5. When the thrusts of a series are finite and pairwise distinct, the
    answer does not depend on the order of its points: a permutation of the
    series gives the same result for every target. *)
Theorem interpolation_order_independent :
  forall (series series' : list point) (lift : num),
    Forall (fun p => Number_isFinite p.(y) = true) series ->
    NoDup (map y series) ->
    Permutation series series' ->
    interpolateCurrentForLift series lift = interpolateCurrentForLift series' lift.
Proof.
  intros series series' lift Hy Hnd Hp.
  assert (E : byThrust series = byThrust series').
  { apply (sorted_perm_unique y).
    - apply sort_sorted. exact Hy.
    - apply sort_sorted. apply (Permutation_Forall Hp). exact Hy.
    - eapply perm_trans; [apply sort_perm |].
      eapply perm_trans; [exact Hp | apply Permutation_sym, sort_perm].
    - apply (Permutation_NoDup (l := map y series)); [| exact Hnd].
      apply Permutation_map, Permutation_sym, sort_perm. }
  unfold interpolateCurrentForLift. rewrite E. reflexivity.
Qed.

Lemma interpolation_order_independent_witness :
  interpolateCurrentForLift [mkPoint 5 1 None; mkPoint 10 2 None] 1.5 =
  interpolateCurrentForLift [mkPoint 10 2 None; mkPoint 5 1 None] 1.5.
Proof.
  apply interpolation_order_independent.
  - repeat constructor.
  - cbn [map y]. constructor; [| constructor; [intros [] | constructor]].
    intros [H | []]. injection H as H. lra.
  - apply perm_swap.
Defined.

(** With pairwise distinct keys the order of a sorted list is strict. *)
Lemma strictly_sorted {A : Type} (key : A -> num) (l : list A) :
  StronglySorted (key_le key) l -> NoDup (map key l) ->
  StronglySorted (fun a b => (key a <? key b) = true) l.
Proof.
  induction 1 as [| a l Hs IH Hall]; intros Hnd; [constructor |].
  cbn [map] in Hnd. inversion Hnd as [| ? ? Hnotin Hnd']; subst.
  constructor; [apply IH, Hnd' |].
  apply Forall_forall. intros b Hb. rewrite Forall_forall in Hall.
  pose proof (Hall b Hb) as Hle. unfold key_le in Hle.
  assert (Hneq : key a <> key b).
  { intros Heq. apply Hnotin. rewrite Heq. apply in_map, Hb. }
  revert Hle Hneq. destruct (key a), (key b); cbn; try discriminate; try congruence.
  intros H1 H2. destruct (Rleb_spec r r0); [| discriminate].
  apply Rltb_true. destruct (Req_dec_T r r0); [subst; congruence | lra].
Qed.

Lemma segment_at_left (a b : point) :
  finitePoint a -> finitePoint b -> finiteThrottle a -> finiteThrottle b ->
  (a.(y) <? b.(y)) = true ->
  segment a b a.(y) = Ok a.(x) (a.(throttle) ?? 0) false.
Proof.
  intros [Hax Hay] [Hbx Hby] Hta Htb.
  destruct (isFinite_Fin _ Hax) as [u1 Eu1]. destruct (isFinite_Fin _ Hay) as [v1 Ev1].
  destruct (isFinite_Fin _ Hbx) as [u2 Eu2]. destruct (isFinite_Fin _ Hby) as [v2 Ev2].
  destruct (finiteThrottle_nullish a Hta) as [w1 Ew1].
  destruct (finiteThrottle_nullish b Htb) as [w2 Ew2].
  unfold segment. rewrite Eu1, Ev1, Eu2, Ev2, Ew1, Ew2. cbn [lt sub add neg].
  intros Hlt. destruct (Rltb_spec v1 v2) as [Hv |]; [| discriminate].
  rewrite or_else_nonzero by lra. rewrite div_Fin by lra. cbn [mul add].
  replace (v1 + - v1)%R with 0%R by lra. unfold Rdiv. rewrite Rmult_0_l.
  f_equal; f_equal; lra.
Qed.

(** At the thrust of its upper end the loop body computes the fraction 1. *)
Lemma segment_at_right (a b : point) :
  finitePoint a -> finitePoint b -> finiteThrottle a -> finiteThrottle b ->
  (a.(y) <? b.(y)) = true ->
  segment a b b.(y) =
  Ok (a.(x) + 1 * (b.(x) - a.(x)))
     ((a.(throttle) ?? 0) + 1 * ((b.(throttle) ?? 0) - (a.(throttle) ?? 0))) false.
Proof.
  intros [Hax Hay] [Hbx Hby] Hta Htb.
  destruct (isFinite_Fin _ Hax) as [u1 Eu1]. destruct (isFinite_Fin _ Hay) as [v1 Ev1].
  destruct (isFinite_Fin _ Hbx) as [u2 Eu2]. destruct (isFinite_Fin _ Hby) as [v2 Ev2].
  destruct (finiteThrottle_nullish a Hta) as [w1 Ew1].
  destruct (finiteThrottle_nullish b Htb) as [w2 Ew2].
  unfold segment. rewrite Eu1, Ev1, Eu2, Ev2, Ew1, Ew2. cbn [lt sub add neg].
  intros Hlt. destruct (Rltb_spec v1 v2) as [Hv |]; [| discriminate].
  rewrite or_else_nonzero by lra. rewrite div_Fin by lra.
  replace ((v2 + - v1) / (v2 + - v1))%R with 1%R by (field; lra).
  reflexivity.
Qed.

Lemma lt_le (a b : num) : (a <? b) = true -> (a <=? b) = true.
Proof. num_crush. Qed.

Lemma lt_not_ge (a b : num) : (a <? b) = true -> (b <=? a) = false.
Proof. num_crush. Qed.

(** In a strictly sorted list of two or more points, the loop at the thrust
    of a point stops on the first pair that contains the point: the point is
    the lower end of the pair when it is the first of the list, and the
    upper end otherwise. *)
Lemma segmentLoop_at_point (pts : list point) (p : point) :
  StronglySorted (fun a b => (a.(y) <? b.(y)) = true) pts ->
  Forall (fun q => finitePoint q /\ finiteThrottle q) pts ->
  (2 <= length pts)%nat ->
  In p pts ->
  (exists rest,
      pts = p :: rest /\
      segmentLoop pts p.(y) = Ok p.(x) (p.(throttle) ?? 0) false) \/
  (exists pre a post,
      pts = pre ++ a :: p :: post /\
      segmentLoop pts p.(y) =
      Ok (a.(x) + 1 * (p.(x) - a.(x)))
         ((a.(throttle) ?? 0) + 1 * ((p.(throttle) ?? 0) - (a.(throttle) ?? 0))) false).
Proof.
  induction pts as [| a l IH]; intros Hs Hf Hlen Hin; [destruct Hin |].
  destruct l as [| b rest]; [simpl in Hlen; lia |].
  inversion Hs as [| ? ? Hs' Hall]; subst.
  inversion Hf as [| ? ? [Hfa Hta] Hf']; subst.
  inversion Hf' as [| ? ? [Hfb Htb] _]; subst.
  assert (Hab : (a.(y) <? b.(y)) = true) by (inversion Hall; assumption).
  cbn [segmentLoop]. unfold ge.
  destruct Hin as [<- | [<- | Hin]].
  - left. exists (b :: rest). split; [reflexivity |].
    rewrite (le_refl_Fin _ (proj2 Hfa)), (lt_le _ _ Hab). cbn [andb].
    apply segment_at_left; assumption.
  - right. exists [], a, rest. split; [reflexivity |].
    rewrite (lt_le _ _ Hab), (le_refl_Fin _ (proj2 Hfb)). cbn [andb].
    apply segment_at_right; assumption.
  - assert (Hbp : (b.(y) <? p.(y)) = true).
    { inversion Hs' as [| ? ? _ Hallb]; subst.
      rewrite Forall_forall in Hallb. apply Hallb, Hin. }
    rewrite (lt_not_ge _ _ Hbp). rewrite andb_false_r.
    destruct IH as [[rest' [E _]] | [pre [a' [post [E Hloop]]]]];
      [exact Hs' | exact Hf' | | right; exact Hin | |].
    + destruct rest; [destruct Hin | simpl; lia].
    + injection E as <- _. rewrite lt_irrefl in Hbp. discriminate.
    + right. exists (a :: pre), a', post. split; [rewrite E; reflexivity | exact Hloop].
Qed.

(** Around two neighbours of a strictly sorted list: no key lies strictly
    between theirs. *)
Lemma sorted_neighbours {A : Type} (key : A -> num) (pre post : list A) (a p : A) :
  StronglySorted (fun u v => (key u <? key v) = true) (pre ++ a :: p :: post) ->
  finiteKey key a -> finiteKey key p ->
  (key a <? key p) = true /\
  Forall (fun q => (key q <=? key a) = true \/ (key p <=? key q) = true)
    (pre ++ a :: p :: post).
Proof.
  intros Hs Ha Hp. induction pre as [| h pre IH]; cbn [app] in Hs |- *.
  - inversion Hs as [| ? ? Hs' Hall]; subst.
    inversion Hall as [| ? ? Hap Hpost]; subst.
    inversion Hs' as [| ? ? _ Hallp]; subst.
    split; [exact Hap |].
    constructor; [left; apply le_refl_Fin, Ha |].
    constructor; [right; apply le_refl_Fin, Hp |].
    eapply Forall_impl; [| exact Hallp]. intros q Hq. right. apply lt_le, Hq.
  - inversion Hs as [| ? ? Hs' Hall]; subst.
    destruct (IH Hs') as [Hap Hrest]. split; [exact Hap |].
    constructor; [| exact Hrest].
    left. apply lt_le. rewrite Forall_forall in Hall. apply Hall.
    apply in_or_app. right. left. reflexivity.
Qed.

(** X6. On a series of two or more points whose coordinates are finite, whose
    throttles are absent or finite and whose thrusts are pairwise distinct,
    the interpolation at the thrust of a measured point [p] is a measured
    answer computed at an end of a segment.  For the point of lowest thrust
    the fraction is 0 and the answer is the current and the throttle of the
    point (0 when absent).  For any other point the segment is the one that
    ends at [p], from the point [a] next below it in thrust, and the
    fraction is 1: the current is [a.x + 1 * (p.x - a.x)], which is [p.x]
    up to the rounding of the subtraction and of the sum. *)
Theorem measured_points_reproduced :
  forall (series : list point) (p : point),
    Forall (fun q => finitePoint q /\ finiteThrottle q) series ->
    NoDup (map y series) ->
    (2 <= length series)%nat ->
    In p series ->
    (p.(y) = Math_min (map y series) /\
     interpolateCurrentForLift series p.(y) = Ok p.(x) (p.(throttle) ?? 0) false) \/
    (exists a,
        In a series /\ (a.(y) <? p.(y)) = true /\
        Forall (fun q => (q.(y) <=? a.(y)) = true \/ (p.(y) <=? q.(y)) = true) series /\
        interpolateCurrentForLift series p.(y) =
        Ok (a.(x) + 1 * (p.(x) - a.(x)))
           ((a.(throttle) ?? 0) + 1 * ((p.(throttle) ?? 0) - (a.(throttle) ?? 0))) false).
Proof.
  intros series p Hf Hnd Hlen Hin.
  assert (Hy : Forall (fun q => Number_isFinite q.(y) = true) series).
  { eapply Forall_impl; [| exact Hf]. intros q [[_ Hq] _]. exact Hq. }
  destruct (byThrust_nonempty series) as [min [rest E]].
  { destruct series; [destruct Hin | discriminate]. }
  pose proof (sort_sorted y series Hy) as Hs.
  assert (Hfs : Forall (finiteKey y) (byThrust series)) by (apply sort_Forall; exact Hy).
  assert (Hinp : In p (byThrust series)) by (apply sort_In; exact Hin).
  assert (Hstrict : StronglySorted (fun a b => (a.(y) <? b.(y)) = true) (byThrust series)).
  { apply strictly_sorted; [exact Hs |].
    apply (Permutation_NoDup (l := map y series)); [| exact Hnd].
    apply Permutation_map, Permutation_sym, sort_perm. }
  assert (Hrange : interpolateCurrentForLift series p.(y)
                   = segmentLoop (byThrust series) p.(y)).
  { apply (interpolate_in_range series p.(y) min rest E).
    - apply le_lt_false. rewrite E in Hs, Hinp, Hfs.
      apply (sorted_head_le y min rest p Hs); [inversion Hfs; assumption | exact Hinp].
    - unfold gt. apply le_lt_false. rewrite E in Hs, Hinp, Hfs.
      apply (sorted_last_ge y (min :: rest) p min Hs Hfs Hinp). }
  rewrite Hrange.
  destruct (segmentLoop_at_point (byThrust series) p Hstrict)
    as [[rest' [E' Hloop]] | [pre [a [post [E' Hloop]]]]].
  - apply sort_Forall. exact Hf.
  - rewrite sort_length. exact Hlen.
  - exact Hinp.
  - left. split; [| exact Hloop].
    apply (byThrust_head_min series p rest' Hy E').
  - right. exists a.
    assert (Ha : In a (byThrust series)).
    { rewrite E'. apply in_or_app. right. left. reflexivity. }
    rewrite Forall_forall in Hfs.
    rewrite E' in Hstrict.
    destruct (sorted_neighbours y pre post a p Hstrict (Hfs a Ha) (Hfs p Hinp))
      as [Hap Hall].
    split; [apply sort_In in Ha; exact Ha |]. split; [exact Hap |]. split; [| exact Hloop].
    rewrite <- E' in Hall.
    apply (Permutation_Forall (sort_perm (fun u v => u.(y) - v.(y)) series)). exact Hall.
Qed.

(** A three-point series queried at the thrust of its middle point: the
    answer comes from the segment ending there, at fraction 1. *)
Lemma measured_points_reproduced_witness :
  interpolateCurrentForLift
    [mkPoint 5 1 (Some (Fin 30)); mkPoint 10 2 None; mkPoint 18 3 (Some (Fin 70))] 2
  = Ok (5 + 1 * (10 - 5)) (30 + 1 * (0 - 30)) false.
Proof.
  assert (Hf : Forall (fun q => finitePoint q /\ finiteThrottle q)
                 [mkPoint 5 1 (Some (Fin 30)); mkPoint 10 2 None;
                  mkPoint 18 3 (Some (Fin 70))])
    by (repeat constructor).
  assert (Hnd : NoDup (map y [mkPoint 5 1 (Some (Fin 30)); mkPoint 10 2 None;
                              mkPoint 18 3 (Some (Fin 70))])).
  { cbn [map y].
    repeat (constructor; [cbn [In]; intros H; repeat (destruct H as [H | H];
              [injection H as H; lra |]); exact H |]).
    constructor. }
  destruct (measured_points_reproduced
              [mkPoint 5 1 (Some (Fin 30)); mkPoint 10 2 None; mkPoint 18 3 (Some (Fin 70))]
              (mkPoint 10 2 None) Hf Hnd)
    as [[Hmin _] | [a [Ha [Hlt [_ Hres]]]]].
  - simpl. lia.
  - right. left. reflexivity.
  - exfalso. revert Hmin. js_eval. intros H. injection H as H. lra.
  - cbn [y] in Hlt, Hres.
    destruct Ha as [<- | [<- | [<- | []]]]; cbn [x y throttle nullish] in Hlt, Hres.
    + exact Hres.
    + cbn [lt] in Hlt. rewrite Rltb_false in Hlt by lra. discriminate.
    + cbn [lt] in Hlt. rewrite Rltb_false in Hlt by lra. discriminate.
Defined.

(** ** The fraction of the interpolation *)

(** The fraction [t] of the loop body lies in [[0, 1]] on a bracketing pair. *)
Lemma segment_fraction (ya yb l : R) :
  (ya <= l <= yb)%R ->
  exists tt : R,
    (Fin l - Fin ya) / ((Fin yb - Fin ya) || 1) = Fin tt /\ (0 <= tt <= 1)%R.
Proof.
  intros [Hlo Hhi]. cbn [sub add neg]. rewrite or_else_Fin.
  destruct (Reqb_spec (yb + - ya) 0) as [Heq | Hne].
  - rewrite div_Fin by lra. exists ((l + - ya) / 1)%R.
    split; [reflexivity |]. replace (l + - ya)%R with 0%R by lra. lra.
  - rewrite div_Fin by exact Hne. exists ((l + - ya) / (yb + - ya))%R.
    split; [reflexivity |].
    assert (Hpos : (0 < yb + - ya)%R) by lra.
    split.
    + apply Rmult_le_pos; [lra |]. left. apply Rinv_0_lt_compat. exact Hpos.
    + apply Rmult_le_reg_r with (r := (yb + - ya)%R); [exact Hpos |].
      unfold Rdiv. rewrite Rmult_assoc, Rinv_l by exact Hne. lra.
Qed.

Lemma brackets_Fin (lift : num) (ya yb : R) :
  (lift >=? Fin ya) && (lift <=? Fin yb) = true ->
  exists l : R, lift = Fin l /\ (ya <= l <= yb)%R.
Proof.
  intros H. apply andb_true_iff in H. destruct H as [Hlo Hhi]. unfold ge in Hlo.
  destruct lift as [| | | l]; cbn in Hlo, Hhi; try discriminate.
  exists l. split; [reflexivity |].
  destruct (Rleb_spec ya l), (Rleb_spec l yb); try discriminate. lra.
Qed.

(** X7. On a series with finite thrusts, a measured answer ([Ok] with
    [noteLow = false]) is the linear interpolation between two points [a] and
    [b] of the series whose thrusts bracket the target, at a fraction [t] that
    lies between 0 and 1: the in-range answer never extrapolates beyond a
    segment. *)
Theorem interpolated_between_bracketing_points :
  forall (series : list point) (lift c th : num),
    Forall (fun p => Number_isFinite p.(y) = true) series ->
    interpolateCurrentForLift series lift = Ok c th false ->
    exists (a b : point) (t : R),
      In a series /\ In b series /\
      (a.(y) <=? lift) = true /\ (lift <=? b.(y)) = true /\
      (lift - a.(y)) / ((b.(y) - a.(y)) || 1) = Fin t /\ (0 <= t <= 1)%R /\
      c = a.(x) + Fin t * (b.(x) - a.(x)) /\
      th = (a.(throttle) ?? 0) + Fin t * ((b.(throttle) ?? 0) - (a.(throttle) ?? 0)).
Proof.
  intros series lift c th Hy Hok.
  assert (Hloop : segmentLoop (byThrust series) lift = Ok c th false).
  { destruct (byThrust series) as [| min rest] eqn:E.
    - apply sort_nil_inv in E. subst series. discriminate.
    - destruct (lift <? min.(y)) eqn:Hlo.
      + pose proof (interpolate_below _ lift min rest E Hlo) as Hx. rewrite E in Hx.
        destruct (extrapolation_estimated _ _ _ Hx) as [c' [th' Hok']]. congruence.
      + destruct (lift >? (last (min :: rest) min).(y)) eqn:Hhi.
        * revert Hok. unfold interpolateCurrentForLift. rewrite E. cbv zeta.
          rewrite Hlo, Hhi. discriminate.
        * rewrite (interpolate_in_range _ lift min rest E Hlo Hhi), E in Hok. exact Hok. }
  destruct (segmentLoop_inv _ _ _ _ _ Hloop) as [a [b [Ha [Hb [Hbr Hseg]]]]].
  apply sort_In in Ha. apply sort_In in Hb.
  rewrite Forall_forall in Hy.
  destruct (isFinite_Fin _ (Hy a Ha)) as [v1 Ev1].
  destruct (isFinite_Fin _ (Hy b Hb)) as [v2 Ev2].
  unfold brackets in Hbr. cbn [fst snd] in Hbr. rewrite Ev1, Ev2 in Hbr.
  destruct (brackets_Fin lift v1 v2 Hbr) as [l [-> Hl]].
  destruct (segment_fraction v1 v2 l Hl) as [tt [Ht Ht01]].
  unfold segment in Hseg. rewrite Ev1, Ev2, Ht in Hseg.
  injection Hseg as <- <-.
  exists a, b, tt. rewrite Ev1, Ev2.
  repeat split; try assumption; try tauto.
  - cbn [le]. apply Rleb_true. tauto.
  - cbn [le]. apply Rleb_true. tauto.
Qed.

(** The interpolation example of the specification: the target 1.5 is half
    way between the thrusts 1 and 2. *)
Lemma interpolated_between_bracketing_points_witness :
  exists (a b : point) (t : R),
    In a [mkPoint 5 1 None; mkPoint 10 2 None] /\
    In b [mkPoint 5 1 None; mkPoint 10 2 None] /\
    (a.(y) <=? 1.5) = true /\ (Fin 1.5 <=? b.(y)) = true /\
    (1.5 - a.(y)) / ((b.(y) - a.(y)) || 1) = Fin t /\ (0 <= t <= 1)%R /\
    Fin (5 + (1.5 + - (1)) / (2 + - (1)) * (10 + - (5))) = a.(x) + Fin t * (b.(x) - a.(x)) /\
    Fin (0 + (1.5 + - (1)) / (2 + - (1)) * (0 + - 0))
    = (a.(throttle) ?? 0) + Fin t * ((b.(throttle) ?? 0) - (a.(throttle) ?? 0)).
Proof.
  apply (interpolated_between_bracketing_points
           [mkPoint 5 1 None; mkPoint 10 2 None] 1.5).
  - repeat constructor.
  - unfold interpolateCurrentForLift. js_eval. unfold segment. js_eval. reflexivity.
Defined.

(** ** Shape of the flight curve *)

Lemma sweep_length (series : list point) (motorCount usableAh minL startP endP : num)
    (points : nat) (l : list nat) (out : list curvePoint) :
  (length
     (fold_left (sweepStep series motorCount usableAh minL startP endP points) l out)
   <= length out + length l)%nat.
Proof.
  revert out. induction l as [| i l IH]; intros out; cbn [fold_left length]; [lia |].
  eapply Nat.le_trans; [apply IH |].
  rewrite sweepStep_eq.
  destruct (interpolateCurrentForLift series (sweptLift startP endP points i)).
  - rewrite length_app. cbn [length]. lia.
  - lia.
Qed.

Lemma addBoundary_length (series : list point) (motorCount usableAh minL : num)
    (out : list curvePoint) :
  (length (addBoundary series motorCount usableAh minL out) <= length out + 1)%nat.
Proof.
  unfold addBoundary. destruct (minL >? 0); [| lia].
  destruct (interpolateCurrentForLift series minL); [| lia].
  cbv zeta. destruct (existsb _ out); [lia |].
  rewrite length_app. cbn [length]. lia.
Qed.

Lemma finiteWeight_key (p : curvePoint) : finiteWeight p -> finiteKey w p.
Proof. intros [r Hr]. unfold finiteKey. rewrite Hr. reflexivity. Qed.

Lemma buildFlightCurve_sorted (series : list point) (m : R)
    (capacityAh usablePct : num) (points : nat) :
  StronglySorted (key_le w) (buildFlightCurve series (Fin m) capacityAh usablePct points).
Proof.
  pose proof (buildFlightCurve_weights series m capacityAh usablePct points) as Hw.
  destruct series as [| q series]; [constructor |].
  rewrite buildFlightCurve_eq in Hw |- *.
  apply sort_sorted.
  eapply Forall_impl; [apply finiteWeight_key |].
  eapply Permutation_Forall; [apply sort_perm | exact Hw].
Qed.

(** X9. With a finite motor count the flight curve is sorted by weight, in
    non-decreasing order, and it has at most one point more than the number
    of samples; an empty series gives the empty curve. *)
Theorem flight_curve_sorted_and_bounded :
  forall (series : list point) (m : R) (capacityAh usablePct : num) (points : nat),
    StronglySorted (key_le w) (buildFlightCurve series (Fin m) capacityAh usablePct points) /\
    (length (buildFlightCurve series (Fin m) capacityAh usablePct points) <= points + 1)%nat /\
    buildFlightCurve [] (Fin m) capacityAh usablePct points = [].
Proof.
  intros series m capacityAh usablePct points.
  split; [apply buildFlightCurve_sorted | split; [| reflexivity]].
  destruct series as [| q series]; [cbn; lia |].
  rewrite buildFlightCurve_eq, sort_length.
  eapply Nat.le_trans; [apply addBoundary_length |].
  unfold sweep.
  pose proof (sweep_length (q :: series) (Fin m) (usable capacityAh usablePct)
                (minLift (q :: series)) (startLift (q :: series)) (endLift (q :: series))
                points (seq 0 points) []) as Hl.
  rewrite length_seq in Hl. cbn [length] in Hl. lia.
Qed.

(** Where a point of the curve stands with respect to the threshold of the
    [est] flag, [(minPerMotorLift - 1e-9) * motorCount]. *)
Lemma buildFlightCurve_point (series : list point) (m : R)
    (capacityAh usablePct : num) (points : nat) (p : curvePoint) :
  In p (buildFlightCurve series (Fin m) capacityAh usablePct points) ->
  exists lo r : R,
    minLift series = Fin lo /\ p.(w) = Fin (r * m) /\
    ((p.(est) = true /\ (r < lo - 1e-9)%R) \/ (p.(est) = false /\ (lo - 1e-9 <= r)%R)).
Proof.
  intros Hin.
  destruct series as [| q series]; [destruct Hin |].
  rewrite buildFlightCurve_eq in Hin. apply sort_In in Hin.
  destruct (minLift_Fin (q :: series)) as [lo Hlo].
  destruct (maxLift_Fin (q :: series)) as [hi Hhi].
  exists lo.
  apply addBoundary_In in Hin. destruct Hin as [Hin | [cur [th [nl [_ ->]]]]].
  - apply sweepStep_In in Hin. destruct Hin as [[] | [i [Hi [cur [th [nl [Hok ->]]]]]]].
    apply in_seq in Hi.
    unfold startLift, endLift, startLift in Hok |- *. rewrite Hlo, Hhi in Hok |- *.
    cbn [mul add] in Hok |- *. rewrite !max2_Fin in Hok |- *.
    cbn [mul add] in Hok |- *. rewrite !max2_Fin in Hok |- *.
    match type of Hok with
    | interpolateCurrentForLift _ (sweptLift (Fin ?s) (Fin ?e) _ _) = _ =>
        destruct (sweptLift_cases s e points i) as [Hnan | [r Hr]]; [lia | |]
    end.
    + rewrite Hnan in Hok. destruct (interpolate_NaN (q :: series)) as [why Herr].
      congruence.
    + exists r. split; [reflexivity |]. cbn [w est]. rewrite Hr. cbn [mul sub add neg lt].
      split; [reflexivity |].
      destruct (Rltb_spec r (lo + - (1e-9))); [left | right]; split; try reflexivity; lra.
  - exists lo. split; [exact Hlo |]. cbn [w est]. rewrite Hlo. cbn [mul].
    split; [reflexivity |]. right. split; [reflexivity | lra].
Qed.

Lemma filter_all {A : Type} (f : A -> bool) (l : list A) :
  Forall (fun a => f a = true) l -> filter f l = l.
Proof.
  induction 1 as [| a l Ha _ IH]; [reflexivity |].
  cbn [filter]. rewrite Ha, IH. reflexivity.
Qed.

Lemma filter_none {A : Type} (f : A -> bool) (l : list A) :
  Forall (fun a => f a = false) l -> filter f l = [].
Proof.
  induction 1 as [| a l Ha _ IH]; [reflexivity |].
  cbn [filter]. rewrite Ha, IH. reflexivity.
Qed.

(** A sorted list whose flagged elements all weigh strictly less than the
    others is the flagged ones followed by the others. *)
Lemma sorted_flag_split (l : list curvePoint) :
  StronglySorted (key_le w) l ->
  (forall p q, In p l -> In q l -> p.(est) = true -> q.(est) = false ->
               (q.(w) <=? p.(w)) = false) ->
  l = filter (fun d => d.(est)) l ++ filter (fun d => negb d.(est)) l.
Proof.
  induction 1 as [| a l Hs IH Hall]; intros Hsep; [reflexivity |].
  assert (Hsep' : forall p q, In p l -> In q l -> p.(est) = true -> q.(est) = false ->
                              (q.(w) <=? p.(w)) = false).
  { intros p q Hp Hq. apply Hsep; right; assumption. }
  cbn [filter]. destruct (est a) eqn:Ha; cbn [negb app].
  - f_equal. apply IH, Hsep'.
  - assert (Hnone : Forall (fun d => d.(est) = false) l).
    { apply Forall_forall. intros q Hq. destruct (est q) eqn:Hq'; [| reflexivity].
      exfalso. rewrite Forall_forall in Hall.
      pose proof (Hall q Hq) as Hle. unfold key_le in Hle.
      rewrite (Hsep q a (or_intror Hq) (or_introl eq_refl) Hq' Ha) in Hle. discriminate. }
    rewrite (filter_none (fun d => d.(est)) l Hnone). cbn [app]. f_equal.
    symmetry. apply filter_all.
    eapply Forall_impl; [| exact Hnone]. intros d Hd. cbn. rewrite Hd. reflexivity.
Qed.

Lemma sorted_filter {A : Type} (R : A -> A -> Prop) (f : A -> bool) (l : list A) :
  StronglySorted R l -> StronglySorted R (filter f l).
Proof.
  induction 1 as [| a l Hs IH Hall]; [constructor |].
  cbn [filter]. destruct (f a); [| exact IH].
  constructor; [exact IH | apply Forall_filter, Hall].
Qed.

Lemma sorted_snoc {A : Type} (R : A -> A -> Prop) (l : list A) (z : A) :
  StronglySorted R l -> Forall (fun a => R a z) l -> StronglySorted R (l ++ [z]).
Proof.
  induction 1 as [| a l Hs IH Hall]; intros Hz; cbn [app].
  - constructor; constructor.
  - inversion Hz; subst. constructor; [apply IH; assumption |].
    apply Forall_app. split; [exact Hall | constructor; [assumption | constructor]].
Qed.

(** In the flight curve an estimated point weighs strictly less than a
    measured one. *)
Lemma flight_curve_separated (series : list point) (m : R)
    (capacityAh usablePct : num) (points : nat) (p q : curvePoint) :
  (0 < m)%R ->
  In p (buildFlightCurve series (Fin m) capacityAh usablePct points) ->
  In q (buildFlightCurve series (Fin m) capacityAh usablePct points) ->
  p.(est) = true -> q.(est) = false ->
  (q.(w) <=? p.(w)) = false.
Proof.
  intros Hm Hp Hq Hpe Hqe.
  destruct (buildFlightCurve_point _ _ _ _ _ _ Hp) as [lo [r [Hlo [Hw [[_ Hr] | [He _]]]]]];
    [| congruence].
  destruct (buildFlightCurve_point _ _ _ _ _ _ Hq) as [lo' [r' [Hlo' [Hw' [[He' _] | [_ Hr']]]]]];
    [congruence |].
  assert (lo' = lo) by congruence. subst lo'.
  rewrite Hw, Hw'. cbn [le]. apply Rleb_false. nra.
Qed.

(** X10. For a positive finite motor count the flight curve consists of its
    estimated points followed by its measured points: every point flagged
    [est] weighs less than every point that is not.  [splitCurve] of the curve
    therefore cuts it in two runs, and both parts it returns are sorted by
    weight. *)
Theorem flight_curve_estimated_then_measured :
  forall (series : list point) (m : R) (capacityAh usablePct : num) (points : nat),
    (0 < m)%R ->
    let curve := buildFlightCurve series (Fin m) capacityAh usablePct points in
    curve = filter (fun d => d.(est)) curve ++ known (splitCurve curve) /\
    StronglySorted (key_le w) (known (splitCurve curve)) /\
    StronglySorted (key_le w) (estimated (splitCurve curve)).
Proof.
  intros series m capacityAh usablePct points Hm curve.
  pose proof (buildFlightCurve_sorted series m capacityAh usablePct points) as Hs.
  pose proof (buildFlightCurve_weights series m capacityAh usablePct points) as Hw.
  pose proof (fun p q => flight_curve_separated series m capacityAh usablePct points p q Hm)
    as Hsep.
  fold curve in Hs, Hw, Hsep.
  pose proof (sorted_flag_split curve Hs Hsep) as Hsplit.
  pose proof (sorted_filter (key_le w) (fun d => negb d.(est)) curve Hs) as Hkn.
  pose proof (sorted_filter (key_le w) (fun d => d.(est)) curve Hs) as Hes.
  assert (Hknown : known (splitCurve curve) = filter (fun d => negb d.(est)) curve).
  { unfold splitCurve. destruct curve as [| c0 cs]; [reflexivity |]. cbv zeta.
    destruct (filter (fun d => negb d.(est)) (c0 :: cs)) as [| bnd kn]; [reflexivity |].
    destruct (filter (fun d => d.(est)) (c0 :: cs)) as [| e0 es0]; [reflexivity |].
    destruct (Math_abs _ >? 1e-6); reflexivity. }
  rewrite Hknown. split; [exact Hsplit |]. split; [exact Hkn |].
  unfold splitCurve. destruct curve as [| c0 cs] eqn:Ec; [constructor |]. cbv zeta.
  destruct (filter (fun d => negb d.(est)) (c0 :: cs)) as [| bnd kn] eqn:Ekn;
    [exact Hes |].
  destruct (filter (fun d => d.(est)) (c0 :: cs)) as [| e0 es0] eqn:Ees; [exact Hes |].
  destruct (Math_abs _ >? 1e-6); cbn [estimated]; [| exact Hes].
  apply sorted_snoc; [exact Hes |].
  apply Forall_forall. intros a Ha. unfold key_le. cbn [w].
  assert (Hain : In a (c0 :: cs) /\ a.(est) = true).
  { rewrite <- Ees in Ha. apply filter_In in Ha. exact Ha. }
  assert (Hbin : In bnd (c0 :: cs) /\ negb bnd.(est) = true).
  { assert (Hb : In bnd (bnd :: kn)) by (left; reflexivity).
    rewrite <- Ekn in Hb. apply filter_In in Hb. exact Hb. }
  destruct Hain as [Hain Hae]. destruct Hbin as [Hbin Hbe].
  apply negb_true_iff in Hbe.
  pose proof (Hsep a bnd Hain Hbin Hae Hbe) as Hlt.
  rewrite Forall_forall in Hw.
  destruct (Hw a Hain) as [ra Hra]. destruct (Hw bnd Hbin) as [rb Hrb].
  rewrite Hra, Hrb in Hlt |- *. cbn [le] in Hlt |- *.
  destruct (Rleb_spec rb ra); [discriminate |]. apply Rleb_true. lra.
Qed.

Lemma flight_curve_estimated_then_measured_witness :
  StronglySorted (key_le w)
    (estimated (splitCurve (buildFlightCurve [mkPoint 5 1 None; mkPoint 10 2 None] 4 20 80 40))).
Proof.
  apply (flight_curve_estimated_then_measured [mkPoint 5 1 None; mkPoint 10 2 None] 4 20 80 40).
  lra.
Defined.

(** ** The two parts of a split curve *)

Lemma filter_partition_perm {A : Type} (f : A -> bool) (l : list A) :
  Permutation (filter (fun a => negb (f a)) l ++ filter f l) l.
Proof.
  induction l as [| a l IH]; [apply perm_nil |].
  cbn [filter]. destruct (f a); cbn [negb app].
  - apply Permutation_sym, Permutation_cons_app, Permutation_sym, IH.
  - apply perm_skip, IH.
Qed.

Lemma splitCurve_shape (curve : list curvePoint) :
  known (splitCurve curve) = filter (fun d => negb d.(est)) curve /\
  (estimated (splitCurve curve) = filter (fun d => d.(est)) curve \/
   exists bnd ks,
     known (splitCurve curve) = bnd :: ks /\
     estimated (splitCurve curve) =
     filter (fun d => d.(est)) curve ++ [mkCurve bnd.(w) bnd.(t) true]).
Proof.
  unfold splitCurve. destruct curve as [| c0 cs]; cbv zeta.
  - split; [reflexivity | left; reflexivity].
  - destruct (filter (fun d => negb d.(est)) (c0 :: cs)) as [| bnd kn].
    + split; [reflexivity | left; reflexivity].
    + destruct (filter (fun d => d.(est)) (c0 :: cs)) as [| e0 es0].
      * split; [reflexivity | left; reflexivity].
      * destruct (Math_abs _ >? 1e-6); cbn [known estimated].
        -- split; [reflexivity |]. right. exists bnd, kn. split; reflexivity.
        -- split; [reflexivity | left; reflexivity].
Qed.

(** X11. [splitCurve] of any curve keeps in [known] exactly the points that
    are not flagged [est], in their order, and puts in the estimated part the
    flagged points, in their order, followed at most by one copy of the first
    known point flagged [est]: no point of the curve is lost, and the flags
    of both parts are uniform. *)
Theorem splitCurve_parts :
  forall curve : list curvePoint,
    known (splitCurve curve) = filter (fun d => negb d.(est)) curve /\
    Forall (fun d => d.(est) = false) (known (splitCurve curve)) /\
    Forall (fun d => d.(est) = true) (estimated (splitCurve curve)) /\
    Permutation (known (splitCurve curve) ++ filter (fun d => d.(est)) curve) curve /\
    (estimated (splitCurve curve) = filter (fun d => d.(est)) curve \/
     exists bnd ks,
       known (splitCurve curve) = bnd :: ks /\
       estimated (splitCurve curve) =
       filter (fun d => d.(est)) curve ++ [mkCurve bnd.(w) bnd.(t) true]).
Proof.
  intros curve.
  assert (Hkn : Forall (fun d => d.(est) = false) (filter (fun d => negb d.(est)) curve)).
  { apply Forall_forall. intros d Hd. apply filter_In in Hd.
    apply negb_true_iff. apply Hd. }
  assert (Hes : Forall (fun d => d.(est) = true) (filter (fun d => d.(est)) curve)).
  { apply Forall_forall. intros d Hd. apply filter_In in Hd. apply Hd. }
  pose proof (filter_partition_perm (fun d => d.(est)) curve) as Hperm.
  destruct (splitCurve_shape curve) as [Hk He].
  rewrite Hk.
  split; [reflexivity |]. split; [exact Hkn |].
  split; [| split; [exact Hperm |]].
  - destruct He as [-> | [bnd [ks [_ ->]]]]; [exact Hes |].
    apply Forall_app. split; [exact Hes |].
    constructor; [reflexivity | constructor].
  - destruct He as [He | [bnd [ks [Hb He]]]]; [left; exact He |].
    right. exists bnd, ks. rewrite <- Hk. split; assumption.
Qed.

(** ** The sampled lifts *)



(** ** The hover time *)

(** X13. With a finite battery capacity [>= 0] and a usable percentage in
    [[0, 100]], the hover time of [App] is absent for an [Err] answer and for
    a current that is zero or negative; for every other current that is a
    number it is a finite number of minutes in [[0, 120]].  A [NaN] current
    is not caught by the test [totalCurrent <= 0] and gives a [NaN] time. *)
Theorem hover_time_range :
  forall (cap u : R),
    (0 <= cap)%R -> (0 <= u <= 100)%R ->
    (forall why, App.time (Err why) (Fin cap) (Fin u) = None) /\
    (forall (c th : num) (n : bool),
        notNaN c = true ->
        ((c <=? 0) = true /\ App.time (Ok c th n) (Fin cap) (Fin u) = None) \/
        ((c >? 0) = true /\
         exists m : R,
           App.time (Ok c th n) (Fin cap) (Fin u) = Some (Fin m) /\ (0 <= m <= 120)%R)) /\
    (forall (th : num) (n : bool),
        App.time (Ok NaN th n) (Fin cap) (Fin u) = Some NaN).
Proof.
  intros cap u Hcap Hu.
  assert (Hq : (0 <= cap * (u / 100))%R) by (apply Rmult_le_pos; lra).
  split; [reflexivity |]. split.
  - intros c th n Hc. unfold App.time, App.motorCount.
    rewrite div_Fin by lra. cbn [mul].
    destruct c as [| | | cr]; [discriminate | | |].
    + right. split; [reflexivity |]. cbn [mul mul_inf le div].
      rewrite Rltb_true by lra. cbn [inf_of_sign le div mul]. rewrite min2_Fin.
      eexists. split; [reflexivity |]. rewrite Rmin_left by lra. lra.
    + left. split; [reflexivity |]. cbn [mul mul_inf le].
      rewrite Rltb_true by lra. reflexivity.
    + cbn [mul le]. unfold gt. cbn [lt].
      destruct (Rleb_spec (cr * 4) 0) as [Hle | Hgt].
      * left. split; [apply Rleb_true; lra | reflexivity].
      * right. split; [apply Rltb_true; lra |].
        rewrite div_Fin by lra. cbn [mul]. rewrite min2_Fin.
        eexists. split; [reflexivity |].
        assert (H0 : (0 <= cap * (u / 100) / (cr * 4) * 60)%R).
        { apply Rmult_le_pos; [| lra].
          apply Rmult_le_pos; [exact Hq |]. left. apply Rinv_0_lt_compat. lra. }
        split; [apply Rmin_glb; lra | apply Rmin_r].
  - intros th n. unfold App.time. rewrite div_Fin by lra. reflexivity.
Qed.

Lemma hover_time_range_witness :
  App.time (Err exceeds_max) 20 80 = None /\
  App.time (Ok NaN 0 false) 20 80 = Some NaN.
Proof.
  destruct (hover_time_range 20 80) as [Herr [_ Hnan]]; [lra | lra |].
  split; [apply Herr | apply Hnan].
Defined.

(** X14. For a per-motor current that is a finite number of at least 0.1 A,
    the hover time of [App] is the number of minutes [buildFlightCurve] gives
    to a point of the same current with the four motors of [App] (smaller
    currents are floored at 0.1 A by the curve only). *)
Theorem hover_time_agrees_with_curve :
  forall (cr : R) (th : num) (n : bool) (capacityAh usablePct : num),
    (0.1 <= cr)%R ->
    App.time (Ok (Fin cr) th n) capacityAh usablePct =
    Some (minutesAt (Fin cr) App.motorCount (capacityAh * (usablePct / 100))).
Proof.
  intros cr th n capacityAh usablePct Hc.
  unfold App.time, minutesAt, App.motorCount.
  rewrite or_else_nonzero by lra. rewrite max2_Fin, (Rmax_left cr 0.1) by lra.
  cbn [mul le]. unfold gt. cbn [lt].
  rewrite Rleb_false by lra. rewrite Rltb_true by lra. reflexivity.
Qed.

Lemma hover_time_agrees_with_curve_witness :
  App.time (Ok (Fin 7.5) 0 false) 20 80 =
  Some (minutesAt (Fin 7.5) App.motorCount (Fin 20 * (Fin 80 / 100))).
Proof.
  apply hover_time_agrees_with_curve. lra.
Defined.

(** ** The totals *)

Lemma lt_le_trans' (a b c : num) : (a <=? b) = true -> (b <? c) = true -> (a <? c) = true.
Proof. num_crush. Qed.

(** The reduction keeps the first point of the largest thrust. *)
Lemma fold_max_first (l : list point) (m0 : point) :
  Forall (fun p => Number_isFinite p.(y) = true) l ->
  Number_isFinite m0.(y) = true ->
  let r := fold_left (fun m p => if p.(y) >? m.(y) then p else m) l m0 in
  (r = m0 /\ Forall (fun p => (p.(y) <=? m0.(y)) = true) l) \/
  (exists pre post,
      l = pre ++ r :: post /\
      Forall (fun p => (p.(y) <? r.(y)) = true) pre /\
      (m0.(y) <? r.(y)) = true /\
      Forall (fun p => (p.(y) <=? r.(y)) = true) post).
Proof.
  intros Hl. revert m0. induction Hl as [| p t Hp Ht IH]; intros m0 Hm0; cbv zeta.
  - left. split; [reflexivity | constructor].
  - cbn [fold_left]. destruct (p.(y) >? m0.(y)) eqn:Hgt.
    + unfold gt in Hgt. right.
      destruct (IH p Hp) as [[Hr Hall] | [pre [post [Ht' [Hpre [Hlt Hpost]]]]]].
      * exists [], t. cbn [app]. rewrite Hr.
        split; [reflexivity |]. split; [constructor |]. split; assumption.
      * exists (p :: pre), post. cbn [app]. split; [f_equal; exact Ht' |].
        split; [constructor; assumption |]. split; [| exact Hpost].
        apply (lt_trans _ _ _ Hgt Hlt).
    + assert (Hle : (p.(y) <=? m0.(y)) = true).
      { apply not_gt_le; [apply isFinite_notNaN, Hp | apply isFinite_notNaN, Hm0 | exact Hgt]. }
      destruct (IH m0 Hm0) as [[Hr Hall] | [pre [post [Ht' [Hpre [Hlt Hpost]]]]]].
      * left. split; [exact Hr | constructor; assumption].
      * right. exists (p :: pre), post. cbn [app]. split; [f_equal; exact Ht' |].
        split; [| split; assumption].
        constructor; [| exact Hpre].
        apply (lt_le_trans' _ _ _ Hle Hlt).
Qed.

(** X15. For a non-empty series with finite thrusts, [TotalsDisplay] reports
    the first point, in the order of the series, that has the largest thrust:
    every earlier point has a strictly smaller thrust, no later point has a
    larger one.  The two numbers shown are the thrust and the current of that
    point times the motor count, and the thrust is [Math.max] of the
    thrusts. *)
Theorem totals_of_first_largest_thrust :
  forall (series : list point) (motorCount : num),
    series <> [] ->
    Forall (fun p => Number_isFinite p.(y) = true) series ->
    exists (maxPt : point) (pre post : list point),
      maxPoint series = Some maxPt /\
      series = pre ++ maxPt :: post /\
      Forall (fun p => (p.(y) <? maxPt.(y)) = true) pre /\
      Forall (fun p => (p.(y) <=? maxPt.(y)) = true) post /\
      maxPt.(y) = Math_max (map y series) /\
      TotalsDisplay series motorCount =
      Some (mkTotals (maxPt.(y) * motorCount) (maxPt.(x) * motorCount)).
Proof.
  intros series motorCount Hne Hy.
  destruct series as [| first rest]; [congruence |].
  inversion Hy as [| ? ? Hfirst Hrest]; subst.
  assert (Hshape : exists maxPt pre post,
             maxPoint (first :: rest) = Some maxPt /\
             first :: rest = pre ++ maxPt :: post /\
             Forall (fun p => (p.(y) <? maxPt.(y)) = true) pre /\
             Forall (fun p => (p.(y) <=? maxPt.(y)) = true) post).
  { unfold maxPoint. cbn [fold_left].
    replace (first.(y) >? first.(y)) with false by (symmetry; apply lt_irrefl).
    destruct (fold_max_first rest first Hrest Hfirst)
      as [[Hr Hall] | [pre [post [Ht' [Hpre [Hlt Hpost]]]]]].
    - eexists. exists [], rest. split; [reflexivity |]. rewrite Hr. cbn [app].
      split; [reflexivity |]. split; [constructor | exact Hall].
    - eexists. exists (first :: pre), post. split; [reflexivity |]. cbn [app].
      split; [f_equal; exact Ht' |]. split; [constructor; assumption | exact Hpost]. }
  destruct Hshape as [maxPt [pre [post [Hmax [Hs [Hpre Hpost]]]]]].
  exists maxPt, pre, post.
  split; [exact Hmax |]. split; [exact Hs |]. split; [exact Hpre |].
  split; [exact Hpost |]. split; [| unfold TotalsDisplay; rewrite Hmax; reflexivity].
  assert (Hin : In maxPt (first :: rest)).
  { rewrite Hs. apply in_or_app. right. left. reflexivity. }
  assert (Hmf : Number_isFinite maxPt.(y) = true).
  { rewrite Forall_forall in Hy. apply Hy, Hin. }
  destruct (Math_max_finite_strong (map y (first :: rest)) (map_y_finite _ Hy))
    as [m [Hm [Hmin Hall]]]; [discriminate |].
  rewrite Hm. rewrite Forall_forall in Hall.
  apply le_antisym.
  - apply Hall, in_map, Hin.
  - apply in_map_iff in Hmin. destruct Hmin as [p [Hp Hpin]]. rewrite <- Hp.
    rewrite Hs in Hpin. apply in_app_or in Hpin.
    rewrite Forall_forall in Hpre, Hpost.
    destruct Hpin as [Hpin | [<- | Hpin]].
    + apply lt_le, Hpre, Hpin.
    + apply le_refl_Fin, Hmf.
    + apply Hpost, Hpin.
Qed.

Lemma totals_of_first_largest_thrust_witness :
  exists (maxPt : point) (pre post : list point),
    maxPoint [mkPoint 5 1 None; mkPoint 10 2 None; mkPoint 11 2 None] = Some maxPt /\
    [mkPoint 5 1 None; mkPoint 10 2 None; mkPoint 11 2 None] = pre ++ maxPt :: post /\
    Forall (fun p => (p.(y) <? maxPt.(y)) = true) pre /\
    Forall (fun p => (p.(y) <=? maxPt.(y)) = true) post /\
    maxPt.(y) = Math_max (map y [mkPoint 5 1 None; mkPoint 10 2 None; mkPoint 11 2 None]) /\
    TotalsDisplay [mkPoint 5 1 None; mkPoint 10 2 None; mkPoint 11 2 None] 4 =
    Some (mkTotals (maxPt.(y) * 4) (maxPt.(x) * 4)).
Proof.
  apply (totals_of_first_largest_thrust
           [mkPoint 5 1 None; mkPoint 10 2 None; mkPoint 11 2 None] 4).
  - discriminate.
  - repeat constructor.
Defined.

(** ** The chart domains *)

Lemma or_else_zero (r : R) : (Fin r || 0) = Fin r.
Proof.
  rewrite or_else_Fin. destruct (Reqb_spec r 0) as [-> | _]; reflexivity.
Qed.

Lemma Math_max_cons_Fin (r : R) (l : list num) (m : R) :
  Math_max l = Fin m -> Math_max (Fin r :: l) = Fin (Rmax r m).
Proof.
  intros H. change (Math_max (Fin r :: l)) with (max2 (Fin r) (Math_max l)).
  rewrite H. apply max2_Fin.
Qed.

Lemma Math_max_single (r : R) : Math_max [Fin r] = Fin r.
Proof. reflexivity. Qed.

Lemma merged_rows_finite (seriesA seriesB : list point) (mode : App.limitMode) :
  Forall (fun p => Number_isFinite p.(x) = true) seriesA ->
  Forall (fun p => Number_isFinite p.(x) = true) seriesB ->
  Forall (finiteKey App.mx)
    (map (fun p => App.mkMerged (p.(x) * App.modeScale mode)
                     (Some (p.(y) * match mode with
                                    | App.total => App.motorCount
                                    | App.perMotor => Fin 1
                                    end))
                     p.(throttle) None None) seriesA ++
     map (fun p => App.mkMerged (p.(x) * App.modeScale mode) None None
                     (Some (p.(y) * match mode with
                                    | App.total => App.motorCount
                                    | App.perMotor => Fin 1
                                    end))
                     p.(throttle)) seriesB).
Proof.
  intros HA HB. apply Forall_app. split.
  - apply Forall_forall. intros d Hd. apply in_map_iff in Hd.
    destruct Hd as [p [<- Hp]]. rewrite Forall_forall in HA.
    destruct (isFinite_Fin _ (HA p Hp)) as [r Hr].
    unfold finiteKey. cbn [App.mx]. rewrite Hr. destruct mode; reflexivity.
  - apply Forall_forall. intros d Hd. apply in_map_iff in Hd.
    destruct Hd as [p [<- Hp]]. rewrite Forall_forall in HB.
    destruct (isFinite_Fin _ (HB p Hp)) as [r Hr].
    unfold finiteKey. cbn [App.mx]. rewrite Hr. destruct mode; reflexivity.
Qed.

(** X16. For series with finite currents and a finite battery limit [>= 0],
    the rows of the power chart are sorted by [x], one row per point of the
    two series; the right end [chartMaxX] of the axis is at least the
    effective limit and at least the [x] of every row; and the two shaded
    areas are drawn, the first from 80 percent of the effective limit to the
    limit, the second from the limit to [chartMaxX]. *)
Theorem chart_limits_cover_data :
  forall (seriesA seriesB : list point) (mode : App.limitMode) (bmax : R),
    Forall (fun p => Number_isFinite p.(x) = true) seriesA ->
    Forall (fun p => Number_isFinite p.(x) = true) seriesB ->
    (0 <= bmax)%R ->
    let rows := App.merged seriesA seriesB mode in
    StronglySorted (key_le App.mx) rows /\
    length rows = (length seriesA + length seriesB)%nat /\
    exists e cmax : R,
      App.effectiveMax mode (Fin bmax) = Fin e /\
      App.chartMaxX rows mode (Fin bmax) = Fin cmax /\
      (0 <= e <= cmax)%R /\
      Forall (fun d => (d.(App.mx) <=? Fin cmax) = true) rows /\
      App.limitAreas rows mode (Fin bmax) =
      Some ((Fin (e * 0.8), Fin e), (Fin e, Fin cmax)).
Proof.
  intros seriesA seriesB mode bmax HA HB Hb rows.
  pose proof (merged_rows_finite seriesA seriesB mode HA HB) as Hfin.
  assert (Hrows : Forall (finiteKey App.mx) rows).
  { subst rows. unfold App.merged. cbv zeta. apply sort_Forall. exact Hfin. }
  split; [subst rows; unfold App.merged; cbv zeta; apply sort_sorted; exact Hfin |].
  split.
  { subst rows. unfold App.merged. cbv zeta.
    rewrite sort_length, length_app, !length_map. reflexivity. }
  assert (He : exists e : R, App.effectiveMax mode (Fin bmax) = Fin e /\ (0 <= e)%R).
  { destruct mode; unfold App.effectiveMax, App.motorCount.
    - rewrite div_Fin by lra. eexists. split; [reflexivity |].
      apply Rmult_le_pos; [exact Hb | lra].
    - exists bmax. split; [reflexivity | exact Hb]. }
  destruct He as [e [He He0]].
  assert (Hdata : exists dm : R,
             App.dataMaxX rows = Fin dm /\
             Forall (fun d => (d.(App.mx) <=? Fin dm) = true) rows).
  { unfold App.dataMaxX.
    assert (Hl : Forall (fun v => Number_isFinite v = true)
                   (map (fun d => d.(App.mx) || 0) rows ++ [Fin 0])).
    { apply Forall_app. split; [| repeat constructor].
      apply Forall_forall. intros v Hv. apply in_map_iff in Hv.
      destruct Hv as [d [<- Hd]]. rewrite Forall_forall in Hrows.
      destruct (isFinite_Fin _ (Hrows d Hd)) as [r ->]. rewrite or_else_zero. reflexivity. }
    destruct (Math_max_finite_strong _ Hl) as [dm [Hdm [_ Hall]]].
    { intros Hnil. apply app_eq_nil in Hnil. destruct Hnil as [_ Hnil]. discriminate. }
    exists dm. split; [exact Hdm |].
    apply Forall_forall. intros d Hd. rewrite Forall_forall in Hall, Hrows.
    destruct (isFinite_Fin _ (Hrows d Hd)) as [r Hr].
    replace (d.(App.mx)) with (d.(App.mx) || 0) by (rewrite Hr; apply or_else_zero).
    apply Hall. apply in_or_app. left.
    apply (in_map (fun d0 => d0.(App.mx) || 0)). exact Hd. }
  destruct Hdata as [dm [Hdm Hdall]].
  assert (Hc : App.chartMaxX rows mode (Fin bmax) =
               Fin (Rmax dm (Rmax (e * 1.1) (e * 0.8 * 1.1)))).
  { unfold App.chartMaxX, App.warnThreshold. rewrite Hdm, He. cbn [mul].
    rewrite !or_else_zero. cbn [mul].
    rewrite (Math_max_cons_Fin dm _ (Rmax (e * 1.1) (e * 0.8 * 1.1))); [reflexivity |].
    rewrite (Math_max_cons_Fin (e * 1.1) _ (e * 0.8 * 1.1)); reflexivity. }
  exists e, (Rmax dm (Rmax (e * 1.1) (e * 0.8 * 1.1))).
  assert (Hec : (e <= Rmax dm (Rmax (e * 1.1) (e * 0.8 * 1.1)))%R).
  { eapply Rle_trans; [| apply Rmax_r]. eapply Rle_trans; [| apply Rmax_l]. lra. }
  split; [exact He |]. split; [exact Hc |]. split; [split; assumption |]. split.
  - eapply Forall_impl; [| exact Hdall]. intros d Hd.
    apply (key_le_trans (fun v : num => v) _ (Fin dm) _ Hd).
    unfold key_le. cbn. apply Rleb_true, Rmax_l.
  - unfold App.limitAreas. cbv zeta. rewrite Hc. unfold App.warnThreshold. rewrite He.
    cbn [mul Number_isFinite andb]. rewrite max2_Fin, max2_Fin, min2_Fin.
    rewrite (Rmax_left (e * 0.8) 0) by lra. rewrite (Rmax_left e 0) by lra.
    rewrite Rmin_left by exact Hec. reflexivity.
Qed.

Lemma chart_limits_cover_data_witness :
  StronglySorted (key_le App.mx)
    (App.merged [mkPoint 5 1 None; mkPoint 10 2 None] [mkPoint 7 1 None] App.total).
Proof.
  apply (chart_limits_cover_data [mkPoint 5 1 None; mkPoint 10 2 None] [mkPoint 7 1 None]
           App.total 100).
  - repeat constructor.
  - repeat constructor.
  - lra.
Defined.

(** X17. The weight axis of the flight-time chart covers both curves that
    [App] draws and the current takeoff weight: for a finite takeoff weight,
    [weightMax] is a finite number that is at least 0, at least the takeoff
    weight and at least the weight of every point of the two curves. *)
Theorem weight_axis_covers_curves :
  forall (seriesA seriesB : list point) (capacityAh usablePct : num) (k : R),
    let curveA := App.flightCurve seriesA capacityAh usablePct in
    let curveB := App.flightCurve seriesB capacityAh usablePct in
    exists wm : R,
      App.weightMax curveA curveB (Fin k) = Fin wm /\
      (0 <= wm)%R /\ (k <= wm)%R /\
      Forall (fun p => (p.(w) <=? Fin wm) = true) (curveA ++ curveB).
Proof.
  intros seriesA seriesB capacityAh usablePct k curveA curveB.
  assert (HwA : Forall finiteWeight curveA)
    by (apply (buildFlightCurve_weights seriesA 4 capacityAh usablePct 40)).
  assert (HwB : Forall finiteWeight curveB)
    by (apply (buildFlightCurve_weights seriesB 4 capacityAh usablePct 40)).
  assert (Hmap : forall l, Forall finiteWeight l ->
                           Forall (fun v => Number_isFinite v = true) (map w l)).
  { intros l Hl. apply Forall_forall. intros v Hv. apply in_map_iff in Hv.
    destruct Hv as [p [<- Hp]]. rewrite Forall_forall in Hl.
    destruct (Hl p Hp) as [r ->]. reflexivity. }
  unfold App.weightMax. rewrite or_else_zero.
  assert (Hl : Forall (fun v => Number_isFinite v = true)
                 (map w curveA ++ map w curveB ++ [Fin k; Fin 0])).
  { apply Forall_app. split; [apply Hmap, HwA |].
    apply Forall_app. split; [apply Hmap, HwB | repeat constructor]. }
  destruct (Math_max_finite_strong _ Hl) as [wm [Hwm [_ Hall]]].
  { intros Hnil. apply app_eq_nil in Hnil. destruct Hnil as [_ Hnil].
    apply app_eq_nil in Hnil. destruct Hnil as [_ Hnil]. discriminate. }
  rewrite Forall_forall in Hall.
  assert (Hk : (Fin k <=? Fin wm) = true).
  { apply Hall. apply in_or_app. right. apply in_or_app. right. left. reflexivity. }
  assert (H0 : (Fin 0 <=? Fin wm) = true).
  { apply Hall. apply in_or_app. right. apply in_or_app. right. right. left. reflexivity. }
  cbn [le] in Hk, H0.
  destruct (Rleb_spec k wm); [| discriminate]. destruct (Rleb_spec 0 wm); [| discriminate].
  exists wm. split; [exact Hwm |]. split; [assumption |]. split; [assumption |].
  apply Forall_forall. intros p Hp. apply Hall.
  apply in_app_or in Hp. destruct Hp as [Hp | Hp].
  - apply in_or_app. left. apply in_map, Hp.
  - apply in_or_app. right. apply in_or_app. left. apply in_map, Hp.
Qed.

(** ** From the rows to the hover answer *)

(** X18. When at least two rows of a data sheet have a finite current and a
    finite thrust, the hover query of [App] on the series built from the rows
    succeeds for every finite takeoff weight, or reports [exceeds_max]: it
    returns neither [no_data] nor [segment_not_found]. *)
Theorem hover_on_built_series :
  forall (rows : list row) (k : R),
    (2 <= length (filter finiteRow rows))%nat ->
    (exists c th n, App.hover (buildSeries (Some rows)) (Fin k) = Ok c th n) \/
    App.hover (buildSeries (Some rows)) (Fin k) = Err exceeds_max.
Proof.
  intros rows k Hlen. unfold App.hover, App.perMotorLiftNeeded, App.motorCount.
  rewrite div_Fin by lra.
  set (series := buildSeries (Some rows)).
  assert (Hy : Forall (fun p => Number_isFinite p.(y) = true) series).
  { eapply Forall_impl; [| apply buildSeries_finite]. intros p [_ Hp]. exact Hp. }
  assert (Hl : (2 <= length series)%nat).
  { subst series. rewrite (Permutation_length (buildSeries_perm rows)), length_map.
    exact Hlen. }
  destruct (byThrust_nonempty series) as [min [rest E]].
  { destruct series; [simpl in Hl; lia | discriminate]. }
  destruct (Fin (k / 4) <? min.(y)) eqn:Hlo.
  - left. pose proof (interpolate_below _ _ min rest E Hlo) as Hx.
    destruct (extrapolation_estimated _ _ _ Hx) as [c [th Hok]]. eauto.
  - destruct (Fin (k / 4) >? (last (min :: rest) min).(y)) eqn:Hhi.
    + right. unfold interpolateCurrentForLift. rewrite E. cbv zeta.
      rewrite Hlo, Hhi. reflexivity.
    + left.
      destruct (interpolate_in_range_ok series (Fin (k / 4)) min rest) as [c [th Hok]];
        try assumption; try reflexivity.
      * eapply Forall_impl; [| exact Hy]. intros a. apply isFinite_notNaN.
      * eauto.
Qed.

Lemma hover_on_built_series_witness :
  (exists c th n,
      App.hover (buildSeries (Some [mkRow 5 1 None; mkRow 4 NaN None; mkRow 10 2 None])) 6
      = Ok c th n) \/
  App.hover (buildSeries (Some [mkRow 5 1 None; mkRow 4 NaN None; mkRow 10 2 None])) 6
  = Err exceeds_max.
Proof.
  apply (hover_on_built_series [mkRow 5 1 None; mkRow 4 NaN None; mkRow 10 2 None] 6).
  simpl. lia.
Defined.

(** ** normalizeCatalogUrl *)

Section UrlFacts.
Import Stdlib.NArith.BinNat Stdlib.Strings.String.

Lemma stripPrefix_app (l s : Url.str) : Url.stripPrefix l (l ++ s) = Some s.
Proof.
  induction l as [| c l IH]; [destruct s; reflexivity |].
  cbn [app Url.stripPrefix]. rewrite N.eqb_refl. exact IH.
Qed.

Lemma stripPrefix_sound (l s s' : Url.str) : Url.stripPrefix l s = Some s' -> s = l ++ s'.
Proof.
  revert s. induction l as [| c l IH]; intros s H.
  - destruct s; cbn in H; injection H as <-; reflexivity.
  - destruct s as [| d s]; [discriminate |]. cbn [Url.stripPrefix] in H.
    destruct (N.eqb_spec c d) as [-> |]; [| discriminate].
    cbn [app]. f_equal. apply IH, H.
Qed.

Lemma startsWith_app (l s : Url.str) : Url.startsWith l (l ++ s) = true.
Proof. unfold Url.startsWith. rewrite stripPrefix_app. reflexivity. Qed.

Lemma matchGroup_stops (p : N -> bool) (k : Url.str -> option (list Url.str))
    (acc rest : Url.str) :
  Url.stops p rest -> Url.matchGroup p k acc rest = None.
Proof.
  destruct rest as [| d rest]; [reflexivity |]. cbn [Url.stops Url.matchGroup].
  intros ->. reflexivity.
Qed.

(** When the rest of the pattern cannot start inside the run, the group takes
    the whole run. *)
Lemma matchGroup_exact (p : N -> bool) (k : Url.str -> option (list Url.str))
    (acc seg rest : Url.str) :
  seg <> [] -> forallb p seg = true -> Url.stops p rest ->
  (forall c s, p c = true -> k (c :: s) = None) ->
  Url.matchGroup p k acc (seg ++ rest) = option_map (cons (acc ++ seg)) (k rest).
Proof.
  intros Hne Hseg Hstop Hk. revert acc.
  induction seg as [| c seg IH]; [congruence |]. intros acc.
  cbn [forallb] in Hseg. apply andb_true_iff in Hseg. destruct Hseg as [Hc Hseg].
  cbn [app Url.matchGroup]. rewrite Hc.
  destruct seg as [| c' seg'].
  - cbn [app]. rewrite (matchGroup_stops p k (acc ++ [c]) rest Hstop). reflexivity.
  - rewrite IH by (try discriminate; exact Hseg).
    rewrite <- app_assoc. cbn [app].
    destruct (k rest) as [r |]; [reflexivity |]. cbn [option_map].
    cbn [forallb] in Hseg. apply andb_true_iff in Hseg.
    rewrite (Hk c' (seg' ++ rest) (proj1 Hseg)). reflexivity.
Qed.

Lemma matchTokens_lit (l : Url.str) (ts : list Url.tok) (s : Url.str) :
  Url.matchTokens (Url.Lit l :: ts) (l ++ s) = Url.matchTokens ts s.
Proof. cbn [Url.matchTokens]. rewrite stripPrefix_app. reflexivity. Qed.

Lemma matchTokens_lit_None (l : Url.str) (ts : list Url.tok) (s : Url.str) :
  Url.stripPrefix l s = None -> Url.matchTokens (Url.Lit l :: ts) s = None.
Proof. intros H. cbn [Url.matchTokens]. rewrite H. reflexivity. Qed.

(** A segment followed by a slash. *)
Lemma matchTokens_segment (l : Url.str) (ts : list Url.tok) (seg rest : Url.str) :
  Url.segment seg ->
  Url.matchTokens (Url.Group Url.notSlash :: Url.Lit (47%N :: l) :: ts)
    (seg ++ (47%N :: rest))
  = option_map (cons seg) (Url.matchTokens (Url.Lit (47%N :: l) :: ts) (47%N :: rest)).
Proof.
  intros [Hne Hseg].
  change (Url.matchTokens (Url.Group Url.notSlash :: Url.Lit (47%N :: l) :: ts)
            (seg ++ (47%N :: rest)))
    with (Url.matchGroup Url.notSlash (Url.matchTokens (Url.Lit (47%N :: l) :: ts)) []
            (seg ++ (47%N :: rest))).
  rewrite matchGroup_exact; [reflexivity | exact Hne | exact Hseg | reflexivity |].
  intros c s Hc. cbn [Url.matchTokens Url.stripPrefix].
  unfold Url.notSlash in Hc. apply negb_true_iff in Hc.
  rewrite N.eqb_sym, Hc. reflexivity.
Qed.

(** The tail up to the end of the string. *)
Lemma matchTokens_tail (path : Url.str) :
  Url.tail path -> Url.matchTokens [Url.Group Url.dot] path = Some [path].
Proof.
  intros [Hne Hp].
  change (Url.matchTokens [Url.Group Url.dot] path)
    with (Url.matchGroup Url.dot (Url.matchTokens []) [] path).
  rewrite <- (app_nil_r path) at 1.
  rewrite matchGroup_exact; [reflexivity | exact Hne | exact Hp | exact I |].
  intros c s _. reflexivity.
Qed.

(** The scheme and the host: the optional [s] is followed by the colon. *)
Lemma matchTokens_scheme (host host' : Url.str) (ts : list Url.tok) (secure : bool)
    (s : Url.str) :
  Url.matchTokens (Url.Lit (Url.lit "http") :: Url.OptChar 115%N
                     :: Url.Lit (58%N :: host) :: ts)
    (Url.scheme secure ++ (58%N :: host') ++ s)
  = Url.matchTokens (Url.Lit (58%N :: host) :: ts) ((58%N :: host') ++ s).
Proof.
  destruct secure; unfold Url.scheme.
  - change (Url.lit "https") with (Url.lit "http" ++ [115%N]).
    rewrite <- app_assoc, matchTokens_lit.
    change ([115%N] ++ (58%N :: host') ++ s) with (115%N :: (58%N :: host') ++ s).
    change (Url.matchTokens (Url.OptChar 115%N :: Url.Lit (58%N :: host) :: ts)
              (115%N :: (58%N :: host') ++ s))
      with (match Url.matchTokens (Url.Lit (58%N :: host) :: ts) ((58%N :: host') ++ s) with
            | Some r => Some r
            | None => Url.matchTokens (Url.Lit (58%N :: host) :: ts)
                        (115%N :: (58%N :: host') ++ s)
            end).
    destruct (Url.matchTokens (Url.Lit (58%N :: host) :: ts) ((58%N :: host') ++ s));
      reflexivity.
  - rewrite matchTokens_lit. reflexivity.
Qed.

(** A URL of the shape of the pattern matches, and the groups are its parts. *)
Lemma filePattern_match (host mid : Url.str) (secure : bool)
    (owner repo ref path : Url.str) :
  Url.segment owner -> Url.segment repo -> Url.segment ref -> Url.tail path ->
  Url.matchTokens (Url.filePattern (58%N :: host) (47%N :: mid))
    (Url.fileUrl secure (58%N :: host) owner repo (47%N :: mid) ref path)
  = Some [owner; repo; ref; path].
Proof.
  intros Ho Hr Hf Hp. unfold Url.filePattern, Url.fileUrl.
  rewrite matchTokens_scheme, matchTokens_lit.
  change (Url.lit "/") with [47%N].
  change ([47%N] ++ repo ++ (47%N :: mid) ++ ref ++ [47%N] ++ path)
    with (47%N :: repo ++ (47%N :: mid) ++ ref ++ [47%N] ++ path).
  rewrite matchTokens_segment by exact Ho.
  change (47%N :: repo ++ (47%N :: mid) ++ ref ++ [47%N] ++ path)
    with ([47%N] ++ repo ++ (47%N :: mid) ++ ref ++ [47%N] ++ path).
  rewrite matchTokens_lit.
  change ((47%N :: mid) ++ ref ++ [47%N] ++ path)
    with (47%N :: mid ++ ref ++ [47%N] ++ path).
  rewrite matchTokens_segment by exact Hr.
  change (47%N :: mid ++ ref ++ [47%N] ++ path)
    with ((47%N :: mid) ++ ref ++ [47%N] ++ path).
  rewrite matchTokens_lit.
  change ([47%N] ++ path) with (47%N :: path).
  rewrite matchTokens_segment by exact Hf.
  change (47%N :: path) with ([47%N] ++ path).
  rewrite matchTokens_lit, matchTokens_tail by exact Hp.
  reflexivity.
Qed.

(** A URL with another host does not match. *)
Lemma filePattern_host (host host' mid : Url.str) (secure : bool) (s : Url.str) :
  Url.stripPrefix host (host' ++ s) = None ->
  Url.matchTokens (Url.filePattern (58%N :: host) mid)
    (Url.scheme secure ++ (58%N :: host') ++ s) = None.
Proof.
  intros H. unfold Url.filePattern.
  rewrite matchTokens_scheme. apply matchTokens_lit_None.
  cbn [app Url.stripPrefix]. rewrite N.eqb_refl. exact H.
Qed.

(** A URL with another middle part does not match. *)
Lemma filePattern_mid (host mid : Url.str) (secure : bool) (owner repo rest : Url.str) :
  Url.segment owner -> Url.segment repo ->
  Url.stripPrefix mid rest = None ->
  Url.matchTokens (Url.filePattern (58%N :: host) (47%N :: mid))
    (Url.scheme secure ++ (58%N :: host) ++ owner ++ Url.lit "/" ++ repo ++ (47%N :: rest))
  = None.
Proof.
  intros Ho Hr H. unfold Url.filePattern.
  rewrite matchTokens_scheme, matchTokens_lit.
  change (Url.lit "/") with [47%N].
  change ([47%N] ++ repo ++ (47%N :: rest)) with (47%N :: repo ++ (47%N :: rest)).
  rewrite matchTokens_segment by exact Ho.
  change (47%N :: repo ++ (47%N :: rest)) with ([47%N] ++ repo ++ (47%N :: rest)).
  rewrite matchTokens_lit.
  rewrite matchTokens_segment by exact Hr.
  rewrite matchTokens_lit_None; [reflexivity |].
  cbn [Url.stripPrefix]. rewrite N.eqb_refl. exact H.
Qed.

Lemma matchTokens_lit_inv (l : Url.str) (ts : list Url.tok) (u : Url.str)
    (m : list Url.str) :
  Url.matchTokens (Url.Lit l :: ts) u = Some m ->
  exists s, u = l ++ s /\ Url.matchTokens ts s = Some m.
Proof.
  cbn [Url.matchTokens].
  destruct (Url.stripPrefix l u) as [s |] eqn:Hs; [| discriminate].
  intros H. exists s. split; [apply stripPrefix_sound, Hs | exact H].
Qed.

Lemma matchTokens_opt_inv (c : N) (ts : list Url.tok) (u : Url.str) (m : list Url.str) :
  Url.matchTokens (Url.OptChar c :: ts) u = Some m ->
  Url.matchTokens ts u = Some m
  \/ exists s, u = c :: s /\ Url.matchTokens ts s = Some m.
Proof.
  cbn [Url.matchTokens]. destruct u as [| d s]; [left; assumption |].
  destruct (N.eqb_spec c d) as [<- | Hd]; [| left; assumption].
  destruct (Url.matchTokens ts s) as [r |] eqn:Hr; [| left; assumption].
  intros H. right. exists s. split; [reflexivity | congruence].
Qed.

(** A match begins with the scheme and the host of the pattern. *)
Lemma filePattern_prefix (host mid u : Url.str) (m : list Url.str) :
  Url.matchTokens (Url.filePattern host mid) u = Some m ->
  Url.startsWith (Url.lit "http" ++ host) u = true
  \/ Url.startsWith (Url.lit "https" ++ host) u = true.
Proof.
  unfold Url.filePattern. intros H.
  apply matchTokens_lit_inv in H. destruct H as [s [-> H]].
  apply matchTokens_opt_inv in H. destruct H as [H | [s' [-> H]]];
    apply matchTokens_lit_inv in H; destruct H as [t [-> _]].
  - left. rewrite app_assoc. apply startsWith_app.
  - right. change (Url.lit "https") with (Url.lit "http" ++ [115%N]).
    rewrite <- (app_assoc (Url.lit "http") [115%N] host).
    change ([115%N] ++ host) with (115%N :: host).
    change (115%N :: host ++ t) with ((115%N :: host) ++ t).
    rewrite app_assoc. apply startsWith_app.
Qed.

(** The normaliser as the cascade of the three matches, for every string:
    nothing matches the empty string. *)
Lemma normalizeCatalogUrl_eq (u : Url.str) :
  Url.normalizeCatalogUrl u
  = match Url.matchTokens Url.githubRaw u with
    | Some m1 => Url.rawUrl m1
    | None =>
        match Url.matchTokens Url.githubBlob u with
        | Some m2 => Url.rawUrl m2
        | None =>
            match Url.matchTokens Url.rawRefsHeads u with
            | Some m3 => Url.rawUrl m3
            | None => u
            end
        end
    end.
Proof. destruct u; reflexivity. Qed.

(** Two segments followed by a slash that start the same string are equal. *)
Lemma segment_unique (a b x y : Url.str) :
  forallb Url.notSlash a = true -> forallb Url.notSlash b = true ->
  a ++ 47%N :: x = b ++ 47%N :: y -> a = b.
Proof.
  revert b. induction a as [| c a IH]; intros [| d b] Ha Hb H.
  - reflexivity.
  - cbn in H. injection H as <- _. cbn in Hb. discriminate.
  - cbn in H. injection H as -> _. cbn in Ha. discriminate.
  - cbn [app] in H. injection H as -> H.
    cbn [forallb] in Ha, Hb. apply andb_true_iff in Ha, Hb.
    f_equal. apply (IH b); tauto.
Qed.

(** The raw URL built from the groups of a match. *)
Lemma rawUrl_fileUrl (owner repo ref path : Url.str) :
  Url.rawUrl [owner; repo; ref; path]
  = Url.fileUrl true Url.rawHost owner repo (Url.lit "/") ref path.
Proof.
  unfold Url.rawUrl, Url.fileUrl, Url.scheme. cbn [nth].
  change (Url.lit "https://raw.githubusercontent.com/")
    with (Url.lit "https" ++ Url.rawHost).
  rewrite <- !app_assoc. reflexivity.
Qed.

Lemma fileUrl_eq (secure : bool) (host owner repo mid ref path : Url.str) :
  Url.fileUrl secure (58%N :: host) owner repo (47%N :: mid) ref path
  = Url.scheme secure ++ (58%N :: host) ++ owner ++ Url.lit "/" ++ repo
    ++ (47%N :: mid ++ ref ++ Url.lit "/" ++ path).
Proof. reflexivity. Qed.

(** No pattern for github.com matches a URL on raw.githubusercontent.com. *)
Lemma github_pattern_on_raw (mid : Url.str) (secure : bool) (owner repo mid' ref path : Url.str) :
  Url.matchTokens (Url.filePattern Url.githubHost mid)
    (Url.fileUrl secure Url.rawHost owner repo mid' ref path) = None.
Proof.
  unfold Url.fileUrl.
  change Url.githubHost with (58%N :: Url.lit "//github.com/").
  change Url.rawHost with (58%N :: Url.lit "//raw.githubusercontent.com/").
  apply filePattern_host. reflexivity.
Qed.

(** The middle part [/refs/heads/] is found only when the ref is [refs]. *)
Lemma refs_heads_prefix (ref path : Url.str) :
  forallb Url.notSlash ref = true -> ref <> Url.lit "refs" ->
  Url.stripPrefix (Url.lit "refs/heads/") (ref ++ Url.lit "/" ++ path) = None.
Proof.
  intros Href Hne.
  destruct (Url.stripPrefix (Url.lit "refs/heads/") (ref ++ Url.lit "/" ++ path))
    as [s |] eqn:Hs; [| reflexivity].
  apply stripPrefix_sound in Hs. exfalso. apply Hne.
  apply (segment_unique ref (Url.lit "refs") path (Url.lit "heads/" ++ s) Href);
    [reflexivity | exact Hs].
Qed.

Lemma matchGroup_inv (p : N -> bool) (k : Url.str -> option (list Url.str))
    (acc s : Url.str) (r : list Url.str) :
  Url.matchGroup p k acc s = Some r ->
  exists seg rest r',
    s = seg ++ rest /\ seg <> [] /\ forallb p seg = true
    /\ k rest = Some r' /\ r = (acc ++ seg) :: r'.
Proof.
  revert acc. induction s as [| d s IH]; intros acc; [discriminate |].
  cbn [Url.matchGroup]. destruct (p d) eqn:Hd; [| discriminate].
  destruct (Url.matchGroup p k (acc ++ [d]) s) as [r0 |] eqn:Hr0.
  - intros H. injection H as <-. apply IH in Hr0.
    destruct Hr0 as [seg [rest [r' [-> [_ [Hseg [Hk ->]]]]]]].
    exists (d :: seg), rest, r'. rewrite <- app_assoc.
    repeat split; [discriminate | | exact Hk].
    cbn [forallb]. rewrite Hd. exact Hseg.
  - destruct (k s) as [r' |] eqn:Hk; [| discriminate].
    intros H. injection H as <-.
    exists [d], s, r'. repeat split; [discriminate | | exact Hk].
    cbn [forallb]. rewrite Hd. reflexivity.
Qed.

Lemma matchTokens_group_inv (p : N -> bool) (ts : list Url.tok) (s : Url.str)
    (r : list Url.str) :
  Url.matchTokens (Url.Group p :: ts) s = Some r ->
  exists seg rest r',
    s = seg ++ rest /\ seg <> [] /\ forallb p seg = true
    /\ Url.matchTokens ts rest = Some r' /\ r = seg :: r'.
Proof. intros H. apply (matchGroup_inv p (Url.matchTokens ts) [] s r H). Qed.

(** Whatever a pattern matches has the shape of the pattern. *)
Lemma filePattern_inv (host mid u : Url.str) (m : list Url.str) :
  Url.matchTokens (Url.filePattern host mid) u = Some m ->
  exists secure owner repo ref path,
    u = Url.fileUrl secure host owner repo mid ref path
    /\ Url.segment owner /\ Url.segment repo /\ Url.segment ref /\ Url.tail path
    /\ m = [owner; repo; ref; path].
Proof.
  unfold Url.filePattern. intros H.
  apply matchTokens_lit_inv in H. destruct H as [s [-> H]].
  assert (Hrest : forall t,
             Url.matchTokens
               [Url.Lit host; Url.Group Url.notSlash; Url.Lit (Url.lit "/");
                Url.Group Url.notSlash; Url.Lit mid; Url.Group Url.notSlash;
                Url.Lit (Url.lit "/"); Url.Group Url.dot] t = Some m ->
             exists owner repo ref path,
               t = host ++ owner ++ Url.lit "/" ++ repo ++ mid ++ ref ++ Url.lit "/" ++ path
               /\ Url.segment owner /\ Url.segment repo /\ Url.segment ref
               /\ Url.tail path /\ m = [owner; repo; ref; path]).
  { intros t Ht.
    apply matchTokens_lit_inv in Ht. destruct Ht as [t1 [-> Ht]].
    apply matchTokens_group_inv in Ht.
    destruct Ht as [owner [t2 [m1 [-> [Ho1 [Ho2 [Ht ->]]]]]]].
    apply matchTokens_lit_inv in Ht. destruct Ht as [t3 [-> Ht]].
    apply matchTokens_group_inv in Ht.
    destruct Ht as [repo [t4 [m2 [-> [Hr1 [Hr2 [Ht ->]]]]]]].
    apply matchTokens_lit_inv in Ht. destruct Ht as [t5 [-> Ht]].
    apply matchTokens_group_inv in Ht.
    destruct Ht as [ref [t6 [m3 [-> [Hf1 [Hf2 [Ht ->]]]]]]].
    apply matchTokens_lit_inv in Ht. destruct Ht as [t7 [-> Ht]].
    apply matchTokens_group_inv in Ht.
    destruct Ht as [path [t8 [m4 [-> [Hp1 [Hp2 [Ht ->]]]]]]].
    destruct t8; [| discriminate]. injection Ht as <-.
    exists owner, repo, ref, path. rewrite app_nil_r.
    repeat split; assumption. }
  apply matchTokens_opt_inv in H. destruct H as [H | [s' [-> H]]];
    apply Hrest in H; destruct H as [owner [repo [ref [path [-> H]]]]].
  - exists false, owner, repo, ref, path. split; [reflexivity | exact H].
  - exists true, owner, repo, ref, path. split; [| exact H].
    unfold Url.fileUrl, Url.scheme.
    change (Url.lit "https") with (Url.lit "http" ++ [115%N]).
    rewrite <- app_assoc. reflexivity.
Qed.

(** X19. A link to a file on github.com, [http(s)://github.com/owner/repo/blob/ref/path]
    or the same with [raw] for [blob], is turned into
    [https://raw.githubusercontent.com/owner/repo/ref/path]: owner, repo and
    ref are non-empty and without a slash, the path is non-empty and without
    a line terminator (it may contain slashes). *)
Theorem github_file_url_normalized (secure : bool) (kind owner repo ref path : Url.str) :
  kind = Url.lit "/blob/" \/ kind = Url.lit "/raw/" ->
  Url.segment owner -> Url.segment repo -> Url.segment ref -> Url.tail path ->
  Url.normalizeCatalogUrl (Url.fileUrl secure Url.githubHost owner repo kind ref path)
  = Url.fileUrl true Url.rawHost owner repo (Url.lit "/") ref path.
Proof.
  intros Hkind Ho Hr Hf Hp. rewrite normalizeCatalogUrl_eq.
  unfold Url.githubRaw, Url.githubBlob.
  change Url.githubHost with (58%N :: Url.lit "//github.com/").
  destruct Hkind as [-> | ->].
  - change (Url.lit "/blob/") with (47%N :: Url.lit "blob/").
    change (Url.lit "/raw/") with (47%N :: Url.lit "raw/").
    rewrite (fileUrl_eq secure _ owner repo (Url.lit "blob/") ref path) at 1.
    rewrite (filePattern_mid _ (Url.lit "raw/") secure owner repo _ Ho Hr)
      by reflexivity.
    rewrite filePattern_match by assumption.
    apply rawUrl_fileUrl.
  - change (Url.lit "/raw/") with (47%N :: Url.lit "raw/").
    rewrite filePattern_match by assumption.
    apply rawUrl_fileUrl.
Qed.

Lemma github_file_url_normalized_witness :
  Url.normalizeCatalogUrl (Url.lit "https://github.com/aepkolol/motor-check/blob/main/index.json")
  = Url.lit "https://raw.githubusercontent.com/aepkolol/motor-check/main/index.json".
Proof.
  apply (github_file_url_normalized true (Url.lit "/blob/") (Url.lit "aepkolol")
           (Url.lit "motor-check") (Url.lit "main") (Url.lit "index.json")).
  - left. reflexivity.
  - split; [discriminate | reflexivity].
  - split; [discriminate | reflexivity].
  - split; [discriminate | reflexivity].
  - split; [discriminate | reflexivity].
Defined.

(** X20. On raw.githubusercontent.com the [refs/heads/] before the branch is
    dropped: [http(s)://raw.githubusercontent.com/owner/repo/refs/heads/ref/path]
    becomes [https://raw.githubusercontent.com/owner/repo/ref/path]. *)
Theorem raw_refs_heads_dropped (secure : bool) (owner repo ref path : Url.str) :
  Url.segment owner -> Url.segment repo -> Url.segment ref -> Url.tail path ->
  Url.normalizeCatalogUrl
    (Url.fileUrl secure Url.rawHost owner repo (Url.lit "/refs/heads/") ref path)
  = Url.fileUrl true Url.rawHost owner repo (Url.lit "/") ref path.
Proof.
  intros Ho Hr Hf Hp. rewrite normalizeCatalogUrl_eq.
  unfold Url.githubRaw, Url.githubBlob, Url.rawRefsHeads.
  rewrite !github_pattern_on_raw.
  change Url.rawHost with (58%N :: Url.lit "//raw.githubusercontent.com/").
  change (Url.lit "/refs/heads/") with (47%N :: Url.lit "refs/heads/").
  rewrite filePattern_match by assumption.
  apply rawUrl_fileUrl.
Qed.

Lemma raw_refs_heads_dropped_witness :
  Url.normalizeCatalogUrl
    (Url.lit "http://raw.githubusercontent.com/aepkolol/motor-check/refs/heads/main/motors/index.json")
  = Url.lit "https://raw.githubusercontent.com/aepkolol/motor-check/main/motors/index.json".
Proof.
  apply (raw_refs_heads_dropped false (Url.lit "aepkolol") (Url.lit "motor-check")
           (Url.lit "main") (Url.lit "motors/index.json")).
  - split; [discriminate | reflexivity].
  - split; [discriminate | reflexivity].
  - split; [discriminate | reflexivity].
  - split; [discriminate | reflexivity].
Defined.

(** X21. A URL that does not begin with [http://] or [https://] followed by
    [github.com/] or [raw.githubusercontent.com/] is returned as it is; so
    are relative paths such as the default [./motors/index.json], and the
    empty string. *)
Theorem other_urls_unchanged (u : Url.str) :
  Url.startsWith (Url.lit "http://github.com/") u = false ->
  Url.startsWith (Url.lit "https://github.com/") u = false ->
  Url.startsWith (Url.lit "http://raw.githubusercontent.com/") u = false ->
  Url.startsWith (Url.lit "https://raw.githubusercontent.com/") u = false ->
  Url.normalizeCatalogUrl u = u.
Proof.
  intros H1 H2 H3 H4. rewrite normalizeCatalogUrl_eq.
  unfold Url.githubRaw, Url.githubBlob, Url.rawRefsHeads.
  destruct (Url.matchTokens (Url.filePattern Url.githubHost (Url.lit "/raw/")) u)
    as [m |] eqn:Hm1.
  { apply filePattern_prefix in Hm1. destruct Hm1 as [H | H].
    - change (Url.lit "http" ++ Url.githubHost) with (Url.lit "http://github.com/") in H.
      congruence.
    - change (Url.lit "https" ++ Url.githubHost) with (Url.lit "https://github.com/") in H.
      congruence. }
  destruct (Url.matchTokens (Url.filePattern Url.githubHost (Url.lit "/blob/")) u)
    as [m |] eqn:Hm2.
  { apply filePattern_prefix in Hm2. destruct Hm2 as [H | H].
    - change (Url.lit "http" ++ Url.githubHost) with (Url.lit "http://github.com/") in H.
      congruence.
    - change (Url.lit "https" ++ Url.githubHost) with (Url.lit "https://github.com/") in H.
      congruence. }
  destruct (Url.matchTokens (Url.filePattern Url.rawHost (Url.lit "/refs/heads/")) u)
    as [m |] eqn:Hm3; [| reflexivity].
  apply filePattern_prefix in Hm3. destruct Hm3 as [H | H].
  - change (Url.lit "http" ++ Url.rawHost)
      with (Url.lit "http://raw.githubusercontent.com/") in H.
    congruence.
  - change (Url.lit "https" ++ Url.rawHost)
      with (Url.lit "https://raw.githubusercontent.com/") in H.
    congruence.
Qed.

Lemma other_urls_unchanged_witness :
  Url.normalizeCatalogUrl (Url.lit "./motors/index.json") = Url.lit "./motors/index.json".
Proof.
  apply (other_urls_unchanged (Url.lit "./motors/index.json")); reflexivity.
Defined.

(** X22. A URL on raw.githubusercontent.com, [owner/repo/ref/path] with a ref
    other than [refs], is returned as it is (its scheme included): the
    results of the normaliser on a ref other than [refs] are left alone by a
    second pass. *)
Theorem raw_url_unchanged (secure : bool) (owner repo ref path : Url.str) :
  Url.segment owner -> Url.segment repo -> Url.segment ref ->
  ref <> Url.lit "refs" ->
  Url.normalizeCatalogUrl (Url.fileUrl secure Url.rawHost owner repo (Url.lit "/") ref path)
  = Url.fileUrl secure Url.rawHost owner repo (Url.lit "/") ref path.
Proof.
  intros Ho Hr Hf Hne. rewrite normalizeCatalogUrl_eq.
  unfold Url.githubRaw, Url.githubBlob, Url.rawRefsHeads.
  rewrite !github_pattern_on_raw.
  change Url.rawHost with (58%N :: Url.lit "//raw.githubusercontent.com/").
  change (Url.lit "/refs/heads/") with (47%N :: Url.lit "refs/heads/").
  change (Url.lit "/") with (47%N :: []) at 1 3.
  rewrite (fileUrl_eq secure _ owner repo [] ref path) at 1.
  rewrite (filePattern_mid _ (Url.lit "refs/heads/") secure owner repo _ Ho Hr);
    [reflexivity |].
  apply refs_heads_prefix; [apply Hf | exact Hne].
Qed.

Lemma raw_url_unchanged_witness :
  Url.normalizeCatalogUrl
    (Url.lit "https://raw.githubusercontent.com/aepkolol/motor-check/main/index.json")
  = Url.lit "https://raw.githubusercontent.com/aepkolol/motor-check/main/index.json".
Proof.
  apply (raw_url_unchanged true (Url.lit "aepkolol") (Url.lit "motor-check")
           (Url.lit "main") (Url.lit "index.json")).
  - split; [discriminate | reflexivity].
  - split; [discriminate | reflexivity].
  - split; [discriminate | reflexivity].
  - discriminate.
Defined.

(** X23. One pass does not always reach a form the normaliser leaves alone:
    [http(s)://github.com/owner/repo/raw/refs/heads/ref/path] becomes
    [https://raw.githubusercontent.com/owner/repo/refs/heads/ref/path], which a
    second pass turns into [https://raw.githubusercontent.com/owner/repo/ref/path]. *)
Theorem github_raw_refs_heads_two_passes (secure : bool) (owner repo ref path : Url.str) :
  Url.segment owner -> Url.segment repo -> Url.segment ref -> Url.tail ref ->
  Url.tail path ->
  let u := Url.fileUrl secure Url.githubHost owner repo (Url.lit "/raw/") (Url.lit "refs")
             (Url.lit "heads/" ++ ref ++ Url.lit "/" ++ path) in
  Url.normalizeCatalogUrl u
  = Url.fileUrl true Url.rawHost owner repo (Url.lit "/refs/heads/") ref path
  /\ Url.normalizeCatalogUrl (Url.normalizeCatalogUrl u)
     = Url.fileUrl true Url.rawHost owner repo (Url.lit "/") ref path
  /\ Url.normalizeCatalogUrl (Url.normalizeCatalogUrl u) <> Url.normalizeCatalogUrl u.
Proof.
  intros Ho Hr Hf Hf' Hp u.
  assert (H1 : Url.normalizeCatalogUrl u
               = Url.fileUrl true Url.rawHost owner repo (Url.lit "/refs/heads/") ref path).
  { unfold u. rewrite normalizeCatalogUrl_eq. unfold Url.githubRaw.
    change Url.githubHost with (58%N :: Url.lit "//github.com/").
    change (Url.lit "/raw/") with (47%N :: Url.lit "raw/").
    rewrite filePattern_match.
    - rewrite rawUrl_fileUrl. reflexivity.
    - exact Ho.
    - exact Hr.
    - split; [discriminate | reflexivity].
    - split; [discriminate |].
      rewrite !forallb_app. rewrite (proj2 Hf'), (proj2 Hp). reflexivity. }
  assert (H2 : Url.normalizeCatalogUrl (Url.normalizeCatalogUrl u)
               = Url.fileUrl true Url.rawHost owner repo (Url.lit "/") ref path).
  { rewrite H1, normalizeCatalogUrl_eq.
    unfold Url.githubRaw, Url.githubBlob, Url.rawRefsHeads.
    rewrite !github_pattern_on_raw.
    change Url.rawHost with (58%N :: Url.lit "//raw.githubusercontent.com/").
    change (Url.lit "/refs/heads/") with (47%N :: Url.lit "refs/heads/").
    rewrite filePattern_match by assumption.
    apply rawUrl_fileUrl. }
  split; [exact H1 | split; [exact H2 |]].
  rewrite H2, H1. unfold Url.fileUrl. intros H.
  repeat apply app_inv_head in H.
  apply (f_equal (@List.length N)) in H. rewrite !length_app in H.
  cbn in H. lia.
Qed.

Lemma github_raw_refs_heads_two_passes_witness :
  let u := Url.lit "https://github.com/aepkolol/motor-check/raw/refs/heads/main/index.json" in
  Url.normalizeCatalogUrl u
  = Url.lit "https://raw.githubusercontent.com/aepkolol/motor-check/refs/heads/main/index.json"
  /\ Url.normalizeCatalogUrl (Url.normalizeCatalogUrl u)
     = Url.lit "https://raw.githubusercontent.com/aepkolol/motor-check/main/index.json"
  /\ Url.normalizeCatalogUrl (Url.normalizeCatalogUrl u) <> Url.normalizeCatalogUrl u.
Proof.
  apply (github_raw_refs_heads_two_passes true (Url.lit "aepkolol") (Url.lit "motor-check")
           (Url.lit "main") (Url.lit "index.json")).
  - split; [discriminate | reflexivity].
  - split; [discriminate | reflexivity].
  - split; [discriminate | reflexivity].
  - split; [discriminate | reflexivity].
  - split; [discriminate | reflexivity].
Defined.

(** X24. The normaliser changes nothing else: a URL it does not return as it
    is has one of the three shapes ([github.com] with [/raw/] or [/blob/],
    [raw.githubusercontent.com] with [/refs/heads/]), and the result is the
    raw URL of its owner, repo, ref and path. *)
Theorem changed_urls_have_the_shapes (u : Url.str) :
  Url.normalizeCatalogUrl u <> u ->
  exists secure host mid owner repo ref path,
    u = Url.fileUrl secure host owner repo mid ref path
    /\ ((host = Url.githubHost /\ (mid = Url.lit "/raw/" \/ mid = Url.lit "/blob/"))
        \/ (host = Url.rawHost /\ mid = Url.lit "/refs/heads/"))
    /\ Url.segment owner /\ Url.segment repo /\ Url.segment ref /\ Url.tail path
    /\ Url.normalizeCatalogUrl u
       = Url.fileUrl true Url.rawHost owner repo (Url.lit "/") ref path.
Proof.
  intros Hne. rewrite normalizeCatalogUrl_eq in Hne |- *.
  unfold Url.githubRaw, Url.githubBlob, Url.rawRefsHeads in *.
  destruct (Url.matchTokens (Url.filePattern Url.githubHost (Url.lit "/raw/")) u)
    as [m1 |] eqn:Hm1.
  { apply filePattern_inv in Hm1.
    destruct Hm1 as [secure [owner [repo [ref [path [Hu [Ho [Hr [Hf [Hp ->]]]]]]]]]].
    exists secure, Url.githubHost, (Url.lit "/raw/"), owner, repo, ref, path.
    rewrite rawUrl_fileUrl.
    refine (conj Hu (conj _ (conj Ho (conj Hr (conj Hf (conj Hp eq_refl)))))).
    left. split; [reflexivity | left; reflexivity]. }
  destruct (Url.matchTokens (Url.filePattern Url.githubHost (Url.lit "/blob/")) u)
    as [m2 |] eqn:Hm2.
  { apply filePattern_inv in Hm2.
    destruct Hm2 as [secure [owner [repo [ref [path [Hu [Ho [Hr [Hf [Hp ->]]]]]]]]]].
    exists secure, Url.githubHost, (Url.lit "/blob/"), owner, repo, ref, path.
    rewrite rawUrl_fileUrl.
    refine (conj Hu (conj _ (conj Ho (conj Hr (conj Hf (conj Hp eq_refl)))))).
    left. split; [reflexivity | right; reflexivity]. }
  destruct (Url.matchTokens (Url.filePattern Url.rawHost (Url.lit "/refs/heads/")) u)
    as [m3 |] eqn:Hm3; [| congruence].
  apply filePattern_inv in Hm3.
  destruct Hm3 as [secure [owner [repo [ref [path [Hu [Ho [Hr [Hf [Hp ->]]]]]]]]]].
  exists secure, Url.rawHost, (Url.lit "/refs/heads/"), owner, repo, ref, path.
  rewrite rawUrl_fileUrl.
  refine (conj Hu (conj _ (conj Ho (conj Hr (conj Hf (conj Hp eq_refl)))))).
  right. split; reflexivity.
Qed.

Lemma changed_urls_have_the_shapes_witness :
  exists secure host mid owner repo ref path,
    Url.lit "https://github.com/aepkolol/motor-check/blob/main/index.json"
    = Url.fileUrl secure host owner repo mid ref path
    /\ ((host = Url.githubHost /\ (mid = Url.lit "/raw/" \/ mid = Url.lit "/blob/"))
        \/ (host = Url.rawHost /\ mid = Url.lit "/refs/heads/"))
    /\ Url.segment owner /\ Url.segment repo /\ Url.segment ref /\ Url.tail path
    /\ Url.normalizeCatalogUrl
         (Url.lit "https://github.com/aepkolol/motor-check/blob/main/index.json")
       = Url.fileUrl true Url.rawHost owner repo (Url.lit "/") ref path.
Proof.
  apply (changed_urls_have_the_shapes
           (Url.lit "https://github.com/aepkolol/motor-check/blob/main/index.json")).
  vm_compute. discriminate.
Defined.

End UrlFacts.
